(** * Autocomplete: a ternary search tree with bounded completion lists

    A shallow embedding of [query_serving.py] (classes [Node] and
    [QueryServer]) together with the parts of the Python runtime it relies
    on: string and tuple comparison, [str.split], [str.join], [str(int)],
    [int(str)], [list.sort(reverse=True)] and the [heapq] module.

    Modelling conventions.
    - A Python [str] is a [string]; characters are restricted to the 256
      code points an [ascii] can hold, compared by code point as Python does.
    - A Python [int] is a [Z].
    - A Python exception is a value [Raise e] of the type [result].
    - The object graph under [QueryServer.root] is a tree (every node is
      created once and linked under exactly one parent), so it is modelled
      as an inductive tree; a reference to a [Node] object is the path
      leading to it from the root.
    - The interpreter's recursion limit and its limit on the number of
      digits of an integer literal are not modelled.  [RecursionError] is
      what the recursive function [decode] of the model returns when the
      depth it is given runs out, which [deserialize] excludes by the depth
      it gives. *)

From Stdlib Require Import ZArith List String Ascii Bool Lia Arith.
From Stdlib Require Import Permutation Sorted.
From Stdlib Require Import DecimalString DecimalZ DecimalN DecimalPos Decimal.
Import ListNotations.

Local Open Scope string_scope.
Local Open Scope list_scope.

(** ** Exceptions *)

Inductive exn : Type :=
| TypeError | AttributeError | IndexError | ValueError | StopIteration
| RecursionError.

Inductive result (A : Type) : Type :=
| Ok (a : A)
| Raise (e : exn).
Arguments Ok {A} a.
Arguments Raise {A} e.

Definition bind {A B} (m : result A) (k : A -> result B) : result B :=
  match m with
  | Ok a => k a
  | Raise e => Raise e
  end.

Notation "x <- m ;; k" := (bind m (fun x => k))
  (at level 61, m at next level, right associativity).
Notation "' p <- m ;; k" := (bind m (fun x => match x with p => k end))
  (at level 61, p pattern, m at next level, right associativity).

(** ** Python strings *)

Module Py.

(** [a < b] on [str]. *)
Definition str_lt (a b : string) : bool := String.ltb a b.

(** [a == b] on [str]. *)
Definition str_eq (a b : string) : bool := String.eqb a b.

(** The characters [str.isspace] accepts among the first 256 code points;
    [str.split()] splits on runs of them. *)
Definition isspace (c : ascii) : bool :=
  let n := nat_of_ascii c in
  (((9 <=? n) && (n <=? 13)) || ((28 <=? n) && (n <=? 32))
   || (n =? 133) || (n =? 160))%nat.

(** [sep.join(parts)]. *)
Fixpoint join (sep : string) (parts : list string) : string :=
  match parts with
  | [] => EmptyString
  | [x] => x
  | x :: rest => (x ++ sep ++ join sep rest)%string
  end.

(** [s.split(",")]: the fields between the commas, empty ones included;
    the result is never empty. *)
Fixpoint split_on (sep : ascii) (s : string) : list string :=
  match s with
  | EmptyString => [EmptyString]
  | String c s' =>
      if Ascii.eqb c sep then EmptyString :: split_on sep s'
      else match split_on sep s' with
           | [] => [String c EmptyString]
           | f :: fs => String c f :: fs
           end
  end.

(** [s.split()]: the maximal runs of non-space characters.
    [split_ws_aux s] is the run [s] starts with (empty when [s] starts with
    a space) and the runs after it. *)
Fixpoint split_ws_aux (s : string) : string * list string :=
  match s with
  | EmptyString => (EmptyString, [])
  | String c s' =>
      let (w, ts) := split_ws_aux s' in
      if isspace c then
        (EmptyString, match w with EmptyString => ts | _ => w :: ts end)
      else (String c w, ts)
  end.

Definition split_ws (s : string) : list string :=
  let (w, ts) := split_ws_aux s in
  match w with EmptyString => ts | _ => w :: ts end.

(** [str(b)] on [bool]. *)
Definition str_of_bool (b : bool) : string := if b then "True" else "False".

(** [str(z)] on [int]: a minus sign for negative numbers, then the decimal
    digits without leading zeros. *)
Definition str_of_int (z : Z) : string := NilZero.string_of_int (Z.to_int z).

(** One decimal digit. *)
Definition digit_of_char (c : ascii) : option (uint -> uint) :=
  match c with
  | "0"%char => Some D0 | "1"%char => Some D1 | "2"%char => Some D2
  | "3"%char => Some D3 | "4"%char => Some D4 | "5"%char => Some D5
  | "6"%char => Some D6 | "7"%char => Some D7 | "8"%char => Some D8
  | "9"%char => Some D9 | _ => None
  end.

(** The digit part of an integer literal: digits, with single underscores
    allowed between two digits.  [after_digit] tells whether the previous
    character was a digit. *)
Fixpoint digits (after_digit : bool) (s : string) : option uint :=
  match s with
  | EmptyString => if after_digit then Some Nil else None
  | String c s' =>
      if Ascii.eqb c "_"%char then
        if after_digit then digits false s' else None
      else
        match digit_of_char c with
        | Some d => option_map d (digits true s')
        | None => None
        end
  end.

(** The white space [int()] skips around the literal. *)
Definition int_space (c : ascii) : bool :=
  let n := nat_of_ascii c in
  (((9 <=? n) && (n <=? 13)) || (n =? 32) || (n =? 133) || (n =? 160))%nat.

Fixpoint lstrip (s : string) : string :=
  match s with
  | String c s' => if int_space c then lstrip s' else s
  | EmptyString => EmptyString
  end.

(** Removes trailing white space: [rstrip s] is [s] without its longest
    suffix of [int_space] characters. *)
Fixpoint rstrip (s : string) : string :=
  match s with
  | EmptyString => EmptyString
  | String c s' =>
      match rstrip s' with
      | EmptyString => if int_space c then EmptyString else String c EmptyString
      | r => String c r
      end
  end.

(** [int(s)] on [str], base 10: optional white space, an optional sign,
    digits; [ValueError] otherwise. *)
Definition int_of_str (s : string) : result Z :=
  let body := rstrip (lstrip s) in
  let signed :=
    match body with
    | String "-"%char r => option_map Neg (digits false r)
    | String "+"%char r => option_map Pos (digits false r)
    | _ => option_map Pos (digits false body)
    end in
  match signed with
  | Some d => Ok (Z.of_int d)
  | None => Raise ValueError
  end.

End Py.

(** ** Completion entries and the [heapq] module *)

(** A completion entry is the tuple [(score, word)]. *)
Definition item : Type := (Z * string)%type.

(** [a < b] on tuples [(int, str)]: the first components that differ
    decide. *)
Definition tuple_lt (a b : item) : bool :=
  if negb (Z.eqb (fst a) (fst b)) then Z.ltb (fst a) (fst b)
  else if negb (Py.str_eq (snd a) (snd b)) then Py.str_lt (snd a) (snd b)
  else false.

Definition no_item : item := (0%Z, EmptyString).

(** [l[i]] for an index within the list. *)
Definition get_item (l : list item) (i : nat) : item := nth i l no_item.

(** [l[i] = x] for an index within the list. *)
Fixpoint set_item (l : list item) (i : nat) (x : item) : list item :=
  match l, i with
  | [], _ => []
  | _ :: l', O => x :: l'
  | y :: l', S i' => y :: set_item l' i' x
  end.

Module heapq.

(** The loop of [_siftdown]: [newitem] moves towards [startpos] while it is
    smaller than its parent.  [pos] decreases at every turn, so [pos]
    turns are enough. *)
Fixpoint siftdown_loop (turns : nat) (heap : list item) (startpos pos : nat)
    (newitem : item) : list item :=
  match turns with
  | O => set_item heap pos newitem
  | S turns' =>
      if (startpos <? pos)%nat then
        let parentpos := ((pos - 1) / 2)%nat in
        let parent := get_item heap parentpos in
        if tuple_lt newitem parent then
          siftdown_loop turns' (set_item heap pos parent) startpos parentpos newitem
        else set_item heap pos newitem
      else set_item heap pos newitem
  end.

Definition siftdown (heap : list item) (startpos pos : nat) : list item :=
  siftdown_loop pos heap startpos pos (get_item heap pos).

(** The loop of [_siftup]: the smaller child moves up until a leaf is
    reached; returns the list and the position of the leaf.  [pos] grows at
    every turn and stays below [endpos], so [endpos] turns are enough. *)
Fixpoint siftup_loop (turns : nat) (heap : list item) (endpos pos : nat)
    : list item * nat :=
  match turns with
  | O => (heap, pos)
  | S turns' =>
      let childpos := (2 * pos + 1)%nat in
      if (childpos <? endpos)%nat then
        let rightpos := (childpos + 1)%nat in
        let childpos :=
          if (rightpos <? endpos)%nat
             && negb (tuple_lt (get_item heap childpos) (get_item heap rightpos))
          then rightpos else childpos in
        siftup_loop turns' (set_item heap pos (get_item heap childpos)) endpos childpos
      else (heap, pos)
  end.

Definition siftup (heap : list item) (pos : nat) : list item :=
  let endpos := List.length heap in
  let startpos := pos in
  let newitem := get_item heap pos in
  let (heap1, leaf) := siftup_loop endpos heap endpos pos in
  siftdown (set_item heap1 leaf newitem) startpos leaf.

(** [heappush(heap, item)]. *)
Definition heappush (heap : list item) (x : item) : list item :=
  let heap1 := heap ++ [x] in
  siftdown heap1 0 (List.length heap1 - 1).

(** [heappop(heap)]: the list left and the item returned. *)
Definition heappop (heap : list item) : result (list item * item) :=
  match heap with
  | [] => Raise IndexError
  | _ =>
      let lastelt := last heap no_item in
      let heap1 := removelast heap in
      match heap1 with
      | [] => Ok (heap1, lastelt)
      | returnitem :: _ => Ok (siftup (set_item heap1 0 lastelt) 0, returnitem)
      end
  end.

End heapq.

(** [l.sort(reverse=True)] on a list of entries.  Two entries of which
    neither is smaller than the other are equal, so the order in which the
    sort leaves equal entries does not show. *)
Fixpoint insert_desc (x : item) (l : list item) : list item :=
  match l with
  | [] => [x]
  | y :: l' => if tuple_lt x y then y :: insert_desc x l' else x :: l
  end.

Definition sort_reverse (l : list item) : list item :=
  fold_right insert_desc [] l.

(** ** class Node *)

(** A value that is either [None] or a [Node] object with its seven
    attributes. *)
Inductive Node : Type :=
| PyNone
| mkNode (data : option string) (is_word : bool) (score : Z)
         (completions : list item) (left middle right : Node).

(** [Node(data)], and [Node()] for [data = None]. *)
Definition Node_init (data : option string) : Node :=
  mkNode data false 0 [] PyNone PyNone PyNone.

(** [Node.add_completion] on the list held by the node. *)
Definition add_completion (completions : list item) (word : string) (score : Z)
    : result (list item) :=
  let completions := heapq.heappush completions (score, word) in
  if (10 <? List.length completions)%nat then
    '(completions, _) <- heapq.heappop completions;;
    Ok completions
  else Ok completions.

(** Attribute access; on [None] it raises [AttributeError]. *)
Definition get_data (n : Node) : result (option string) :=
  match n with
  | PyNone => Raise AttributeError
  | mkNode d _ _ _ _ _ _ => Ok d
  end.

Definition get_middle (n : Node) : result Node :=
  match n with
  | PyNone => Raise AttributeError
  | mkNode _ _ _ _ _ m _ => Ok m
  end.

Definition get_completions_attr (n : Node) : result (list item) :=
  match n with
  | PyNone => Raise AttributeError
  | mkNode _ _ _ cs _ _ _ => Ok cs
  end.

Definition set_middle (m' : Node) (n : Node) : result Node :=
  match n with
  | PyNone => Raise AttributeError
  | mkNode d w s cs l _ r => Ok (mkNode d w s cs l m' r)
  end.

Definition set_completions (cs' : list item) (n : Node) : result Node :=
  match n with
  | PyNone => Raise AttributeError
  | mkNode d w s _ l m r => Ok (mkNode d w s cs' l m r)
  end.

(** [n.is_word = True; n.score = score]. *)
Definition mark_word (score' : Z) (n : Node) : result Node :=
  match n with
  | PyNone => Raise AttributeError
  | mkNode d _ _ cs l m r => Ok (mkNode d true score' cs l m r)
  end.

(** [n.add_completion(word, score)]. *)
Definition Node_add_completion (word : string) (score : Z) (n : Node) : result Node :=
  cs <- get_completions_attr n;;
  cs' <- add_completion cs word score;;
  set_completions cs' n.

(** ** References *)

(** A reference to a node object is the path to it from the root. *)
Inductive branch : Type := Left | Middle | Right.
Definition ref : Type := list branch.

Definition child (b : branch) (n : Node) : Node :=
  match n with
  | PyNone => PyNone
  | mkNode _ _ _ _ l m r =>
      match b with Left => l | Middle => m | Right => r end
  end.

(** The value a reference designates. *)
Fixpoint deref (t : Node) (p : ref) : Node :=
  match p with
  | [] => t
  | b :: p' => deref (child b t) p'
  end.

(** The tree after the object at [p] has been mutated by [f]. *)
Fixpoint update (t : Node) (p : ref) (f : Node -> result Node) {struct p}
    : result Node :=
  match p with
  | [] => f t
  | b :: p' =>
      match t with
      | PyNone => Raise AttributeError
      | mkNode d w s cs l m r =>
          match b with
          | Left => l' <- update l p' f;; Ok (mkNode d w s cs l' m r)
          | Middle => m' <- update m p' f;; Ok (mkNode d w s cs l m' r)
          | Right => r' <- update r p' f;; Ok (mkNode d w s cs l m r')
          end
      end
  end.

(** ** class QueryServer *)

Record QueryServer : Type := mkQueryServer { root : Node }.

(** [QueryServer()]. *)
Definition QueryServer_init : QueryServer := mkQueryServer (Node_init None).

(** [a < b] on the [data] attributes; comparing [None] raises [TypeError]. *)
Definition data_lt (a b : option string) : result bool :=
  match a, b with
  | Some x, Some y => Ok (Py.str_lt x y)
  | _, _ => Raise TypeError
  end.

(** [a == b] on the [data] attributes. *)
Definition data_eq (a b : option string) : bool :=
  match a, b with
  | Some x, Some y => Py.str_eq x y
  | None, None => true
  | _, _ => false
  end.

(** [insert_node(root, node)].  Returns the root and, with it, the place of
    [node] under that root, which the caller keeps as the reference [node]. *)
Fixpoint insert_node (root0 : Node) (node : Node) : result (Node * ref) :=
  match root0 with
  | PyNone => Ok (node, [])
  | mkNode d w s cs l m r =>
      nd <- get_data node;;
      lt <- data_lt d nd;;
      if lt then
        '(r', p) <- insert_node r node;;
        Ok (mkNode d w s cs l m r', Right :: p)
      else
        gt <- data_lt nd d;;
        if gt then
          '(l', p) <- insert_node l node;;
          Ok (mkNode d w s cs l' m r, Left :: p)
        else
          '(m', p) <- insert_node m node;;
          Ok (mkNode d w s cs l m' r, Middle :: p)
  end.

(** [search_char(root, char)]: the reference to the node found, relative to
    [root], or [None]. *)
Fixpoint search_char (root0 : Node) (char : string) : result (option ref) :=
  match root0 with
  | PyNone => Ok None
  | mkNode d _ _ _ l _ r =>
      if data_eq d (Some char) then Ok (Some [])
      else
        lt <- data_lt d (Some char);;
        if lt then
          found <- search_char r char;;
          Ok (option_map (cons Right) found)
        else
          found <- search_char l char;;
          Ok (option_map (cons Left) found)
  end.

(** The four lines shared by the loops of [insert] and [insert_completion]:
    [node = search_char(ptr.middle, c)], the creation of [node] when it is
    not found, and [ptr = node].  Returns the tree and the new [ptr]. *)
Definition descend (t : Node) (ptr : ref) (c : string) : result (Node * ref) :=
  m <- get_middle (deref t ptr);;
  found <- search_char m c;;
  match found with
  | Some q => Ok (t, ptr ++ Middle :: q)
  | None =>
      '(m', q) <- insert_node m (Node_init (Some c));;
      t' <- update t ptr (set_middle m');;
      Ok (t', ptr ++ Middle :: q)
  end.

(** The loop of [insert_completion], from the state where [ptr] is at
    [ptr] and [prefix] is what is left to iterate over. *)
Fixpoint insert_completion_loop (t : Node) (ptr : ref) (prefix : string)
    (word : string) (score : Z) : result Node :=
  match prefix with
  | EmptyString => Ok t
  | String c prefix' =>
      '(t1, node) <- descend t ptr (String c EmptyString);;
      t2 <- update t1 node (Node_add_completion word score);;
      insert_completion_loop t2 node prefix' word score
  end.

(** [insert_completion(prefix, word, score)]. *)
Definition insert_completion (self : QueryServer) (prefix word : string) (score : Z)
    : result QueryServer :=
  t <- insert_completion_loop (root self) [] prefix word score;;
  Ok (mkQueryServer t).

(** The loop of [insert]; [rest] is what is left of [word] to iterate over,
    so that at the character [c] at index [i], [word[i+1:]] is the part of
    [rest] after [c]. *)
Fixpoint insert_loop (self : QueryServer) (ptr : ref) (rest : string)
    (word : string) (score : Z) : result (QueryServer * ref) :=
  match rest with
  | EmptyString => Ok (self, ptr)
  | String c rest' =>
      self1 <- (if Ascii.eqb c "_"%char
                then insert_completion self rest' word score
                else Ok self);;
      '(t, node) <- descend (root self1) ptr (String c EmptyString);;
      insert_loop (mkQueryServer t) node rest' word score
  end.

(** [insert(word, score)]. *)
Definition insert (self : QueryServer) (word : string) (score : Z)
    : result QueryServer :=
  let ptr := @nil branch in
  t <- update (root self) ptr (Node_add_completion word score);;
  self1 <- insert_completion (mkQueryServer t) word word score;;
  '(self2, ptr) <- insert_loop self1 ptr word word score;;
  t' <- update (root self2) ptr (mark_word score);;
  Ok (mkQueryServer t').

(** The loop of [search]; [ptr] is [None] or a reference. *)
Fixpoint search_loop (t : Node) (ptr : option ref) (word : string)
    : result (option ref) :=
  match word with
  | EmptyString => Ok ptr
  | String c word' =>
      m <- match ptr with
           | None => Raise AttributeError
           | Some p => get_middle (deref t p)
           end;;
      found <- search_char m (String c EmptyString);;
      match ptr, found with
      | Some p, Some q => search_loop t (Some (p ++ Middle :: q)) word'
      | _, _ => Ok None
      end
  end.

(** [search(word)]. *)
Definition search (self : QueryServer) (word : string) : result (option ref) :=
  let ptr := match root self with PyNone => None | _ => Some [] end in
  search_loop (root self) ptr word.

(** [get_completions(prefix)]: the list returned and the server after the
    call. *)
Definition get_completions (self : QueryServer) (prefix : string)
    : result (list string * QueryServer) :=
  pre <- search self prefix;;
  match pre with
  | None => Ok ([], self)
  | Some p =>
      cs <- get_completions_attr (deref (root self) p);;
      let sorted := sort_reverse cs in
      t <- update (root self) p (set_completions sorted);;
      Ok (map snd sorted, mkQueryServer t)
  end.

(** [build_from_tuples(pairs)]. *)
Fixpoint build_from_tuples (self : QueryServer) (pairs : list (string * Z))
    : result QueryServer :=
  match pairs with
  | [] => Ok self
  | p :: pairs' =>
      self1 <- insert self (fst p) (snd p);;
      build_from_tuples self1 pairs'
  end.

(** The record [encode] appends for a node. *)
Definition encode_pair (p : item) : string :=
  (Py.str_of_int (fst p) ++ "," ++ snd p)%string.

Definition encode_node (d : option string) (w : bool) (s : Z) (cs : list item)
    : string :=
  ((match d with
    | Some (String c x) => String c x
    | _ => ":"
    end)
   ++ "," ++ Py.str_of_bool w ++ "," ++ Py.str_of_int s ++ ","
   ++ Py.join "," (map encode_pair cs))%string.

(** The inner function [encode] of [serialize]: what it appends to
    [encoding]. *)
Fixpoint encode (node : Node) : list string :=
  match node with
  | PyNone => [":"]
  | mkNode d w s cs l m r =>
      encode_node d w s cs :: encode l ++ encode m ++ encode r
  end.

(** [serialize()]. *)
Definition serialize (self : QueryServer) : string :=
  Py.join " " (encode (root self)).

(** The [while] loop of [decode], over the fields from index 3 on. *)
Fixpoint decode_completions (fields : list string) : result (list item) :=
  match fields with
  | [] => Ok []
  | [x] => _ <- Py.int_of_str x;; Raise IndexError
  | x :: y :: fields' =>
      z <- Py.int_of_str x;;
      cs <- decode_completions fields';;
      Ok ((z, y) :: cs)
  end.

(** [l[i]], raising [IndexError] out of range. *)
Definition index (l : list string) (i : nat) : result string :=
  match nth_error l i with
  | Some x => Ok x
  | None => Raise IndexError
  end.

(** The inner function [decode] of [deserialize], on the tokens the
    iterator has left; returns the node and the tokens left after it.  Every
    call takes a token, so the depth of the calls is at most the number of
    tokens: with [depth] above that number, [RecursionError] does not occur
    (lemma [decode_depth]), and more depth changes nothing (lemma
    [decode_deeper]). *)
Fixpoint decode (depth : nat) (encoding_iter : list string)
    : result (Node * list string) :=
  match depth with
  | O => Raise RecursionError
  | S depth' =>
      match encoding_iter with
      | [] => Raise StopIteration
      | encoded_node :: it =>
          if Py.str_eq encoded_node ":" then Ok (PyNone, it)
          else
            let encoded_node := Py.split_on ","%char encoded_node in
            data <- index encoded_node 0;;
            f1 <- index encoded_node 1;;
            let is_word := Py.str_eq f1 (Py.str_of_bool true) in
            f2 <- index encoded_node 2;;
            score <- Py.int_of_str f2;;
            let node_data := if Py.str_eq data ":" then None else Some data in
            cs <- decode_completions (skipn 3 encoded_node);;
            '(l, it) <- decode depth' it;;
            '(m, it) <- decode depth' it;;
            '(r, it) <- decode depth' it;;
            Ok (mkNode node_data is_word score cs l m r, it)
      end
  end.

(** [deserialize(encoding)]: the server after the call and the exception
    that ended the call, if one did.  [self.root] is assigned when [decode]
    has returned. *)
Definition deserialize (self : QueryServer) (encoding : string)
    : QueryServer * option exn :=
  let encoding_iter := Py.split_ws encoding in
  match decode (S (List.length encoding_iter)) encoding_iter with
  | Ok (node, _) => (mkQueryServer node, None)
  | Raise e => (self, Some e)
  end.

(** ** The tests of [query_serving_test.py] *)

Definition run (pairs : list (string * Z)) : result QueryServer :=
  build_from_tuples QueryServer_init pairs.


(** ** Loading from strings and files *)

(** [s.strip()]: [s] without the white space it starts and ends with. *)
Fixpoint str_lstrip (s : string) : string :=
  match s with
  | String c s' => if Py.isspace c then str_lstrip s' else s
  | EmptyString => EmptyString
  end.

Fixpoint str_rstrip (s : string) : string :=
  match s with
  | EmptyString => EmptyString
  | String c s' =>
      match str_rstrip s' with
      | EmptyString => if Py.isspace c then EmptyString else String c EmptyString
      | r => String c r
      end
  end.

Definition str_strip (s : string) : string := str_rstrip (str_lstrip s).

(** [re.findall('\(([^)]+)', text)]: the scan goes from left to right; a
    match starts at a ["("] that is followed by a character other than
    [")"], its group is the longest run of characters other than [")"]
    after that ["("], and the scan goes on where the match ends.
    [findall_aux s] is computed from the end of [s]; it gives the groups
    found from the start of [s] and, for a scan that is inside a group
    when it comes to [s], the rest of that group and the groups found
    after it. *)
Fixpoint findall_aux (s : string) : list string * (string * list string) :=
  match s with
  | EmptyString => ([], (EmptyString, []))
  | String c s' =>
      let '(found, (group, later)) := findall_aux s' in
      ((if Ascii.eqb c "("%char then
          match group with
          | EmptyString => found
          | _ => group :: later
          end
        else found),
       (if Ascii.eqb c ")"%char then (EmptyString, found)
        else (String c group, later)))
  end.

Definition findall_groups (text : string) : list string := fst (findall_aux text).

(** [build_from_strings(pairs)].  As for [insert], the value is the server
    when the call returns. *)
Fixpoint build_from_strings (self : QueryServer) (pairs : list string)
    : result QueryServer :=
  match pairs with
  | [] => Ok self
  | p :: pairs' =>
      let p := Py.split_on ","%char p in
      name <- index p 0;;
      field <- index p 1;;
      score <- Py.int_of_str (str_strip field);;
      self1 <- insert self (str_strip name) score;;
      build_from_strings self1 pairs'
  end.

(** [load_QueryServer(pairs, names_input_filename, encoding_input_filename)].
    The list [pairs] is empty for an argument that is [None] or an empty
    list.  A file argument is given by what the [with] block reads from the
    file: [None] for a name that is [None] or empty, [Some text] for the
    name of a file that [open] opens and whose [read()] returns [text].
    Files that cannot be opened or read are not modelled. *)
Definition load_QueryServer (pairs : list (string * Z))
    (names_input encoding_input : option string) : result QueryServer :=
  let query_server := QueryServer_init in
  match pairs with
  | _ :: _ => build_from_tuples query_server pairs
  | [] =>
      match names_input with
      | Some text => build_from_strings query_server (findall_groups text)
      | None =>
          match encoding_input with
          | Some serialization =>
              match deserialize query_server serialization with
              | (query_server, None) => Ok query_server
              | (_, Some e) => Raise e
              end
          | None => Ok query_server
          end
      end
  end.

(** * Notions used to state the properties *)

Local Open Scope nat_scope.

Definition item_eq_dec (a b : item) : {a = b} + {a <> b}.
Proof. decide equality; [apply string_dec | apply Z.eq_dec]. Defined.

(** The number of times [x] occurs in [l]. *)
Definition occ (l : list item) (x : item) : nat := count_occ item_eq_dec l x.
Arguments occ : simpl never.

(** [1] if the two entries are equal, else [0]. *)
Definition same (x y : item) : nat := if item_eq_dec x y then 1 else 0.
Arguments same : simpl never.

(** The heap invariant of [heapq]: no entry is below its parent. *)
Definition heap_ok (h : list item) : Prop :=
  forall i, 0 < i < List.length h ->
    tuple_lt (get_item h i) (get_item h ((i - 1) / 2)) = false.

(** The list [add_completion] leaves ([add_completion_added] shows that it
    does not raise). *)
Definition added (cs : list item) (word : string) (score : Z) : list item :=
  match add_completion cs word score with
  | Ok cs' => cs'
  | Raise _ => cs
  end.

(** The state of the loop of [_siftdown] when [x] is on its way from the
    end of the list to the front and has reached [pos]: the entries are in
    heap order wherever [pos] is not involved, and the children of [pos] are
    neither below [x] nor below the parent of [pos]. *)
Definition sifting (h : list item) (pos : nat) (x : item) : Prop :=
  pos < List.length h /\
  (forall i, 0 < i < List.length h -> i <> pos -> (i - 1) / 2 <> pos ->
     tuple_lt (get_item h i) (get_item h ((i - 1) / 2)) = false) /\
  (forall c, 0 < c < List.length h -> (c - 1) / 2 = pos ->
     tuple_lt (get_item h c) x = false /\
     (0 < pos -> tuple_lt (get_item h c) (get_item h ((pos - 1) / 2)) = false)).

(** ** Trees *)

(** Every node of the tree carries a string as its [data]. *)
Fixpoint typed (n : Node) : Prop :=
  match n with
  | PyNone => True
  | mkNode d _ _ _ l m r => d <> None /\ typed l /\ typed m /\ typed r
  end.

(** A node object under which every node carries a string: the root of a
    server built by insertions is one (its own [data] is [None]). *)
Definition typed_root (t : Node) : Prop :=
  match t with
  | PyNone => False
  | mkNode _ _ _ _ _ m _ => typed m
  end.

(** The tree with the subtree at [p] replaced by [x]. *)
Definition plug (t : Node) (p : ref) (x : Node) : result Node :=
  update t p (fun _ => Ok x).

(** The reference [search_char] returns when no [data] is [None]. *)
Fixpoint bpath (b : Node) (c : string) : option ref :=
  match b with
  | PyNone => None
  | mkNode d _ _ _ l _ r =>
      match d with
      | None => None
      | Some x =>
          if Py.str_eq x c then Some []
          else if Py.str_lt x c then option_map (cons Right) (bpath r c)
          else option_map (cons Left) (bpath l c)
      end
  end.

(** A node without its [left] and [right] links. *)
Definition prune (n : Node) : Node :=
  match n with
  | PyNone => PyNone
  | mkNode d w s cs _ m _ => mkNode d w s cs PyNone m PyNone
  end.

(** The node with data [c] among the siblings [b], taken alone, or
    [None]. *)
Definition bget (b : Node) (c : string) : Node :=
  match bpath b c with
  | Some q => prune (deref b q)
  | None => PyNone
  end.

(** The node with data [c] among the siblings [b], or the one that would
    be created for it. *)
Definition bnode (b : Node) (c : string) : Node :=
  match bpath b c with
  | Some q => deref b q
  | None => Node_init (Some c)
  end.

(** The siblings [b] after [f] has been applied to the node with data [c],
    which is created by way of [insert_node] if it is not there. *)
Fixpoint bmod (b : Node) (c : string) (f : Node -> Node) : Node :=
  match b with
  | PyNone => f (Node_init (Some c))
  | mkNode d w s cs l m r =>
      match d with
      | None => b
      | Some x =>
          if Py.str_eq x c then f b
          else if Py.str_lt x c then mkNode d w s cs l m (bmod r c f)
          else mkNode d w s cs (bmod l c f) m r
      end
  end.

(** The tree after a walk from [n] along the characters of [a] that
    creates the nodes it does not find, applies [each] to every node it
    moves to and [last] to the node it ends on. *)
Fixpoint walk (n : Node) (a : string) (each last : Node -> Node) : Node :=
  match a with
  | EmptyString => last n
  | String c a' =>
      match n with
      | PyNone => PyNone
      | mkNode d w s cs l m r =>
          mkNode d w s cs l
            (bmod m (String c EmptyString) (fun x => walk (each x) a' each last)) r
      end
  end.

(** The reference [search] returns from [n] for [a]. *)
Fixpoint spath (n : Node) (a : string) : option ref :=
  match a with
  | EmptyString => Some []
  | String c a' =>
      match n with
      | PyNone => None
      | mkNode _ _ _ _ _ m _ =>
          match bpath m (String c EmptyString) with
          | Some q =>
              option_map (fun p => Middle :: q ++ p)
                         (spath (deref m q) a')
          | None => None
          end
      end
  end.

(** The node [search] reaches from [n] for [a], or [None]. *)
Fixpoint find (n : Node) (a : string) : Node :=
  match a with
  | EmptyString => n
  | String c a' =>
      match n with
      | PyNone => PyNone
      | mkNode _ _ _ _ _ m _ => find (bget m (String c EmptyString)) a'
      end
  end.

(** The attributes of a node other than its data and its children; those
    of a node that does not exist are those of a new node. *)
Definition payload : Type := (bool * Z * list item)%type.

Definition payload_of (n : Node) : payload :=
  match n with
  | PyNone => (false, 0%Z, [])
  | mkNode _ w s cs _ _ _ => (w, s, cs)
  end.

Definition completions_of (n : Node) : list item := snd (payload_of n).

(** A node with these attributes changed by [E]. *)
Definition lift (E : payload -> payload) (n : Node) : Node :=
  match n with
  | PyNone => PyNone
  | mkNode d w s cs l m r =>
      match E (w, s, cs) with
      | (w', s', cs') => mkNode d w' s' cs' l m r
      end
  end.

(** What [n.add_completion(word, score)] makes of [n]. *)
Definition padd (word : string) (score : Z) (p : payload) : payload :=
  (fst (fst p), snd (fst p), added (snd p) word score).

(** What [n.is_word = True; n.score = score] makes of [n]. *)
Definition pmark (score : Z) (p : payload) : payload := (true, score, snd p).

(** What [n.completions.sort(reverse=True)] makes of [n]. *)
Definition psort (p : payload) : payload :=
  (fst (fst p), snd (fst p), sort_reverse (snd p)).

(** [a'] is not empty and [a] starts with it. *)
Definition reaches (a' a : string) : bool :=
  match a' with
  | EmptyString => false
  | _ => String.prefix a' a
  end.

(** A function on nodes that changes neither the data nor the [left] and
    [right] links, and keeps the nodes under [middle] typed. *)
Definition sibling_safe (f : Node -> Node) : Prop :=
  forall d w s cs l m r, typed m ->
    exists w' s' cs' m',
      f (mkNode d w s cs l m r) = mkNode d w' s' cs' l m' r /\ typed m'.

(** ** Insertion and query as walks *)

(** The tree after the calls of [insert_completion] that the loop of
    [insert] makes for the characters of [rest]. *)
Fixpoint suffixes_added (t : Node) (rest : string) (word : string) (score : Z) : Node :=
  match rest with
  | EmptyString => t
  | String c rest' =>
      suffixes_added
        (if Ascii.eqb c "_"%char
         then walk t rest' (lift (padd word score)) (lift (fun p => p))
         else t)
        rest' word score
  end.

(** The tree after [insert(word, score)]. *)
Definition inserted (t : Node) (word : string) (score : Z) : Node :=
  let t1 := lift (padd word score) t in
  let t2 := walk t1 word (lift (padd word score)) (lift (fun p => p)) in
  let t3 := suffixes_added t2 word word score in
  walk t3 word (lift (fun p => p)) (lift (pmark score)).

(** The tree after [get_completions(prefix)]. *)
Definition queried (t : Node) (prefix : string) : Node :=
  match spath t prefix with
  | Some _ => walk t prefix (lift (fun p => p)) (lift psort)
  | None => t
  end.

(** How many times [insert(word, _)] calls [add_completion] on the node
    at [a]: once at the root; once at every non-empty prefix of [word];
    once more at every non-empty prefix of what follows a ["_"]. *)
Definition hits (a prefix : string) : nat := if reaches a prefix then 1 else 0.

Fixpoint suffix_hits (a rest : string) : nat :=
  match rest with
  | EmptyString => 0
  | String c rest' =>
      (if Ascii.eqb c "_"%char then hits a rest' else 0) + suffix_hits a rest'
  end.

Definition registrations (a word : string) : nat :=
  (match a with EmptyString => 1 | _ => 0 end) + hits a word + suffix_hits a word.

(** The servers reached from a new one by calls of [insert] and
    [get_completions] that return. *)
Inductive reachable : QueryServer -> Prop :=
| reach_init : reachable QueryServer_init
| reach_insert self word score self' :
    reachable self -> insert self word score = Ok self' -> reachable self'
| reach_query self prefix l self' :
    reachable self -> get_completions self prefix = Ok (l, self') -> reachable self'.

(** The entries held by the node that [search] reaches for [p]; none when
    there is no such node. *)
Definition completions_at (self : QueryServer) (p : string) : list item :=
  match search self p with
  | Ok (Some q) => completions_of (deref (root self) q)
  | _ => []
  end.

(** [a] comes before [b] in descending order: a higher score, or the same
    score and a word that is not smaller. *)
Definition before (a b : item) : Prop :=
  (fst b < fst a)%Z \/ (fst a = fst b /\ Py.str_lt (snd a) (snd b) = false).

(** [t] starts with [p], or has [p] right after some ["_"]. *)
Definition completes (p t : string) : Prop :=
  String.prefix p t = true \/ exists u v, t = (u ++ "_" ++ p ++ v)%string.

(** The tree after [build_from_tuples(pairs)]. *)
Fixpoint built (t : Node) (pairs : list (string * Z)) : Node :=
  match pairs with
  | [] => t
  | p :: pairs' => built (inserted t (fst p) (snd p)) pairs'
  end.

Definition is_word_of (n : Node) : bool := fst (fst (payload_of n)).
Definition score_of (n : Node) : Z := snd (fst (payload_of n)).

(** An entry [(score, word)] for a pair [(word, score)] given to
    [build_from_tuples]. *)
Definition entry_of (x : string * Z) : item := (snd x, fst x).

(** The list a node holds after [add_completion] has been called on it once
    for each pair, starting from [cs]. *)
Definition pushed (cs : list item) (pairs : list (string * Z)) : list item :=
  fold_left (fun cs x => added cs (fst x) (snd x)) pairs cs.

(** ** Encodings *)

(** The score fields of a record: the third field, and every second field
    from the fourth on. *)
Definition score_field (i : nat) : bool :=
  (i =? 2) || ((3 <=? i) && Nat.even (i - 3)).

(** A record with a wrong number of fields: fewer than three, or an entry
    with a score and no word. *)
Definition bad_field_count (tok : string) : Prop :=
  let n := List.length (Py.split_on ","%char tok) in
  n < 3 \/ Nat.even (n - 3) = false.

(** A record one of whose score fields is not an integer. *)
Definition bad_integer (tok : string) : Prop :=
  exists i f, score_field i = true /\
              nth_error (Py.split_on ","%char tok) i = Some f /\
              Py.int_of_str f = Raise ValueError.

(** A malformed record; the token [":"] is not a record. *)
Definition malformed_record (tok : string) : Prop :=
  tok <> ":" /\ (bad_field_count tok \/ bad_integer tok).

(** A token stream that ends before the tree is complete: decoding it
    runs out of tokens. *)
Definition truncated (toks : list string) : Prop :=
  decode (S (List.length toks)) toks = Raise StopIteration.

(** The tokens of a whole tree: decoding uses them all. *)
Definition complete (toks : list string) (node : Node) : Prop :=
  decode (S (List.length toks)) toks = Ok (node, []).

(** The fields of a record decoded apart from its children: the node
    without children, or the exception. *)
Definition decode_record (tok : string) : result (Node -> Node -> Node -> Node) :=
  let encoded_node := Py.split_on ","%char tok in
  data <- index encoded_node 0;;
  f1 <- index encoded_node 1;;
  f2 <- index encoded_node 2;;
  score <- Py.int_of_str f2;;
  cs <- decode_completions (skipn 3 encoded_node);;
  Ok (mkNode (if Py.str_eq data ":" then None else Some data)
             (Py.str_eq f1 (Py.str_of_bool true)) score cs).


(** A character that is neither the comma nor white space, and a string of
    such characters. *)
Definition plain_char (c : ascii) : bool :=
  negb (Ascii.eqb c ","%char) && negb (Py.isspace c).

Fixpoint plain (s : string) : bool :=
  match s with
  | EmptyString => true
  | String c s' => plain_char c && plain s'
  end.

(** The fields [serialize] writes for a list of entries. *)
Definition fields_of (cs : list item) : list string :=
  flat_map (fun e => [Py.str_of_int (fst e); snd e]) cs.

(** The [data] that [decode] gives a node whose data was [d]. *)
Definition decoded_data (d : option string) : option string :=
  match d with
  | Some (String c x) => if Py.str_eq (String c x) ":" then None else Some (String c x)
  | _ => None
  end.

(** The tree [decode] builds from the tokens of [n]. *)
Fixpoint decoded (n : Node) : Node :=
  match n with
  | PyNone => PyNone
  | mkNode d w s cs l m r =>
      mkNode (decoded_data d) w s cs (decoded l) (decoded m) (decoded r)
  end.

(** A property of the data and the entries of every node of a tree. *)
Fixpoint all_nodes (P : option string -> list item -> Prop) (n : Node) : Prop :=
  match n with
  | PyNone => True
  | mkNode d _ _ cs l m r =>
      P d cs /\ all_nodes P l /\ all_nodes P m /\ all_nodes P r
  end.

(** What insertions of plain words keep true of every node: plain words in
    its entries and, for a node with data, plain data and at least one
    entry. *)
Definition node_plain (d : option string) (cs : list item) : Prop :=
  Forall (fun e => plain (snd e) = true) cs /\
  match d with
  | None => True
  | Some x => x <> EmptyString /\ plain x = true /\ cs <> []
  end.

(** What [decode] needs of every node to read it back: plain words and
    data, and at least one entry. *)
Definition node_encodable (d : option string) (cs : list item) : Prop :=
  Forall (fun e => plain (snd e) = true) cs /\ cs <> [] /\
  match d with
  | None => True
  | Some x => x <> EmptyString /\ plain x = true
  end.

(** A string without white space. *)
Fixpoint spaceless (s : string) : bool :=
  match s with
  | EmptyString => true
  | String c s' => negb (Py.isspace c) && spaceless s'
  end.

(** A root without [left] and [right] subtrees, as insertions leave it. *)
Definition root_bare (t : Node) : Prop :=
  match t with
  | mkNode _ _ _ _ PyNone _ PyNone => True
  | _ => False
  end.

(** The state of the loop of [_siftup] when the hole has come down to
    [pos]: the entries are in heap order wherever [pos] is not involved,
    and the children of [pos] are not below the parent of [pos]. *)
Definition hole (h : list item) (pos : nat) : Prop :=
  pos < List.length h /\
  (forall i, 0 < i < List.length h -> i <> pos -> (i - 1) / 2 <> pos ->
     tuple_lt (get_item h i) (get_item h ((i - 1) / 2)) = false) /\
  (forall c, 0 < c < List.length h -> (c - 1) / 2 = pos -> 0 < pos ->
     tuple_lt (get_item h c) (get_item h ((pos - 1) / 2)) = false).

(** The entries registered at the node of [a] by the insertions of
    [pairs], one for each call of [add_completion]. *)
Definition registered (a : string) (pairs : list (string * Z)) : list item :=
  flat_map (fun x => repeat (entry_of x) (registrations a (fst x))) pairs.

(** [cs] holds the highest of the entries [R]: it is in heap order, it has
    ten entries or all of them, and the entries of [R] it lacks are not
    above any it holds. *)
Definition top_of (cs R : list item) : Prop :=
  heap_ok cs /\
  List.length cs = Nat.min 10 (List.length R) /\
  exists dropped,
    Permutation (cs ++ dropped) R /\
    forall e y, In e dropped -> In y cs -> tuple_lt y e = false.

(** ** Notions used for the further properties *)

(** The score with which [w] is marked as a word: that of the node
    [search] reaches for [w], when that node is marked. *)
Definition word_at (self : QueryServer) (w : string) : option Z :=
  match search self w with
  | Ok (Some q) =>
      let n := deref (root self) q in
      if is_word_of n then Some (score_of n) else None
  | _ => None
  end.

(** A string in which the character [c] does not occur. *)
Fixpoint lacks (c : ascii) (s : string) : bool :=
  match s with
  | EmptyString => true
  | String c' s' => negb (Ascii.eqb c' c) && lacks c s'
  end.

(** A node whose [data] [decode] gives back as it was. *)
Definition data_kept (d : option string) (cs : list item) : Prop :=
  decoded_data d = d.

(** The [data] of the node under [middle]: that of the first node
    [search_char] looks at from the root. *)
Definition middle_data (t : Node) : option string :=
  match t with
  | mkNode _ _ _ _ _ (mkNode d _ _ _ _ _ _) _ => d
  | _ => None
  end.

(** The string for a pair in a list given to [build_from_strings]. *)
Definition entry_text (x : string * Z) : string :=
  (fst x ++ ", " ++ Py.str_of_int (snd x))%string.

(** The pair [build_from_strings] inserts for the string of [x]. *)
Definition stripped (x : string * Z) : string * Z := (str_strip (fst x), snd x).

(** The text of a file of names: every pair between parentheses,
    followed by [sep]. *)
Fixpoint names_text (sep : string) (pairs : list (string * Z)) : string :=
  match pairs with
  | [] => EmptyString
  | x :: pairs' => ("(" ++ entry_text x ++ ")" ++ sep ++ names_text sep pairs')%string
  end.

(** The end of a line. *)
Definition newline : string := String (ascii_of_nat 10) EmptyString.

(** ** Sequences of calls *)

(** A call of [insert] or of [get_completions]. *)
Inductive call : Type :=
| Insert (word : string) (score : Z)
| Query (prefix : string).

(** The server after the calls have been made one after the other. *)
Fixpoint calls (self : QueryServer) (cs : list call) : result QueryServer :=
  match cs with
  | [] => Ok self
  | Insert word score :: cs' =>
      self1 <- insert self word score;;
      calls self1 cs'
  | Query prefix :: cs' =>
      '(_, self1) <- get_completions self prefix;;
      calls self1 cs'
  end.

(** The pairs inserted by the calls. *)
Fixpoint inserts_of (cs : list call) : list (string * Z) :=
  match cs with
  | [] => []
  | Insert word score :: cs' => (word, score) :: inserts_of cs'
  | Query _ :: cs' => inserts_of cs'
  end.

(** The tree after the calls. *)
Fixpoint ran (t : Node) (cs : list call) : Node :=
  match cs with
  | [] => t
  | Insert word score :: cs' => ran (inserted t word score) cs'
  | Query prefix :: cs' => ran (queried t prefix) cs'
  end.

(** * Properties *)

(** ** The model on small inputs *)

Example split_on_ex1 : Py.split_on ","%char "a,True,0," = ["a"; "True"; "0"; EmptyString].
Proof. reflexivity. Qed.

Example split_on_ex2 : Py.split_on ","%char EmptyString = [EmptyString].
Proof. reflexivity. Qed.

Example split_ws_ex1 : Py.split_ws "  ab  c :
 d " = ["ab"; "c"; ":"; "d"].
Proof. reflexivity. Qed.

Example join_ex1 : Py.join "," ["1,a"; "2,b"] = "1,a,2,b".
Proof. reflexivity. Qed.

Example join_ex2 : Py.join "," [] = EmptyString.
Proof. reflexivity. Qed.

Example str_of_int_ex : (Py.str_of_int 0, Py.str_of_int 42, Py.str_of_int (-7)) = ("0", "42", "-7").
Proof. reflexivity. Qed.

Example int_of_str_ex :
  (Py.int_of_str "12", Py.int_of_str "-0", Py.int_of_str " +1_000 ", Py.int_of_str EmptyString,
   Py.int_of_str "1__0", Py.int_of_str "_1", Py.int_of_str "1_", Py.int_of_str "-",
   Py.int_of_str "007", Py.int_of_str "1 2")
  = (Ok 12%Z, Ok 0%Z, Ok 1000%Z, Raise ValueError,
     Raise ValueError, Raise ValueError, Raise ValueError, Raise ValueError,
     Ok 7%Z, Raise ValueError).
Proof. reflexivity. Qed.

Example heappush_ex :
  fold_left heapq.heappush [(5, "e"); (3, "c"); (4, "d"); (1, "a"); (2, "b")]%Z []
  = [(1, "a"); (2, "b"); (4, "d"); (5, "e"); (3, "c")]%Z.
Proof. reflexivity. Qed.

Example heappop_ex :
  heapq.heappop [(1, "a"); (2, "b"); (4, "d"); (5, "e"); (3, "c")]%Z
  = Ok ([(2, "b"); (3, "c"); (4, "d"); (5, "e")]%Z, (1, "a")%Z).
Proof. reflexivity. Qed.

Example sort_reverse_ex :
  sort_reverse [(1, "a"); (2, "b"); (2, "c"); (1, "b")]%Z
  = [(2, "c"); (2, "b"); (1, "b"); (1, "a")]%Z.
Proof. reflexivity. Qed.

Example test_basic_serialization :
  match run [("foo", 1%Z); ("bar", 2%Z)] with
  | Ok query_server =>
      let encoding := serialize query_server in
      let (query_server2, e) := deserialize QueryServer_init encoding in
      e = None /\ serialize query_server2 = encoding
  | Raise _ => False
  end.
Proof. vm_compute. split; reflexivity. Qed.

Example test_basic_queries :
  match run [("foo", 1%Z); ("bar", 2%Z); ("bar_foo", 3%Z); ("foo_bar", 4%Z)] with
  | Ok query_server =>
      option_map fst (match get_completions query_server "foo" with Ok x => Some x | _ => None end)
        = Some ["foo_bar"; "bar_foo"; "foo"]
      /\ option_map fst (match get_completions query_server "bar" with Ok x => Some x | _ => None end)
        = Some ["foo_bar"; "bar_foo"; "bar"]
  | Raise _ => False
  end.
Proof. vm_compute. split; reflexivity. Qed.

(** ** The order on entries *)

Lemma ascii_compare_refl (a : ascii) : Ascii.compare a a = Eq.
Proof. unfold Ascii.compare. apply N.compare_refl. Qed.

Lemma str_compare_refl (s : string) : String.compare s s = Eq.
Proof.
  induction s as [|a s IH]; simpl; [reflexivity|].
  now rewrite ascii_compare_refl.
Qed.

Lemma str_compare_lt_trans (a b c : string) :
  String.compare a b = Lt -> String.compare b c = Lt -> String.compare a c = Lt.
Proof.
  revert b c. induction a as [|x a IH]; intros [|y b] [|z c]; simpl; try congruence.
  unfold Ascii.compare.
  destruct (N.compare_spec (N_of_ascii x) (N_of_ascii y)) as [E1|L1|G1];
    destruct (N.compare_spec (N_of_ascii y) (N_of_ascii z)) as [E2|L2|G2];
    try congruence; intros H1 H2.
  - rewrite E1, E2, N.compare_refl. eauto.
  - rewrite E1. now apply N.compare_lt_iff in L2 as ->.
  - rewrite <- E2. now apply N.compare_lt_iff in L1 as ->.
  - assert (L : (N_of_ascii x < N_of_ascii z)%N) by lia.
    now apply N.compare_lt_iff in L as ->.
Qed.

Lemma str_lt_irrefl (a : string) : Py.str_lt a a = false.
Proof. unfold Py.str_lt, String.ltb. now rewrite str_compare_refl. Qed.

Lemma str_lt_trans (a b c : string) :
  Py.str_lt a b = true -> Py.str_lt b c = true -> Py.str_lt a c = true.
Proof.
  unfold Py.str_lt, String.ltb. intros H1 H2.
  destruct (String.compare a b) eqn:E1; try discriminate.
  destruct (String.compare b c) eqn:E2; try discriminate.
  now rewrite (str_compare_lt_trans _ _ _ E1 E2).
Qed.

(** Two strings of which neither is below the other are equal. *)
Lemma str_lt_total (a b : string) :
  Py.str_lt a b = false -> Py.str_lt b a = false -> a = b.
Proof.
  unfold Py.str_lt, String.ltb. rewrite (String.compare_antisym b a).
  destruct (String.compare a b) eqn:E; simpl; try discriminate.
  intros _ _. now apply String.compare_eq_iff.
Qed.

Lemma str_eq_true (a b : string) : Py.str_eq a b = true <-> a = b.
Proof. apply String.eqb_eq. Qed.

Lemma str_eq_false (a b : string) : Py.str_eq a b = false <-> a <> b.
Proof. apply String.eqb_neq. Qed.

Lemma str_eq_refl (a : string) : Py.str_eq a a = true.
Proof. apply String.eqb_refl. Qed.

(** [tuple_lt] is the lexicographic order: score first, then word. *)
Lemma tuple_lt_spec (a b : item) :
  tuple_lt a b = true <->
  (fst a < fst b)%Z \/ (fst a = fst b /\ Py.str_lt (snd a) (snd b) = true).
Proof.
  unfold tuple_lt. destruct a as [x s], b as [y t]; simpl.
  destruct (Z.eqb_spec x y) as [->|N]; simpl.
  - destruct (Py.str_eq s t) eqn:E; simpl.
    + apply str_eq_true in E as ->. rewrite str_lt_irrefl.
      split; [discriminate|]. intros [H|[_ H]]; [lia|discriminate].
    + split; [now right|]. intros [H|[_ H]]; [lia|exact H].
  - rewrite Z.ltb_lt. split; [now left|]. intros [H|[H _]]; [exact H|contradiction].
Qed.

Lemma tuple_lt_irrefl (a : item) : tuple_lt a a = false.
Proof.
  destruct (tuple_lt a a) eqn:E; [|reflexivity].
  apply tuple_lt_spec in E as [H|[_ H]]; [lia|].
  now rewrite str_lt_irrefl in H.
Qed.

Lemma tuple_lt_trans (a b c : item) :
  tuple_lt a b = true -> tuple_lt b c = true -> tuple_lt a c = true.
Proof.
  rewrite !tuple_lt_spec. intros [H1|[E1 H1]] [H2|[E2 H2]].
  - left; lia.
  - left; lia.
  - left; lia.
  - right. split; [congruence|]. eapply str_lt_trans; eassumption.
Qed.

Lemma tuple_lt_total (a b : item) :
  tuple_lt a b = false -> tuple_lt b a = false -> a = b.
Proof.
  intros H1 H2. destruct a as [x s], b as [y t].
  assert (E : x = y).
  { destruct (Z.lt_trichotomy x y) as [L|[E|G]]; [|exact E|].
    - assert (T : tuple_lt (x, s) (y, t) = true) by (apply tuple_lt_spec; now left).
      congruence.
    - assert (T : tuple_lt (y, t) (x, s) = true) by (apply tuple_lt_spec; left; simpl; lia).
      congruence. }
  subst y. f_equal. apply str_lt_total.
  - destruct (Py.str_lt s t) eqn:L; [|reflexivity].
    assert (T : tuple_lt (x, s) (x, t) = true) by (apply tuple_lt_spec; now right).
    congruence.
  - destruct (Py.str_lt t s) eqn:L; [|reflexivity].
    assert (T : tuple_lt (x, t) (x, s) = true) by (apply tuple_lt_spec; now right).
    congruence.
Qed.

Lemma tuple_lt_asym (a b : item) : tuple_lt a b = true -> tuple_lt b a = false.
Proof.
  intros H. destruct (tuple_lt b a) eqn:E; [|reflexivity].
  pose proof (tuple_lt_trans _ _ _ H E) as T. now rewrite tuple_lt_irrefl in T.
Qed.

(** [a <= b]: [b] is not below [a]. *)
Lemma tuple_le_trans (a b c : item) :
  tuple_lt b a = false -> tuple_lt c b = false -> tuple_lt c a = false.
Proof.
  intros H1 H2. destruct (tuple_lt c a) eqn:E; [|reflexivity].
  destruct (tuple_lt a b) eqn:L.
  - pose proof (tuple_lt_trans _ _ _ E L). congruence.
  - rewrite (tuple_lt_total _ _ L H1) in E. congruence.
Qed.

Lemma tuple_lt_le_trans (a b c : item) :
  tuple_lt a b = true -> tuple_lt c b = false -> tuple_lt c a = false.
Proof.
  intros H1 H2. destruct (tuple_lt c a) eqn:E; [|reflexivity].
  pose proof (tuple_lt_trans _ _ _ E H1). congruence.
Qed.

(** ** Lists as arrays *)

Lemma set_item_length (l : list item) i x : List.length (set_item l i x) = List.length l.
Proof.
  revert i; induction l as [|y l IH]; intros [|i]; simpl; auto.
Qed.

Lemma get_set_same (l : list item) i x :
  i < List.length l -> get_item (set_item l i x) i = x.
Proof.
  unfold get_item. revert i; induction l as [|y l IH]; intros [|i]; simpl; intros H;
    try lia; auto. apply IH; lia.
Qed.

Lemma get_set_other (l : list item) i j x :
  i <> j -> get_item (set_item l i x) j = get_item l j.
Proof.
  unfold get_item. revert i j; induction l as [|y l IH]; intros [|i] [|j]; simpl; intros H;
    try congruence; auto.
Qed.

Lemma set_item_get (l : list item) i : set_item l i (get_item l i) = l.
Proof.
  unfold get_item. revert i; induction l as [|y l IH]; intros [|i]; simpl; auto.
  now rewrite IH.
Qed.

Lemma occ_cons (l : list item) x y : occ (x :: l) y = same x y + occ l y.
Proof.
  unfold occ, same; simpl. destruct (item_eq_dec x y); reflexivity.
Qed.

Lemma occ_nil y : occ [] y = 0.
Proof. reflexivity. Qed.

Lemma occ_app (l1 l2 : list item) y : occ (l1 ++ l2) y = occ l1 y + occ l2 y.
Proof. unfold occ. apply count_occ_app. Qed.

(** Replacing the entry at [i] by [x] trades one occurrence of the old entry
    for one of [x]. *)
Lemma occ_set_item (l : list item) i x y :
  i < List.length l ->
  occ (set_item l i x) y + same (get_item l i) y = occ l y + same x y.
Proof.
  unfold get_item. revert i; induction l as [|z l IH]; intros [|i]; simpl; intros H; try lia.
  - rewrite !occ_cons. lia.
  - rewrite !occ_cons. specialize (IH i ltac:(lia)). lia.
Qed.

Lemma occ_permutation (l1 l2 : list item) :
  (forall y, occ l1 y = occ l2 y) <-> Permutation l1 l2.
Proof. unfold occ. symmetry. apply Permutation_count_occ. Qed.

Lemma get_item_app_last (l : list item) x : get_item (l ++ [x]) (List.length l) = x.
Proof. unfold get_item. rewrite app_nth2, Nat.sub_diag; [reflexivity|lia]. Qed.

Lemma get_item_app_first (l : list item) x i :
  i < List.length l -> get_item (l ++ [x]) i = get_item l i.
Proof. unfold get_item. intros H. now rewrite app_nth1. Qed.

Lemma get_item_in (l : list item) i : i < List.length l -> In (get_item l i) l.
Proof. unfold get_item. intros H. now apply nth_In. Qed.

Lemma in_get_item (l : list item) x : In x l -> exists i, i < List.length l /\ get_item l i = x.
Proof. unfold get_item. intros H. destruct (In_nth l x no_item H) as [i [? ?]]. eauto. Qed.

(** ** [heapq]: the entries are kept *)

Lemma siftdown_loop_length turns heap startpos pos newitem :
  List.length (heapq.siftdown_loop turns heap startpos pos newitem) = List.length heap.
Proof.
  revert heap pos; induction turns as [|t IH]; intros heap pos; cbn [heapq.siftdown_loop].
  - apply set_item_length.
  - destruct (startpos <? pos); [|apply set_item_length].
    destruct (tuple_lt _ _); [|apply set_item_length].
    now rewrite IH, set_item_length.
Qed.

Lemma siftdown_loop_occ turns heap startpos pos newitem y :
  pos < List.length heap ->
  occ (heapq.siftdown_loop turns heap startpos pos newitem) y + same (get_item heap pos) y
  = occ heap y + same newitem y.
Proof.
  revert heap pos; induction turns as [|t IH]; intros heap pos Hpos; cbn [heapq.siftdown_loop].
  - now apply occ_set_item.
  - destruct (Nat.ltb_spec startpos pos) as [Hlt|Hge]; [|now apply occ_set_item].
    destruct (tuple_lt _ _); [|now apply occ_set_item].
    assert (Hp : (pos - 1) / 2 < pos) by (apply Nat.Div0.div_lt_upper_bound; lia).
    specialize (IH (set_item heap pos (get_item heap ((pos - 1) / 2))) ((pos - 1) / 2)).
    rewrite set_item_length in IH. specialize (IH ltac:(lia)).
    rewrite get_set_other in IH by lia.
    pose proof (occ_set_item heap pos (get_item heap ((pos - 1) / 2)) y Hpos). lia.
Qed.

Lemma siftdown_length heap startpos pos :
  List.length (heapq.siftdown heap startpos pos) = List.length heap.
Proof. apply siftdown_loop_length. Qed.

Lemma siftdown_occ heap startpos pos y :
  pos < List.length heap -> occ (heapq.siftdown heap startpos pos) y = occ heap y.
Proof.
  intros H. pose proof (siftdown_loop_occ pos heap startpos pos (get_item heap pos) y H).
  unfold heapq.siftdown. lia.
Qed.

Lemma siftup_loop_spec turns heap endpos pos heap1 leaf :
  endpos = List.length heap -> pos < endpos ->
  heapq.siftup_loop turns heap endpos pos = (heap1, leaf) ->
  List.length heap1 = List.length heap /\ leaf < endpos /\
  forall y, occ heap1 y + same (get_item heap pos) y = occ heap y + same (get_item heap1 leaf) y.
Proof.
  revert heap pos; induction turns as [|t IH]; intros heap pos He Hpos; cbn [heapq.siftup_loop].
  - intros [= <- <-]. repeat split; auto.
  - destruct (Nat.ltb_spec (2 * pos + 1) endpos) as [Hc|Hc];
      [|intros [= <- <-]; repeat split; auto].
    set (c := if _ && _ then _ else _).
    assert (Hcl : c < endpos /\ pos < c).
    { subst c. destruct (Nat.ltb_spec (2 * pos + 1 + 1) endpos).
      - destruct (negb _); simpl; lia.
      - simpl; lia. }
    intros H. apply IH in H; [|now rewrite set_item_length|lia].
    rewrite set_item_length in H. destruct H as (Hl & Hleaf & Hocc).
    repeat split; auto. intros y. specialize (Hocc y).
    rewrite get_set_other in Hocc by lia.
    pose proof (occ_set_item heap pos (get_item heap c) y ltac:(lia)). lia.
Qed.

Lemma siftup_spec heap pos :
  pos < List.length heap ->
  List.length (heapq.siftup heap pos) = List.length heap /\
  forall y, occ (heapq.siftup heap pos) y = occ heap y.
Proof.
  intros Hpos. unfold heapq.siftup.
  destruct (heapq.siftup_loop _ _ _ _) as [heap1 leaf] eqn:E.
  apply siftup_loop_spec in E; auto. destruct E as (Hl & Hleaf & Hocc).
  rewrite siftdown_length, set_item_length. split; [exact Hl|].
  intros y. rewrite siftdown_occ by (rewrite set_item_length; lia).
  pose proof (occ_set_item heap1 leaf (get_item heap pos) y ltac:(lia)).
  specialize (Hocc y). lia.
Qed.

Lemma heappush_length heap x : List.length (heapq.heappush heap x) = S (List.length heap).
Proof.
  unfold heapq.heappush. rewrite siftdown_length, length_app. simpl. apply Nat.add_1_r.
Qed.

Lemma heappush_perm heap x : Permutation (heapq.heappush heap x) (x :: heap).
Proof.
  apply occ_permutation. intros y. unfold heapq.heappush.
  rewrite siftdown_occ by (rewrite length_app; simpl; lia).
  rewrite occ_app, !occ_cons, occ_nil. lia.
Qed.

(** [heappop] on a list that is not empty returns its first entry and
    keeps the others. *)
Lemma heappop_spec (x : item) (heap : list item) :
  exists heap', heapq.heappop (x :: heap) = Ok (heap', x) /\
                Permutation heap' heap /\ List.length heap' = List.length heap.
Proof.
  unfold heapq.heappop.
  destruct (exists_last (l := x :: heap) ltac:(discriminate)) as (front & z & E).
  rewrite E, removelast_last, last_last.
  destruct front as [|f front]; simpl in E.
  - injection E as E1 E2. subst. exists []. repeat split; auto.
  - injection E as E1 E2. subst f heap. eexists. split; [reflexivity|].
    destruct (siftup_spec (set_item (x :: front) 0 z) 0) as [Hl Hocc]; [simpl; lia|].
    split.
    + apply occ_permutation. intros y. rewrite Hocc. simpl.
      rewrite occ_app, !occ_cons, occ_nil. lia.
    + rewrite Hl. simpl. rewrite length_app. simpl. lia.
Qed.

(** ** [heapq]: the heap order *)

Lemma parent_lt i : 0 < i -> (i - 1) / 2 < i.
Proof. intros H. apply Nat.Div0.div_lt_upper_bound. lia. Qed.

Lemma sifting_step h pos x :
  sifting h pos x -> 0 < pos ->
  tuple_lt x (get_item h ((pos - 1) / 2)) = true ->
  sifting (set_item h pos (get_item h ((pos - 1) / 2))) ((pos - 1) / 2) x.
Proof.
  intros (Hpos & Hok & Hch) H0 Hlt.
  pose proof (parent_lt pos H0) as Hpp.
  set (pp := (pos - 1) / 2) in *.
  unfold sifting. rewrite set_item_length.
  split; [lia|]. split.
  - intros i Hi Hne Hpar.
    destruct (Nat.eq_dec i pos) as [->|Hip]; [contradiction|].
    rewrite (get_set_other _ pos i) by auto.
    destruct (Nat.eq_dec ((i - 1) / 2) pos) as [E|Hn].
    + rewrite E, get_set_same by lia. now apply (Hch i Hi E).
    + rewrite get_set_other by auto. now apply Hok.
  - intros c Hc Hpar.
    assert (Hpp_ok : 0 < pp -> tuple_lt (get_item h pp) (get_item h ((pp - 1) / 2)) = false).
    { intros Hp. pose proof (parent_lt pp Hp). apply Hok; lia. }
    destruct (Nat.eq_dec c pos) as [->|Hcp].
    + rewrite get_set_same by lia. split.
      * now apply tuple_lt_asym.
      * intros Hp. pose proof (parent_lt pp Hp).
        rewrite get_set_other by lia. now apply Hpp_ok.
    + rewrite get_set_other by auto.
      assert (Hcp' : tuple_lt (get_item h c) (get_item h pp) = false).
      { rewrite <- Hpar. apply Hok; lia. }
      split.
      * eapply tuple_lt_le_trans; eassumption.
      * intros Hp. pose proof (parent_lt pp Hp).
        rewrite get_set_other by lia.
        eapply tuple_le_trans; [apply Hpp_ok; exact Hp | exact Hcp'].
Qed.

Lemma sifting_done h pos x :
  sifting h pos x ->
  (0 < pos -> tuple_lt x (get_item h ((pos - 1) / 2)) = false) ->
  heap_ok (set_item h pos x).
Proof.
  intros (Hpos & Hok & Hch) Hexit i. rewrite set_item_length. intros Hi.
  destruct (Nat.eq_dec i pos) as [->|Hip].
  - pose proof (parent_lt pos ltac:(lia)).
    rewrite get_set_same, get_set_other by lia. apply Hexit; lia.
  - rewrite (get_set_other _ pos i) by auto.
    destruct (Nat.eq_dec ((i - 1) / 2) pos) as [E|Hn].
    + rewrite E, get_set_same by lia. now apply (Hch i Hi E).
    + rewrite get_set_other by auto. now apply Hok.
Qed.

Lemma siftdown_loop_heap_ok turns h pos x :
  pos <= turns -> sifting h pos x ->
  heap_ok (heapq.siftdown_loop turns h 0 pos x).
Proof.
  revert h pos; induction turns as [|t IH]; intros h pos Ht Hs;
    cbn [heapq.siftdown_loop].
  - apply sifting_done; [exact Hs|lia].
  - destruct (Nat.ltb_spec 0 pos) as [H0|H0].
    + destruct (tuple_lt x _) eqn:Hlt.
      * apply IH; [pose proof (parent_lt pos H0); lia|].
        now apply sifting_step.
      * apply sifting_done; auto.
    + apply sifting_done; [exact Hs|lia].
Qed.

(** [heappush] keeps the heap order. *)
Lemma heappush_heap_ok h x : heap_ok h -> heap_ok (heapq.heappush h x).
Proof.
  intros Hh. unfold heapq.heappush, heapq.siftdown.
  rewrite length_app; simpl List.length.
  replace (List.length h + 1 - 1) with (List.length h) by lia.
  rewrite get_item_app_last.
  apply siftdown_loop_heap_ok; [lia|].
  unfold sifting. rewrite length_app; simpl List.length.
  split; [lia|]. split.
  - intros i Hi Hne Hpar.
    assert (Hil : i < List.length h) by lia.
    pose proof (parent_lt i ltac:(lia)).
    rewrite !get_item_app_first by lia. apply Hh; lia.
  - intros c Hc Hpar. exfalso.
    assert (c <= List.length h) by lia.
    pose proof (parent_lt c ltac:(lia)). lia.
Qed.

(** In heap order the first entry is the smallest. *)
Lemma heap_ok_first h i :
  heap_ok h -> i < List.length h -> tuple_lt (get_item h i) (get_item h 0) = false.
Proof.
  intros Hh. induction i as [i IH] using (well_founded_induction lt_wf). intros Hi.
  destruct (Nat.eq_dec i 0) as [->|Hn]; [apply tuple_lt_irrefl|].
  pose proof (parent_lt i ltac:(lia)) as Hp.
  eapply tuple_le_trans; [apply (IH _ Hp); lia|apply Hh; lia].
Qed.

Lemma heap_ok_nil : heap_ok [].
Proof. intros i Hi. simpl in Hi. lia. Qed.

(** ** [add_completion] *)

Lemma add_completion_added cs w s : add_completion cs w s = Ok (added cs w s).
Proof.
  unfold added, add_completion.
  destruct (10 <? _); [|reflexivity].
  destruct (heapq.heappush cs (s, w)) as [|x h] eqn:E.
  - pose proof (heappush_length cs (s, w)) as L. rewrite E in L. discriminate.
  - destruct (heappop_spec x h) as (h' & -> & _). reflexivity.
Qed.

(** Below ten entries, [add_completion] adds the entry. *)
Lemma added_small cs w s :
  List.length cs < 10 ->
  Permutation (added cs w s) ((s, w) :: cs) /\
  (heap_ok cs -> heap_ok (added cs w s)).
Proof.
  intros Hl. unfold added, add_completion.
  pose proof (heappush_length cs (s, w)) as L.
  destruct (Nat.ltb_spec 10 (List.length (heapq.heappush cs (s, w)))); [lia|].
  split; [apply heappush_perm | apply heappush_heap_ok].
Qed.

(** From ten entries on, [add_completion] adds the entry and removes the
    first entry [r] of the list after the push, which is a smallest one
    when the list was in heap order. *)
Lemma added_full cs w s :
  10 <= List.length cs ->
  exists r, Permutation (r :: added cs w s) ((s, w) :: cs) /\
            (heap_ok cs -> forall y, In y ((s, w) :: cs) -> tuple_lt y r = false).
Proof.
  intros Hl. unfold added, add_completion.
  pose proof (heappush_length cs (s, w)) as L.
  pose proof (heappush_perm cs (s, w)) as P.
  pose proof (heappush_heap_ok cs (s, w)) as HO.
  destruct (Nat.ltb_spec 10 (List.length (heapq.heappush cs (s, w)))); [|lia].
  destruct (heapq.heappush cs (s, w)) as [|x h] eqn:E; [discriminate|].
  destruct (heappop_spec x h) as (h' & -> & Hp & _). simpl.
  exists x. split.
  - rewrite <- P. now constructor.
  - intros Hh y Hy. specialize (HO Hh).
    apply (Permutation_in _ (Permutation_sym P)) in Hy.
    destruct (in_get_item _ _ Hy) as (i & Hi & <-).
    apply (heap_ok_first _ i HO Hi).
Qed.

Lemma added_length cs w s :
  List.length (added cs w s) = Nat.min (Nat.max 10 (List.length cs)) (S (List.length cs)).
Proof.
  destruct (Nat.lt_ge_cases (List.length cs) 10) as [Hl|Hl].
  - destruct (added_small cs w s Hl) as [P _].
    apply Permutation_length in P. simpl in P. lia.
  - destruct (added_full cs w s Hl) as (r & P & _).
    apply Permutation_length in P. simpl in P. lia.
Qed.

Lemma added_in cs w s y : In y (added cs w s) -> y = (s, w) \/ In y cs.
Proof.
  intros H. destruct (Nat.lt_ge_cases (List.length cs) 10) as [Hl|Hl].
  - destruct (added_small cs w s Hl) as [P _].
    apply (Permutation_in _ P) in H. destruct H; auto.
  - destruct (added_full cs w s Hl) as (r & P & _).
    assert (H' : In y (r :: added cs w s)) by now right.
    apply (Permutation_in _ P) in H'. destruct H'; auto.
Qed.

(** ** [heapq]: [heappop] keeps the heap order *)

Lemma hole_step h pos c :
  hole h pos -> 0 < c < List.length h -> (c - 1) / 2 = pos ->
  (forall c', 0 < c' < List.length h -> (c' - 1) / 2 = pos ->
     tuple_lt (get_item h c') (get_item h c) = false) ->
  hole (set_item h pos (get_item h c)) c.
Proof.
  intros (Hpos & Hok & Hch) Hc Hpar Hmin.
  pose proof (parent_lt c ltac:(lia)) as Hpc.
  unfold hole. rewrite set_item_length. split; [lia|]. split.
  - intros i Hi Hne Hnp.
    destruct (Nat.eq_dec i pos) as [->|Hip].
    + rewrite get_set_same by lia.
      pose proof (parent_lt pos ltac:(lia)).
      rewrite get_set_other by lia. apply Hch; lia.
    + rewrite (get_set_other _ pos i) by auto.
      destruct (Nat.eq_dec ((i - 1) / 2) pos) as [E|Hn].
      * rewrite E, get_set_same by lia. apply Hmin; lia.
      * rewrite get_set_other by auto. apply Hok; lia.
  - intros g Hg Hgp _.
    pose proof (parent_lt g ltac:(lia)).
    rewrite Hpar, get_set_same, get_set_other by lia.
    rewrite <- Hgp. apply Hok; lia.
Qed.

Lemma siftup_loop_hole turns h pos h1 leaf :
  List.length h <= pos + turns -> hole h pos ->
  heapq.siftup_loop turns h (List.length h) pos = (h1, leaf) ->
  hole h1 leaf /\ List.length h1 <= 2 * leaf + 1 /\ List.length h1 = List.length h.
Proof.
  revert h pos; induction turns as [|t IH]; intros h pos Ht Hh;
    cbn [heapq.siftup_loop].
  - intros _. destruct Hh as (Hp & _). exfalso. lia.
  - destruct (Nat.ltb_spec (2 * pos + 1) (List.length h)) as [Hc|Hc];
      [|intros [= <- <-]; split; [exact Hh|split; [lia|reflexivity]]].
    set (c := if _ && _ then _ else _).
    assert (Hcc : 0 < c < List.length h /\ (c - 1) / 2 = pos /\
                  forall c', 0 < c' < List.length h -> (c' - 1) / 2 = pos ->
                    tuple_lt (get_item h c') (get_item h c) = false).
    { assert (P1 : (2 * pos + 1 - 1) / 2 = pos)
        by (replace (2 * pos + 1 - 1) with (pos * 2) by lia; apply Nat.div_mul; lia).
      assert (P2 : (2 * pos + 1 + 1 - 1) / 2 = pos).
      { replace (2 * pos + 1 + 1 - 1) with (1 + pos * 2) by lia.
        rewrite Nat.div_add by lia. reflexivity. }
      assert (Hkids : forall c', 0 < c' -> (c' - 1) / 2 = pos ->
                c' = 2 * pos + 1 \/ c' = 2 * pos + 1 + 1).
      { intros c' H0 Hp.
        pose proof (Nat.div_mod_eq (c' - 1) 2) as D.
        pose proof (Nat.mod_upper_bound (c' - 1) 2 ltac:(lia)). lia. }
      subst c. destruct (Nat.ltb_spec (2 * pos + 1 + 1) (List.length h)) as [Hr|Hr];
        cbn [andb].
      - destruct (tuple_lt (get_item h (2 * pos + 1)) (get_item h (2 * pos + 1 + 1))) eqn:L;
          cbn [negb].
        + split; [lia|]. split; [exact P1|].
          intros c' Hc' Hp. destruct (Hkids c' ltac:(lia) Hp) as [->| ->].
          * apply tuple_lt_irrefl.
          * now apply tuple_lt_asym.
        + split; [lia|]. split; [exact P2|].
          intros c' Hc' Hp. destruct (Hkids c' ltac:(lia) Hp) as [->| ->].
          * exact L.
          * apply tuple_lt_irrefl.
      - split; [lia|]. split; [exact P1|].
        intros c' Hc' Hp. destruct (Hkids c' ltac:(lia) Hp) as [->| ->].
        + apply tuple_lt_irrefl.
        + lia. }
    destruct Hcc as (Hc1 & Hc2 & Hc3).
    pose proof (parent_lt c ltac:(lia)).
    intros E. replace (List.length h) with (List.length (set_item h pos (get_item h c))) in E
      by apply set_item_length.
    apply IH in E.
    + rewrite set_item_length in E. exact E.
    + rewrite set_item_length. lia.
    + now apply hole_step.
Qed.

Lemma heap_ok_front front z : heap_ok (front ++ [z]) -> heap_ok front.
Proof.
  intros Hh i Hi. pose proof (parent_lt i ltac:(lia)).
  specialize (Hh i). rewrite length_app in Hh. cbn [List.length] in Hh.
  rewrite !get_item_app_first in Hh by lia. apply Hh. lia.
Qed.

(** [heappop] keeps the heap order. *)
Lemma heappop_heap_ok h h' x :
  heap_ok h -> heapq.heappop h = Ok (h', x) -> heap_ok h'.
Proof.
  intros Hh. unfold heapq.heappop. destruct h as [|y h]; [discriminate|].
  destruct (exists_last (l := y :: h) ltac:(discriminate)) as (front & z & E).
  rewrite E in *. rewrite removelast_last, last_last.
  apply heap_ok_front in Hh.
  destruct front as [|f front]; [intros [= <- _]; apply heap_ok_nil|].
  intros [= <- _]. unfold heapq.siftup. cbv zeta.
  change (set_item (f :: front) 0 z) with (z :: front).
  set (h2 := z :: front).
  assert (Hl2 : List.length h2 = List.length (f :: front)) by reflexivity.
  assert (H2 : hole h2 0).
  { unfold hole. rewrite Hl2. split; [simpl; lia|]. split.
    - intros i Hi Hne Hnp. pose proof (parent_lt i ltac:(lia)).
      destruct i as [|i]; [lia|].
      destruct ((S i - 1) / 2) as [|j] eqn:Ej; [lia|].
      specialize (Hh (S i) Hi). rewrite Ej in Hh. exact Hh.
    - intros c _ _ H0. lia. }
  destruct (heapq.siftup_loop (List.length h2) h2 (List.length h2) 0) as [h3 leaf] eqn:E3.
  apply siftup_loop_hole in E3; [|lia|exact H2].
  destruct E3 as ((Hleaf & Hok & Hch) & Hkids & Hl3).
  unfold heapq.siftdown. rewrite get_set_same by exact Hleaf.
  apply siftdown_loop_heap_ok; [lia|].
  unfold sifting. rewrite set_item_length. split; [exact Hleaf|]. split.
  - intros i Hi Hne Hnp. rewrite !get_set_other by auto. now apply Hok.
  - intros c Hc Hp. exfalso.
    pose proof (Nat.div_mod_eq (c - 1) 2) as D.
    pose proof (Nat.mod_upper_bound (c - 1) 2 ltac:(lia)). lia.
Qed.

(** [add_completion] keeps the heap order. *)
Lemma added_heap_ok cs w s : heap_ok cs -> heap_ok (added cs w s).
Proof.
  intros Hh. unfold added, add_completion.
  pose proof (heappush_heap_ok cs (s, w) Hh) as Hp.
  destruct (10 <? _); [|exact Hp].
  destruct (heapq.heappop _) as [[h' x]|] eqn:E; cbn [bind]; [|exact Hh].
  eapply heappop_heap_ok; eauto.
Qed.

(** [add_completion] keeps the highest entries. *)
Lemma top_of_added cs R w s : top_of cs R -> top_of (added cs w s) ((s, w) :: R).
Proof.
  intros (Hh & Hl & dropped & Hp & Hd).
  pose proof (Permutation_length Hp) as Lp. rewrite length_app in Lp.
  split; [now apply added_heap_ok|]. split.
  { rewrite added_length. cbn [List.length]. lia. }
  destruct (Nat.lt_ge_cases (List.length cs) 10) as [Hs|Hf].
  - destruct (added_small cs w s Hs) as [P _].
    destruct dropped as [|e dropped]; [|simpl in Lp; lia].
    exists []. rewrite app_nil_r in *. split; [|intros e y []].
    rewrite P. now constructor.
  - destruct (added_full cs w s Hf) as (r & P & Hmin). specialize (Hmin Hh).
    exists (r :: dropped). split.
    + rewrite <- Permutation_middle. cbn [List.app].
      transitivity (((s, w) :: cs) ++ dropped).
      * change (r :: added cs w s ++ dropped) with ((r :: added cs w s) ++ dropped).
        now apply Permutation_app_tail.
      * cbn [List.app]. now constructor.
    + intros e y [<-|He] Hy.
      * apply Hmin. apply (Permutation_in _ P). now right.
      * assert (Hy' : In y ((s, w) :: cs)) by (apply (Permutation_in _ P); now right).
        destruct (item_eq_dec r (s, w)) as [Er|Er].
        -- subst r. apply Permutation_cons_inv in P.
           apply Hd; [exact He|]. now apply (Permutation_in _ P).
        -- assert (Hr : In r cs).
           { assert (Hr : In r ((s, w) :: cs)) by (apply (Permutation_in _ P); now left).
             destruct Hr as [Hr|Hr]; [congruence|exact Hr]. }
           eapply tuple_le_trans; [apply (Hd e r He Hr)|apply Hmin; exact Hy'].
Qed.

(** ** References and updates *)

Lemma bind_ok {A B} (m : result A) (k : A -> result B) a :
  m = Ok a -> bind m k = k a.
Proof. now intros ->. Qed.

Lemma deref_app t p q : deref t (p ++ q) = deref (deref t p) q.
Proof. revert t; induction p as [|b p IH]; intros t; simpl; auto. Qed.

Lemma deref_none p : deref PyNone p = PyNone.
Proof. induction p; simpl; auto. Qed.

Lemma update_app t p q f :
  update t (p ++ q) f = update t p (fun n => update n q f).
Proof.
  revert t; induction p as [|b p IH]; intros t; simpl; auto.
  destruct t; auto. destruct b; now rewrite IH.
Qed.

(** Updating the node a reference designates is computing the new node
    and putting it in place. *)
Lemma update_plug t p f :
  deref t p <> PyNone ->
  update t p f = (x <- f (deref t p);; plug t p x).
Proof.
  unfold plug. revert t; induction p as [|b p IH]; intros t H; simpl in *.
  - destruct (f t); reflexivity.
  - destruct t as [|d w s cs l m r]; [now rewrite deref_none in H|].
    destruct b; simpl in H |- *; rewrite (IH _ H); destruct (f _); reflexivity.
Qed.

Lemma plug_deref t p : deref t p <> PyNone -> plug t p (deref t p) = Ok t.
Proof.
  unfold plug. revert t; induction p as [|b p IH]; intros t H; simpl in *; auto.
  destruct t as [|d w s cs l m r]; [now rewrite deref_none in H|].
  destruct b; simpl in H |- *; now rewrite (IH _ H).
Qed.

Lemma plug_ok t p x : deref t p <> PyNone -> exists t', plug t p x = Ok t'.
Proof.
  unfold plug. revert t; induction p as [|b p IH]; intros t H; simpl in *; eauto.
  destruct t as [|d w s cs l m r]; [now rewrite deref_none in H|].
  destruct b; simpl in H |- *; destruct (IH _ H) as [t' ->]; simpl; eauto.
Qed.

Lemma deref_plug t p x t' q :
  plug t p x = Ok t' -> deref t' (p ++ q) = deref x q.
Proof.
  unfold plug. revert t t'; induction p as [|b p IH]; intros t t'; simpl.
  - now intros [= ->].
  - destruct t as [|d w s cs l m r]; [discriminate|].
    destruct b; destruct (update _ p _) eqn:E; simpl; try discriminate;
      intros [= <-]; simpl; eauto.
Qed.

Lemma plug_plug t p x y t' : plug t p x = Ok t' -> plug t' p y = plug t p y.
Proof.
  unfold plug. revert t t'; induction p as [|b p IH]; intros t t'; simpl; auto.
  destruct t as [|d w s cs l m r]; [discriminate|].
  destruct b; destruct (update _ p _) eqn:E; simpl; try discriminate;
    intros [= <-]; simpl; now rewrite (IH _ _ E).
Qed.

Lemma plug_app t p q x :
  deref t p <> PyNone ->
  plug t (p ++ q) x = (n <- plug (deref t p) q x;; plug t p n).
Proof.
  intros H. unfold plug at 1. rewrite update_app.
  now rewrite update_plug by exact H.
Qed.

(** A reference under a [Middle] link. *)
Lemma plug_middle d w s cs l m r q x :
  plug (mkNode d w s cs l m r) (Middle :: q) x
  = (m' <- plug m q x;; Ok (mkNode d w s cs l m' r)).
Proof. reflexivity. Qed.

Lemma typed_root_not_none n : typed_root n -> n <> PyNone.
Proof. destruct n; simpl; [tauto|discriminate]. Qed.

(** ** The siblings of a node: a binary search tree on [data] *)

Lemma search_char_bpath b c : typed b -> search_char b c = Ok (bpath b c).
Proof.
  induction b as [|d w s cs l IHl m _ r IHr]; simpl; [reflexivity|].
  intros (Hd & Hl & _ & Hr). destruct d as [x|]; [|contradiction]. simpl.
  destruct (Py.str_eq x c); [reflexivity|].
  destruct (Py.str_lt x c).
  - now rewrite (IHr Hr).
  - now rewrite (IHl Hl).
Qed.

(** The node found carries the character looked for. *)
Lemma bpath_deref b c q :
  typed b -> bpath b c = Some q ->
  exists w s cs l m r,
    deref b q = mkNode (Some c) w s cs l m r /\ typed l /\ typed m /\ typed r.
Proof.
  revert q; induction b as [|d w s cs l IHl m _ r IHr]; simpl; [discriminate|].
  intros q (Hd & Hl & Hm & Hr). destruct d as [x|]; [|contradiction].
  destruct (Py.str_eq x c) eqn:E.
  - intros [= <-]. apply str_eq_true in E as ->. simpl. eauto 10.
  - destruct (Py.str_lt x c).
    + destruct (bpath r c) as [q'|] eqn:Er; simpl; [|discriminate].
      intros [= <-]. simpl. now apply IHr.
    + destruct (bpath l c) as [q'|] eqn:El; simpl; [|discriminate].
      intros [= <-]. simpl. now apply IHl.
Qed.

Lemma bpath_plug b c q x :
  bpath b c = Some q -> plug b q x = Ok (bmod b c (fun _ => x)).
Proof.
  unfold plug. revert q; induction b as [|d w s cs l IHl m _ r IHr]; simpl; [discriminate|].
  intros q. destruct d as [y|]; [|discriminate].
  destruct (Py.str_eq y c); [now intros [= <-]|].
  destruct (Py.str_lt y c).
  - destruct (bpath r c) as [q'|]; simpl; [|discriminate].
    intros [= <-]. simpl. now rewrite (IHr q').
  - destruct (bpath l c) as [q'|]; simpl; [|discriminate].
    intros [= <-]. simpl. now rewrite (IHl q').
Qed.

(** When the character is not found, [insert_node] puts the new node where
    the search ended. *)
Lemma insert_node_spec b c :
  typed b -> bpath b c = None ->
  exists b' q,
    insert_node b (Node_init (Some c)) = Ok (b', q) /\
    deref b' q = Node_init (Some c) /\
    forall x, plug b' q x = Ok (bmod b c (fun _ => x)).
Proof.
  unfold plug. induction b as [|d w s cs l IHl m _ r IHr]; simpl.
  - intros _ _. eexists _, []. simpl. eauto.
  - intros (Hd & Hl & Hm & Hr). destruct d as [y|]; [|contradiction]. simpl.
    destruct (Py.str_eq y c) eqn:E; [discriminate|].
    destruct (Py.str_lt y c) eqn:L.
    + destruct (bpath r c) eqn:Er; simpl; [discriminate|]. intros _.
      destruct (IHr Hr eq_refl) as (b' & q & -> & Hq & Hp). simpl.
      eexists _, _. split; [reflexivity|]. split; [exact Hq|].
      intros x. simpl. now rewrite Hp.
    + destruct (bpath l c) eqn:El; simpl; [discriminate|]. intros _.
      assert (G : Py.str_lt c y = true).
      { destruct (Py.str_lt c y) eqn:G; [reflexivity|].
        apply str_eq_false in E. now destruct E; apply str_lt_total. }
      rewrite G.
      destruct (IHl Hl eq_refl) as (b' & q & -> & Hq & Hp). simpl.
      eexists _, _. split; [reflexivity|]. split; [exact Hq|].
      intros x. simpl. now rewrite Hp.
Qed.

Lemma bmod_bnode b c f :
  typed b -> bmod b c f = bmod b c (fun _ => f (bnode b c)).
Proof.
  unfold bnode.
  induction b as [|d w s cs l IHl m _ r IHr]; simpl; [reflexivity|].
  intros (Hd & Hl & Hm & Hr). destruct d as [y|]; [|contradiction].
  destruct (Py.str_eq y c); [reflexivity|].
  destruct (Py.str_lt y c).
  - rewrite (IHr Hr). destruct (bpath r c); reflexivity.
  - rewrite (IHl Hl). destruct (bpath l c); reflexivity.
Qed.

Lemma bnode_typed_root b c :
  typed b -> exists w s cs l m r,
    bnode b c = mkNode (Some c) w s cs l m r /\ typed l /\ typed m /\ typed r.
Proof.
  intros Hb. unfold bnode. destruct (bpath b c) as [q|] eqn:E.
  - now apply (bpath_deref b c q).
  - unfold Node_init. repeat eexists; simpl; auto.
Qed.

(** *** Looking up after a modification *)

Lemma bpath_bmod_same b c f :
  typed b -> sibling_safe f ->
  exists q, bpath (bmod b c f) c = Some q /\ deref (bmod b c f) q = f (bnode b c).
Proof.
  intros Hb Hf. unfold bnode.
  induction b as [|d w s cs l IHl m _ r IHr]; simpl.
  - destruct (Hf (Some c) false 0%Z [] PyNone PyNone PyNone I)
      as (w' & s' & cs' & m' & E & _).
    unfold Node_init. rewrite E. simpl. rewrite str_eq_refl. exists []. now rewrite <- E.
  - destruct Hb as (Hd & Hl & Hm & Hr). destruct d as [y|]; [|contradiction].
    destruct (Py.str_eq y c) eqn:E.
    + destruct (Hf (Some y) w s cs l m r Hm) as (w' & s' & cs' & m' & Ef & _).
      rewrite Ef. simpl. rewrite E. exists []. now rewrite <- Ef.
    + destruct (Py.str_lt y c) eqn:L; simpl; rewrite E, L.
      * destruct (IHr Hr) as (q & -> & Hq). exists (Right :: q). simpl.
        split; [reflexivity|]. rewrite Hq. destruct (bpath r c); reflexivity.
      * destruct (IHl Hl) as (q & -> & Hq). exists (Left :: q). simpl.
        split; [reflexivity|]. rewrite Hq. destruct (bpath l c); reflexivity.
Qed.

Lemma bget_bmod_same b c f :
  typed b -> sibling_safe f -> bget (bmod b c f) c = prune (f (bnode b c)).
Proof.
  intros Hb Hf. unfold bget.
  destruct (bpath_bmod_same b c f Hb Hf) as (q & -> & ->). reflexivity.
Qed.

Lemma bget_bmod_other b c c' f :
  typed b -> sibling_safe f -> c <> c' -> bget (bmod b c f) c' = bget b c'.
Proof.
  intros Hb Hf Hne. unfold bget.
  induction b as [|d w s cs l IHl m _ r IHr]; simpl.
  - destruct (Hf (Some c) false 0%Z [] PyNone PyNone PyNone I)
      as (w' & s' & cs' & m' & E & _).
    unfold Node_init. rewrite E. simpl.
    apply str_eq_false in Hne. rewrite Hne.
    destruct (Py.str_lt c c'); reflexivity.
  - destruct Hb as (Hd & Hl & Hm & Hr). destruct d as [y|]; [|contradiction].
    destruct (Py.str_eq y c) eqn:E.
    + apply str_eq_true in E as ->.
      destruct (Hf (Some c) w s cs l m r Hm) as (w' & s' & cs' & m' & Ef & _).
      rewrite Ef. simpl. apply str_eq_false in Hne. rewrite Hne.
      destruct (Py.str_lt c c').
      * destruct (bpath r c'); reflexivity.
      * destruct (bpath l c'); reflexivity.
    + destruct (Py.str_lt y c) eqn:L; simpl;
        destruct (Py.str_eq y c') eqn:E'; try reflexivity;
        destruct (Py.str_lt y c') eqn:L'.
      * specialize (IHr Hr).
        destruct (bpath (bmod r c f) c'), (bpath r c'); simpl in *; auto.
      * destruct (bpath l c'); reflexivity.
      * destruct (bpath r c'); reflexivity.
      * specialize (IHl Hl).
        destruct (bpath (bmod l c f) c'), (bpath l c'); simpl in *; auto.
Qed.

(** The references to the nodes that were there stay the same. *)
Lemma bpath_bmod_stable b c c' f q :
  typed b -> sibling_safe f -> bpath b c' = Some q -> bpath (bmod b c f) c' = Some q.
Proof.
  intros Hb Hf. revert q.
  induction b as [|d w s cs l IHl m _ r IHr]; simpl; [discriminate|].
  destruct Hb as (Hd & Hl & Hm & Hr). destruct d as [y|]; [|contradiction].
  intros q. destruct (Py.str_eq y c) eqn:E.
  - destruct (Hf (Some y) w s cs l m r Hm) as (w' & s' & cs' & m' & Ef & _).
    rewrite Ef. simpl. auto.
  - destruct (Py.str_lt y c) eqn:L; simpl;
      destruct (Py.str_eq y c') eqn:E'; auto;
      destruct (Py.str_lt y c') eqn:L'; auto.
    + destruct (bpath r c') as [q'|]; simpl; [|discriminate].
      intros [= <-]. now rewrite (IHr Hr q').
    + destruct (bpath l c') as [q'|]; simpl; [|discriminate].
      intros [= <-]. now rewrite (IHl Hl q').
Qed.

Lemma bmod_typed b c f :
  typed b -> sibling_safe f -> typed (bmod b c f).
Proof.
  intros Hb Hf.
  induction b as [|d w s cs l IHl m _ r IHr]; simpl.
  - destruct (Hf (Some c) false 0%Z [] PyNone PyNone PyNone I)
      as (w' & s' & cs' & m' & E & Hm').
    unfold Node_init. rewrite E. simpl. repeat split; auto. discriminate.
  - destruct Hb as (Hd & Hl & Hm & Hr). destruct d as [y|]; [|contradiction].
    destruct (Py.str_eq y c).
    + destruct (Hf (Some y) w s cs l m r Hm) as (w' & s' & cs' & m' & Ef & Hm').
      rewrite Ef. simpl. auto.
    + destruct (Py.str_lt y c); simpl; auto.
Qed.

(** ** Walks *)

Lemma lift_sibling_safe E : sibling_safe (lift E).
Proof.
  intros d w s cs l m r Hm. simpl. destruct (E (w, s, cs)) as [[w' s'] cs']. eauto 10.
Qed.

Lemma lift_typed_root E n : typed_root n -> typed_root (lift E n).
Proof.
  destruct n as [|d w s cs l m r]; simpl; auto.
  destruct (E (w, s, cs)) as [[w' s'] cs']. auto.
Qed.

Lemma payload_of_lift E n : n <> PyNone -> payload_of (lift E n) = E (payload_of n).
Proof.
  destruct n as [|d w s cs l m r]; simpl; [congruence|].
  intros _. now destruct (E (w, s, cs)) as [[w' s'] cs'].
Qed.

Lemma walk_sibling_safe a E L : sibling_safe (fun x => walk (lift E x) a (lift E) (lift L)).
Proof.
  induction a as [|c a IH]; intros d w s cs l m r Hm; simpl.
  - destruct (E (w, s, cs)) as [[w1 s1] cs1]. simpl.
    destruct (L (w1, s1, cs1)) as [[w2 s2] cs2]. eauto 10.
  - destruct (E (w, s, cs)) as [[w1 s1] cs1].
    eexists _, _, _, _. split; [reflexivity|]. now apply bmod_typed.
Qed.

Lemma walk_typed_root n a E L :
  typed_root n -> typed_root (walk n a (lift E) (lift L)).
Proof.
  destruct a as [|c a]; simpl; [apply lift_typed_root|].
  destruct n as [|d w s cs l m r]; simpl; auto.
  intros Hm. apply bmod_typed; auto. apply walk_sibling_safe.
Qed.

Lemma lift_id n : lift (fun p => p) n = n.
Proof. now destruct n. Qed.

(** *** The loops of [insert_completion] and [insert] as walks *)

Lemma Node_add_completion_lift w s n :
  n <> PyNone -> Node_add_completion w s n = Ok (lift (padd w s) n).
Proof.
  destruct n as [|d w0 s0 cs l m r]; [congruence|]. intros _.
  unfold Node_add_completion. simpl. now rewrite add_completion_added.
Qed.

(** One step down: the node for [c] under [ptr] is found, or created and
    linked in; [q] is its place among the siblings [m1] under [ptr]. *)
Lemma descend_spec t ptr c d w s cs l m r :
  deref t ptr = mkNode d w s cs l m r -> typed m ->
  exists t1 q m1,
    descend t ptr c = Ok (t1, ptr ++ Middle :: q) /\
    plug t ptr (mkNode d w s cs l m1 r) = Ok t1 /\
    deref m1 q = bnode m c /\
    (bpath m c <> None -> t1 = t /\ bpath m c = Some q) /\
    forall x, plug m1 q x = Ok (bmod m c (fun _ => x)).
Proof.
  intros Hn Hm. unfold descend. rewrite Hn. simpl.
  rewrite (search_char_bpath m c Hm). simpl. unfold bnode.
  destruct (bpath m c) as [q|] eqn:E.
  - exists t, q, m. rewrite <- Hn. rewrite plug_deref by (rewrite Hn; discriminate).
    repeat split; auto. intros x. now apply bpath_plug.
  - destruct (insert_node_spec m c Hm E) as (m' & q & -> & Hq & Hp). simpl.
    rewrite update_plug by (rewrite Hn; discriminate). rewrite Hn. simpl.
    destruct (plug_ok t ptr (mkNode d w s cs l m' r)) as [t1 Ht1];
      [rewrite Hn; discriminate|].
    rewrite Ht1. simpl. exists t1, q, m'. repeat split; auto; congruence.
Qed.

Lemma insert_completion_loop_walk prefix w s : forall t ptr,
  typed_root (deref t ptr) ->
  insert_completion_loop t ptr prefix w s
  = plug t ptr (walk (deref t ptr) prefix (lift (padd w s)) (lift (fun p => p))).
Proof.
  induction prefix as [|c prefix IH]; intros t ptr Hn.
  - simpl. rewrite lift_id. symmetry. apply plug_deref. now apply typed_root_not_none.
  - destruct (deref t ptr) as [|d w0 s0 cs l m r] eqn:En; [contradiction|].
    simpl in Hn. cbn [insert_completion_loop walk].
    destruct (descend_spec t ptr (String c EmptyString) _ _ _ _ _ _ _ En Hn)
      as (t1 & q & m1 & -> & Ht1 & Hq & _ & Hp).
    cbn [bind].
    assert (D1 : deref t1 (ptr ++ Middle :: q) = bnode m (String c EmptyString)).
    { rewrite (deref_plug _ _ _ _ _ Ht1). simpl. exact Hq. }
    destruct (bnode_typed_root m (String c EmptyString) Hn)
      as (w1 & s1 & cs1 & l1 & mm & r1 & Eb & _ & Hmm & _).
    rewrite update_plug by (rewrite D1, Eb; discriminate).
    rewrite D1, Node_add_completion_lift by (rewrite Eb; discriminate).
    cbn [bind].
    destruct (plug_ok t1 (ptr ++ Middle :: q) (lift (padd w s) (bnode m (String c EmptyString))))
      as [t2 Ht2]; [rewrite D1, Eb; discriminate|].
    rewrite Ht2. cbn [bind].
    assert (D2 : deref t2 (ptr ++ Middle :: q) = lift (padd w s) (bnode m (String c EmptyString))).
    { rewrite <- (app_nil_r (ptr ++ Middle :: q)). now rewrite (deref_plug _ _ _ _ _ Ht2). }
    rewrite IH by (rewrite D2; apply lift_typed_root; rewrite Eb; exact Hmm).
    rewrite D2, (plug_plug _ _ _ _ _ Ht2).
    assert (D3 : deref t1 ptr = mkNode d w0 s0 cs l m1 r).
    { rewrite <- (app_nil_r ptr). now rewrite (deref_plug _ _ _ _ _ Ht1). }
    rewrite plug_app by (rewrite D3; discriminate).
    rewrite D3, plug_middle, Hp. cbn [bind].
    rewrite (plug_plug _ _ _ _ _ Ht1).
    now rewrite (bmod_bnode m (String c EmptyString)
      (fun x => walk (lift (padd w s) x) prefix (lift (padd w s)) (lift (fun p => p))) Hn).
Qed.

(** [insert_completion] does not raise on a typed tree. *)
Lemma insert_completion_walk t prefix w s :
  typed_root t ->
  insert_completion (mkQueryServer t) prefix w s
  = Ok (mkQueryServer (walk t prefix (lift (padd w s)) (lift (fun p => p)))).
Proof.
  intros Ht. unfold insert_completion. simpl.
  now rewrite insert_completion_loop_walk.
Qed.

(** ** [search] *)

Lemma search_loop_spath a : forall t p,
  typed_root (deref t p) ->
  search_loop t (Some p) a = Ok (option_map (List.app p) (spath (deref t p) a)).
Proof.
  induction a as [|c a IH]; intros t p Hn; simpl.
  - now rewrite app_nil_r.
  - destruct (deref t p) as [|d w s cs l m r] eqn:En; [contradiction|].
    simpl in *. rewrite (search_char_bpath m _ Hn). simpl.
    destruct (bpath m (String c EmptyString)) as [q|] eqn:Eq; [|reflexivity].
    destruct (bpath_deref m _ q Hn Eq) as (w1 & s1 & cs1 & l1 & m1 & r1 & Ed & _ & Hm1 & _).
    assert (D : deref t (p ++ Middle :: q) = deref m q).
    { rewrite deref_app, En. reflexivity. }
    rewrite IH by (rewrite D, Ed; exact Hm1).
    rewrite D. destruct (spath (deref m q) a) as [p'|]; simpl; [|reflexivity].
    now rewrite <- app_assoc.
Qed.

(** On a typed tree [search] does not raise, and returns the reference
    [spath] describes. *)
Lemma search_spath t a :
  typed_root t -> search (mkQueryServer t) a = Ok (spath t a).
Proof.
  intros Ht. unfold search. simpl.
  destruct t as [|d w s cs l m r]; [contradiction|].
  rewrite search_loop_spath by exact Ht. simpl.
  now destruct (spath _ a).
Qed.

Lemma payload_of_prune n : payload_of (prune n) = payload_of n.
Proof. now destruct n. Qed.

Lemma find_none a : find PyNone a = PyNone.
Proof. now destruct a. Qed.

Lemma find_prune n a : payload_of (find (prune n) a) = payload_of (find n a).
Proof.
  destruct a as [|c a]; simpl; [apply payload_of_prune|]. now destruct n.
Qed.

Lemma find_lift E n a : a <> EmptyString -> find (lift E n) a = find n a.
Proof.
  destruct a as [|c a]; [congruence|]. intros _.
  destruct n as [|d w s cs l m r]; simpl; [reflexivity|].
  now destruct (E (w, s, cs)) as [[w' s'] cs'].
Qed.

(** Whether the node for [c] is there or has yet to be created, what is
    found under it is the same. *)
Lemma find_bget_bnode m c a :
  payload_of (find (bget m c) a) = payload_of (find (bnode m c) a).
Proof.
  unfold bget, bnode. destruct (bpath m c); [apply find_prune|].
  rewrite find_none. destruct a as [|c' a]; simpl; [reflexivity|].
  now rewrite find_none.
Qed.

(** [find] is what the reference of [spath] designates. *)
Lemma find_spath a : forall n,
  typed_root n ->
  payload_of (find n a)
  = payload_of (match spath n a with Some q => deref n q | None => PyNone end).
Proof.
  induction a as [|c a IH]; intros n Hn; simpl; [reflexivity|].
  destruct n as [|d w s cs l m r]; [contradiction|]. simpl in Hn.
  unfold bget. destruct (bpath m (String c EmptyString)) as [q|] eqn:Eq.
  - destruct (bpath_deref m _ q Hn Eq) as (w1 & s1 & cs1 & l1 & m1 & r1 & Ed & _ & Hm1 & _).
    rewrite find_prune, IH by (rewrite Ed; exact Hm1).
    destruct (spath (deref m q) a) as [p|]; simpl; [|reflexivity].
    now rewrite deref_app.
  - now rewrite find_none.
Qed.

(** Changing the node a search ends on is a walk that creates nothing. *)
Lemma plug_spath_walk a L : forall n q,
  typed_root n -> spath n a = Some q ->
  plug n q (lift L (deref n q)) = Ok (walk n a (lift (fun p => p)) (lift L)).
Proof.
  induction a as [|c a IH]; intros n q Hn; simpl.
  - now intros [= <-].
  - destruct n as [|d w s cs l m r]; [contradiction|]. simpl in Hn.
    destruct (bpath m (String c EmptyString)) as [q1|] eqn:Eq; [|discriminate].
    destruct (bpath_deref m _ q1 Hn Eq) as (w1 & s1 & cs1 & l1 & m1 & r1 & Ed & _ & Hm1 & _).
    destruct (spath (deref m q1) a) as [p|] eqn:Ep; simpl; [|discriminate].
    intros [= <-]. rewrite plug_middle. simpl deref. rewrite deref_app.
    rewrite plug_app by (rewrite Ed; discriminate).
    rewrite (IH (deref m q1) p); [|rewrite Ed; exact Hm1|exact Ep]. cbn [bind].
    rewrite (bpath_plug m _ q1 _ Eq). cbn [bind].
    rewrite (bmod_bnode m (String c EmptyString)
      (fun x => walk (lift (fun p0 => p0) x) a (lift (fun p0 => p0)) (lift L)) Hn).
    unfold bnode. rewrite Eq, lift_id. reflexivity.
Qed.

(** ** What a walk changes *)

Lemma reaches_cons c a' c' a :
  reaches (String c a') (String c' a)
  = if ascii_dec c c' then String.prefix a' a else false.
Proof. simpl. now destruct (ascii_dec c c'). Qed.

Lemma prefix_nil a : String.prefix EmptyString a = true.
Proof. now destruct a. Qed.

Lemma reaches_prefix a' a : a' <> EmptyString -> reaches a' a = String.prefix a' a.
Proof. destruct a'; [congruence|reflexivity]. Qed.

(** After a walk along [a], the node at [a'] has been through [E] if [a']
    is a non-empty prefix of [a], then through [L] if [a'] is [a]; a node
    that was not there started as a new node. *)
Lemma find_walk a E L : forall n a',
  typed_root n ->
  payload_of (find (walk n a (lift E) (lift L)) a')
  = (if String.eqb a' a then L else fun p => p)
      ((if reaches a' a then E else fun p => p) (payload_of (find n a'))).
Proof.
  induction a as [|c a IH]; intros n a' Hn.
  - destruct a' as [|c' a']; cbn [walk].
    + simpl. apply payload_of_lift. now apply typed_root_not_none.
    + rewrite find_lift by discriminate. reflexivity.
  - destruct n as [|d w s cs l m r]; [contradiction|]. simpl in Hn.
    cbn [walk]. destruct a' as [|c' a']; [reflexivity|].
    cbn [find]. rewrite reaches_cons. cbn [String.eqb].
    destruct (ascii_dec c' c) as [->|Hne].
    + rewrite Ascii.eqb_refl.
      rewrite bget_bmod_same by (auto; apply walk_sibling_safe).
      rewrite find_prune, find_bget_bnode.
      destruct (bnode_typed_root m (String c EmptyString) Hn)
        as (w1 & s1 & cs1 & l1 & mm & r1 & Eb & _ & Hmm & _).
      rewrite IH by (apply lift_typed_root; rewrite Eb; exact Hmm).
      destruct a' as [|c2 a2].
      * rewrite prefix_nil. cbn [find reaches].
        rewrite payload_of_lift by (rewrite Eb; discriminate). reflexivity.
      * rewrite find_lift by discriminate.
        now rewrite reaches_prefix by discriminate.
    + assert (E' : Ascii.eqb c' c = false) by now apply Ascii.eqb_neq.
      rewrite E'.
      rewrite bget_bmod_other; auto; [apply walk_sibling_safe|congruence].
Qed.

(** A walk keeps the references to the nodes that were there. *)
Lemma spath_walk_stable a E L : forall n a' q,
  typed_root n -> spath n a' = Some q ->
  spath (walk n a (lift E) (lift L)) a' = Some q.
Proof.
  induction a as [|c a IH]; intros n a' q Hn.
  - cbn [walk]. destruct a' as [|c' a']; [auto|].
    destruct n as [|d w s cs l m r]; [contradiction|]. simpl.
    now destruct (E (w, s, cs)) as [[w' s'] cs']; destruct (L (w, s, cs)) as [[w2 s2] cs2].
  - destruct n as [|d w s cs l m r]; [contradiction|]. simpl in Hn.
    cbn [walk]. destruct a' as [|c' a']; [auto|]. cbn [spath].
    destruct (bpath m (String c' EmptyString)) as [q1|] eqn:Eq; [|discriminate].
    rewrite (bpath_bmod_stable m _ _ _ q1 Hn (walk_sibling_safe a E L) Eq).
    destruct (bpath_deref m _ q1 Hn Eq) as (w1 & s1 & cs1 & l1 & m1 & r1 & Ed & _ & Hm1 & _).
    destruct (spath (deref m q1) a') as [p|] eqn:Ep; simpl; [|discriminate].
    intros [= <-].
    destruct (ascii_dec c' c) as [->|Hne].
    + destruct (bpath_bmod_same m (String c EmptyString) _ Hn (walk_sibling_safe a E L))
        as (q2 & Hq2 & Hd2).
      rewrite (bpath_bmod_stable m _ _ _ q1 Hn (walk_sibling_safe a E L) Eq) in Hq2.
      injection Hq2 as <-. rewrite Hd2. unfold bnode. rewrite Eq.
      rewrite (IH (lift E (deref m q1)) a' p); [reflexivity| |].
      * apply lift_typed_root. rewrite Ed. exact Hm1.
      * rewrite Ed in *. simpl. destruct (E (w1, s1, cs1)) as [[w' s'] cs'].
        destruct a'; auto.
    + assert (G : bget (bmod m (String c EmptyString)
                      (fun x => walk (lift E x) a (lift E) (lift L)))
                    (String c' EmptyString) = bget m (String c' EmptyString)).
      { apply bget_bmod_other; auto; [apply walk_sibling_safe|congruence]. }
      unfold bget in G.
      rewrite (bpath_bmod_stable m _ _ _ q1 Hn (walk_sibling_safe a E L) Eq), Eq in G.
      assert (S : forall x y, prune x = prune y -> spath x a' = spath y a').
      { intros x y Hxy. destruct a'; [reflexivity|].
        destruct x, y; simpl in *; try discriminate; auto.
        now injection Hxy as _ _ _ _ ->. }
      now rewrite (S _ _ G), Ep.
Qed.

(** A walk along [a] leaves a node at every prefix of [a]. *)
Lemma spath_walk_exists a E L : forall n a',
  typed_root n -> String.prefix a' a = true ->
  spath (walk n a (lift E) (lift L)) a' <> None.
Proof.
  induction a as [|c a IH]; intros n a' Hn.
  - destruct a' as [|c' a']; simpl; [discriminate|]. discriminate.
  - destruct n as [|d w s cs l m r]; [contradiction|]. simpl in Hn.
    cbn [walk]. destruct a' as [|c' a']; [discriminate|]. cbn [spath String.prefix].
    destruct (ascii_dec c' c) as [->|Hne]; [|discriminate]. intros Hp.
    destruct (bpath_bmod_same m (String c EmptyString) _ Hn (walk_sibling_safe a E L))
      as (q2 & -> & Hd2).
    rewrite Hd2.
    destruct (bnode_typed_root m (String c EmptyString) Hn)
      as (w1 & s1 & cs1 & l1 & mm & r1 & Eb & _ & Hmm & _).
    specialize (IH (lift E (bnode m (String c EmptyString))) a').
    destruct (spath _ a'); [discriminate|].
    exfalso. apply IH; auto. apply lift_typed_root. rewrite Eb. exact Hmm.
Qed.

(** ** [insert] and [get_completions] on a typed tree *)

Lemma str_app_nil_r (a : string) : (a ++ EmptyString)%string = a.
Proof. induction a; simpl; congruence. Qed.

Lemma str_app_assoc (a b c : string) : ((a ++ b) ++ c)%string = (a ++ b ++ c)%string.
Proof. induction a; simpl; congruence. Qed.

Lemma spath_deref_typed a : forall n q,
  typed_root n -> spath n a = Some q -> typed_root (deref n q).
Proof.
  induction a as [|c a IH]; intros n q Hn; simpl.
  - now intros [= <-].
  - destruct n as [|d w s cs l m r]; [contradiction|]. simpl in Hn.
    destruct (bpath m (String c EmptyString)) as [q1|] eqn:Eq; [|discriminate].
    destruct (bpath_deref m _ q1 Hn Eq) as (w1 & s1 & cs1 & l1 & m1 & r1 & Ed & _ & Hm1 & _).
    destruct (spath (deref m q1) a) as [p|] eqn:Ep; simpl; [|discriminate].
    intros [= <-]. simpl. rewrite deref_app.
    apply (IH (deref m q1) p); [rewrite Ed; exact Hm1|exact Ep].
Qed.

Lemma spath_app a b : forall n,
  typed_root n ->
  spath n (a ++ b)
  = match spath n a with
    | Some p => option_map (List.app p) (spath (deref n p) b)
    | None => None
    end.
Proof.
  induction a as [|c a IH]; intros n Hn; simpl.
  - now destruct (spath n b).
  - destruct n as [|d w s cs l m r]; [contradiction|]. simpl in Hn.
    destruct (bpath m (String c EmptyString)) as [q1|] eqn:Eq; [|reflexivity].
    destruct (bpath_deref m _ q1 Hn Eq) as (w1 & s1 & cs1 & l1 & m1 & r1 & Ed & _ & Hm1 & _).
    rewrite IH by (rewrite Ed; exact Hm1).
    destruct (spath (deref m q1) a) as [p|]; simpl; [|reflexivity].
    rewrite deref_app.
    destruct (spath (deref (deref m q1) p) b); simpl; [|reflexivity].
    now rewrite <- app_assoc.
Qed.

Lemma prefix_refl a : String.prefix a a = true.
Proof.
  induction a as [|c a IH]; simpl; [reflexivity|].
  now destruct (ascii_dec c c).
Qed.

Lemma prefix_app a b : String.prefix a (a ++ b) = true.
Proof.
  induction a as [|c a IH]; simpl; [apply prefix_nil|].
  now destruct (ascii_dec c c).
Qed.

Lemma prefix_app_r a' a b : String.prefix a' a = true -> String.prefix a' (a ++ b) = true.
Proof.
  revert a'; induction a as [|c a IH]; intros [|c' a']; simpl; try discriminate; auto.
  - intros _. apply prefix_nil.
  - destruct (ascii_dec c' c); auto.
Qed.

(** The loop of [insert] creates nothing: the nodes of [word] are there
    since the call [insert_completion(word, word, score)]. *)
Lemma insert_loop_spec w s rest : forall done t ptr,
  typed_root t -> spath t done = Some ptr ->
  (forall a', String.prefix a' (done ++ rest) = true -> spath t a' <> None) ->
  exists q,
    insert_loop (mkQueryServer t) ptr rest w s
      = Ok (mkQueryServer (suffixes_added t rest w s), q) /\
    spath (suffixes_added t rest w s) (done ++ rest) = Some q.
Proof.
  induction rest as [|c rest IH]; intros done t ptr Ht Hptr Hall.
  - exists ptr. simpl. now rewrite str_app_nil_r.
  - cbn [insert_loop suffixes_added].
    set (t' := if Ascii.eqb c "_"%char
               then walk t rest (lift (padd w s)) (lift (fun p => p)) else t).
    assert (E1 : (if Ascii.eqb c "_"%char
                  then insert_completion (mkQueryServer t) rest w s
                  else Ok (mkQueryServer t)) = Ok (mkQueryServer t')).
    { subst t'. destruct (Ascii.eqb c "_"%char); [|reflexivity].
      now apply insert_completion_walk. }
    rewrite E1. cbn [bind root].
    assert (Ht' : typed_root t').
    { subst t'. destruct (Ascii.eqb c "_"%char); [|exact Ht]. now apply walk_typed_root. }
    assert (Hst : forall a' q, spath t a' = Some q -> spath t' a' = Some q).
    { subst t'. destruct (Ascii.eqb c "_"%char); [|auto].
      intros a' q. now apply spath_walk_stable. }
    assert (Hptr' := Hst _ _ Hptr).
    pose proof (spath_deref_typed _ _ _ Ht' Hptr') as Hd.
    destruct (deref t' ptr) as [|d w0 s0 cs l m r] eqn:En; [contradiction|].
    destruct (descend_spec t' ptr (String c EmptyString) _ _ _ _ _ _ _ En Hd)
      as (t1 & q & m1 & -> & _ & _ & Hfound & _).
    cbn [bind].
    assert (Hc : spath t' (done ++ String c EmptyString) <> None).
    { specialize (Hall (done ++ String c EmptyString)%string).
      destruct (spath t (done ++ String c EmptyString)) as [q'|] eqn:Eq'.
      - rewrite (Hst _ _ Eq'). discriminate.
      - exfalso. apply Hall; [|reflexivity].
        replace (done ++ String c rest)%string
          with ((done ++ String c EmptyString) ++ rest)%string
          by (now rewrite str_app_assoc).
        apply prefix_app. }
    rewrite spath_app, Hptr', En in Hc by exact Ht'. cbn [spath] in Hc.
    destruct (bpath m (String c EmptyString)) as [q'|] eqn:Eb; [|now elim Hc].
    destruct (Hfound ltac:(discriminate)) as [-> [= <-]].
    destruct (IH (done ++ String c EmptyString)%string t' (ptr ++ Middle :: q')) as (q2 & -> & Hq2).
    + exact Ht'.
    + rewrite spath_app, Hptr', En by exact Ht'. cbn [spath]. rewrite Eb. simpl.
      now rewrite app_nil_r.
    + intros a' Ha'. rewrite str_app_assoc in Ha'. simpl in Ha'.
      destruct (spath t a') eqn:Eq'; [rewrite (Hst _ _ Eq'); discriminate|].
      now elim (Hall a' Ha').
    + exists q2. split; [reflexivity|].
      rewrite str_app_assoc in Hq2. exact Hq2.
Qed.

Lemma suffixes_added_typed_root w s rest : forall t,
  typed_root t -> typed_root (suffixes_added t rest w s).
Proof.
  induction rest as [|c rest IH]; intros t Ht; simpl; auto.
  apply IH. destruct (Ascii.eqb c "_"%char); auto. now apply walk_typed_root.
Qed.

Lemma suffixes_added_stable w s rest : forall t a q,
  typed_root t -> spath t a = Some q -> spath (suffixes_added t rest w s) a = Some q.
Proof.
  induction rest as [|c rest IH]; intros t a q Ht Hq; simpl; auto.
  destruct (Ascii.eqb c "_"%char); apply IH; auto.
  - now apply walk_typed_root.
  - now apply spath_walk_stable.
Qed.

Lemma mark_word_lift s n : n <> PyNone -> mark_word s n = Ok (lift (pmark s) n).
Proof. destruct n; [congruence|reflexivity]. Qed.

(** On a typed tree [insert] does not raise, and leaves the tree
    [inserted] describes. *)
Lemma insert_inserted t w s :
  typed_root t -> insert (mkQueryServer t) w s = Ok (mkQueryServer (inserted t w s)).
Proof.
  intros Ht. unfold insert, inserted. cbn [root update].
  rewrite Node_add_completion_lift by now apply typed_root_not_none.
  cbn [bind].
  rewrite insert_completion_walk by now apply lift_typed_root.
  cbn [bind].
  set (t2 := walk (lift (padd w s) t) w (lift (padd w s)) (lift (fun p => p))).
  assert (Ht2 : typed_root t2) by (apply walk_typed_root; now apply lift_typed_root).
  destruct (insert_loop_spec w s w EmptyString t2 []) as (q & -> & Hq); auto.
  { intros a' Ha'. apply spath_walk_exists; auto. now apply lift_typed_root. }
  cbn [bind root]. simpl in Hq.
  set (t3 := suffixes_added t2 w w s) in *.
  assert (Ht3 : typed_root t3) by now apply suffixes_added_typed_root.
  pose proof (spath_deref_typed _ _ _ Ht3 Hq) as Hd.
  rewrite update_plug by now apply typed_root_not_none.
  rewrite mark_word_lift by now apply typed_root_not_none.
  cbn [bind]. now rewrite (plug_spath_walk w (pmark s) t3 q Ht3 Hq).
Qed.

Lemma inserted_typed_root t w s : typed_root t -> typed_root (inserted t w s).
Proof.
  intros Ht. unfold inserted. apply walk_typed_root, suffixes_added_typed_root,
    walk_typed_root, lift_typed_root, Ht.
Qed.

Lemma set_completions_lift n :
  n <> PyNone ->
  set_completions (sort_reverse (completions_of n)) n = Ok (lift psort n).
Proof. destruct n; [congruence|reflexivity]. Qed.

(** On a typed tree [get_completions] does not raise; it returns the
    words of the entries of the node reached, sorted, and leaves the tree
    [queried] describes. *)
Lemma get_completions_queried t p :
  typed_root t ->
  get_completions (mkQueryServer t) p
  = Ok (map snd (sort_reverse (completions_of (find t p))), mkQueryServer (queried t p)).
Proof.
  intros Ht. unfold get_completions, queried, completions_of.
  rewrite search_spath by exact Ht. cbn [bind root].
  rewrite (find_spath p t Ht).
  destruct (spath t p) as [q|] eqn:Eq; [|reflexivity].
  pose proof (spath_deref_typed _ _ _ Ht Eq) as Hd.
  destruct (deref t q) as [|d w s cs l m r] eqn:En; [contradiction|].
  cbn [get_completions_attr bind payload_of snd].
  rewrite update_plug by (rewrite En; discriminate).
  rewrite En. cbn [set_completions bind].
  pose proof (plug_spath_walk p psort t q Ht Eq) as P.
  rewrite En in P. simpl lift in P. unfold psort in P at 1. simpl in P.
  now rewrite P.
Qed.

Lemma queried_typed_root t p : typed_root t -> typed_root (queried t p).
Proof.
  intros Ht. unfold queried. destruct (spath t p); auto. now apply walk_typed_root.
Qed.

(** Every server reached from a new one is typed: no call raises on it. *)
Lemma reachable_typed self : reachable self -> typed_root (root self).
Proof.
  induction 1 as [|[t] w s self' _ IH H|[t] p l self' _ IH H]; simpl in *.
  - exact I.
  - rewrite insert_inserted in H by exact IH. injection H as <-.
    now apply inserted_typed_root.
  - rewrite get_completions_queried in H by exact IH. injection H as _ <-.
    now apply queried_typed_root.
Qed.

(** ** The entries of a node after [insert] and [get_completions] *)

Lemma completions_at_find t p :
  typed_root t -> completions_at (mkQueryServer t) p = completions_of (find t p).
Proof.
  intros Ht. unfold completions_at, completions_of.
  rewrite search_spath, (find_spath p t) by exact Ht. cbn [root].
  now destruct (spath t p).
Qed.

Lemma find_suffixes_added w s a rest : forall t,
  typed_root t ->
  completions_of (find (suffixes_added t rest w s) a)
  = Nat.iter (suffix_hits a rest) (fun cs => added cs w s) (completions_of (find t a)).
Proof.
  unfold completions_of.
  induction rest as [|c rest IH]; intros t Ht; cbn [suffixes_added suffix_hits].
  - reflexivity.
  - destruct (Ascii.eqb c "_"%char).
    + rewrite IH by now apply walk_typed_root.
      rewrite find_walk by exact Ht. unfold hits.
      rewrite Nat.add_comm, Nat.iter_add. f_equal.
      destruct (String.eqb a rest), (reaches a rest); reflexivity.
    + now rewrite IH.
Qed.

(** [insert(w, s)] runs [add_completion(w, s)] as many times on the node
    at [a] as [registrations a w] tells, and changes no other entries. *)
Lemma find_inserted t w s a :
  typed_root t ->
  completions_of (find (inserted t w s) a)
  = Nat.iter (registrations a w) (fun cs => added cs w s) (completions_of (find t a)).
Proof.
  intros Ht. unfold inserted, registrations.
  assert (H1 : typed_root (lift (padd w s) t)) by now apply lift_typed_root.
  assert (H2 : typed_root (walk (lift (padd w s) t) w (lift (padd w s)) (lift (fun p => p))))
    by now apply walk_typed_root.
  replace (completions_of (find (walk _ w (lift (fun p => p)) (lift (pmark s))) a))
    with (completions_of (find (suffixes_added
            (walk (lift (padd w s) t) w (lift (padd w s)) (lift (fun p => p))) w w s) a)).
  2:{ unfold completions_of. rewrite (find_walk w (fun p => p) (pmark s))
        by now apply suffixes_added_typed_root.
      destruct (String.eqb a w), (reaches a w); reflexivity. }
  rewrite find_suffixes_added by exact H2.
  rewrite (Nat.add_comm _ (suffix_hits a w)), Nat.iter_add. f_equal.
  rewrite Nat.add_comm, Nat.iter_add.
  unfold completions_of. rewrite find_walk by exact H1. unfold hits.
  replace (payload_of (find (lift (padd w s) t) a))
    with (Nat.iter (match a with EmptyString => 1 | _ => 0 end) (padd w s) (payload_of (find t a))).
  2:{ destruct a as [|c a]; [|now rewrite find_lift].
      simpl. symmetry. apply payload_of_lift. now apply typed_root_not_none. }
  destruct (String.eqb a w), (reaches a w), a; reflexivity.
Qed.

Lemma find_queried t p a :
  typed_root t ->
  completions_of (find (queried t p) a)
  = if String.eqb a p then sort_reverse (completions_of (find t a))
    else completions_of (find t a).
Proof.
  intros Ht. unfold queried, completions_of.
  destruct (spath t p) as [q|] eqn:Eq.
  - rewrite find_walk by exact Ht.
    destruct (String.eqb a p), (reaches a p); reflexivity.
  - destruct (String.eqb_spec a p) as [->|]; [|reflexivity].
    rewrite (find_spath p t Ht), Eq. reflexivity.
Qed.

(** *** Sorting *)

Lemma insert_desc_perm x l : Permutation (insert_desc x l) (x :: l).
Proof.
  induction l as [|y l IH]; simpl; [reflexivity|].
  destruct (tuple_lt x y); [|reflexivity].
  rewrite IH. apply perm_swap.
Qed.

Lemma sort_reverse_perm l : Permutation (sort_reverse l) l.
Proof.
  induction l as [|x l IH]; simpl; [reflexivity|].
  rewrite insert_desc_perm. now constructor.
Qed.

Lemma before_iff a b : before a b <-> tuple_lt a b = false.
Proof.
  unfold before. split.
  - intros H. destruct (tuple_lt a b) eqn:E; [|reflexivity].
    apply tuple_lt_spec in E. destruct H as [H|[H1 H2]], E as [E|[E1 E2]];
      try lia; congruence.
  - intros H. destruct (Z.lt_trichotomy (fst a) (fst b)) as [L|[E|G]].
    + assert (T : tuple_lt a b = true) by (apply tuple_lt_spec; now left). congruence.
    + right. split; [exact E|]. destruct (Py.str_lt (snd a) (snd b)) eqn:L; [|reflexivity].
      assert (T : tuple_lt a b = true) by (apply tuple_lt_spec; now right). congruence.
    + now left.
Qed.

Lemma before_trans a b c : before a b -> before b c -> before a c.
Proof. rewrite !before_iff. intros H1 H2. eapply tuple_le_trans; eassumption. Qed.

Lemma insert_desc_sorted x l :
  StronglySorted before l -> StronglySorted before (insert_desc x l).
Proof.
  induction 1 as [|y l Hs IH Hy]; simpl.
  - repeat constructor.
  - destruct (tuple_lt x y) eqn:E.
    + constructor; [exact IH|].
      apply (Permutation_Forall (Permutation_sym (insert_desc_perm x l))).
      constructor; [|exact Hy]. apply before_iff. now apply tuple_lt_asym.
    + assert (Hxy : before x y) by now apply before_iff.
      constructor; [now constructor|]. constructor; [exact Hxy|].
      eapply Forall_impl; [|exact Hy]. intros z Hz. eapply before_trans; eassumption.
Qed.

Lemma sort_reverse_sorted l : StronglySorted before (sort_reverse l).
Proof.
  induction l as [|x l IH]; simpl; [constructor|]. now apply insert_desc_sorted.
Qed.

Lemma sort_reverse_length l : List.length (sort_reverse l) = List.length l.
Proof. apply Permutation_length, sort_reverse_perm. Qed.

(** *** At most ten entries *)

Lemma iter_added_length k w s cs :
  List.length cs <= 10 ->
  List.length (Nat.iter k (fun cs => added cs w s) cs) <= 10.
Proof.
  intros H. induction k as [|k IH]; simpl; [exact H|].
  rewrite added_length. lia.
Qed.

Lemma reachable_bounded self :
  reachable self -> forall a, List.length (completions_of (find (root self) a)) <= 10.
Proof.
  induction 1 as [|[t] w s self' Hr IH H|[t] p l self' Hr IH H]; intros a.
  - destruct a as [|c a]; simpl; [lia|]. rewrite find_none. simpl. lia.
  - apply reachable_typed in Hr. simpl in *.
    rewrite insert_inserted in H by exact Hr. injection H as <-. simpl.
    rewrite find_inserted by exact Hr. now apply iter_added_length.
  - apply reachable_typed in Hr. simpl in *.
    rewrite get_completions_queried in H by exact Hr. injection H as _ <-. simpl.
    rewrite find_queried by exact Hr.
    destruct (String.eqb a p); [rewrite sort_reverse_length|]; apply IH.
Qed.

(** ** Sequences of insertions *)

Lemma build_from_tuples_built pairs : forall t,
  typed_root t ->
  build_from_tuples (mkQueryServer t) pairs = Ok (mkQueryServer (built t pairs)).
Proof.
  induction pairs as [|[w s] pairs IH]; intros t Ht; simpl; [reflexivity|].
  rewrite insert_inserted by exact Ht. cbn [bind].
  apply IH. now apply inserted_typed_root.
Qed.

Lemma built_typed_root pairs : forall t, typed_root t -> typed_root (built t pairs).
Proof.
  induction pairs as [|[w s] pairs IH]; intros t Ht; simpl; auto.
  apply IH. now apply inserted_typed_root.
Qed.

Lemma built_app pairs1 pairs2 t : built t (pairs1 ++ pairs2) = built (built t pairs1) pairs2.
Proof. revert t; induction pairs1 as [|p pairs1 IH]; intros t; simpl; auto. Qed.

Lemma iter_added_in k w s cs e :
  In e (Nat.iter k (fun cs => added cs w s) cs) -> (e = (s, w) /\ 0 < k) \/ In e cs.
Proof.
  induction k as [|k IH]; simpl; [auto|].
  intros H. apply added_in in H. destruct H as [H|H]; [left; split; [exact H|lia]|].
  destruct (IH H) as [[? ?]|?]; [left; split; [assumption|lia]|now right].
Qed.

Lemma prefix_split a : forall t, String.prefix a t = true -> exists v, t = (a ++ v)%string.
Proof.
  induction a as [|c a IH]; intros t; simpl.
  - intros _. now exists t.
  - destruct t as [|c' t]; [destruct a; discriminate|].
    simpl. destruct (ascii_dec c c') as [->|]; [|discriminate].
    intros H. destruct (IH t H) as [v ->]. now exists v.
Qed.

Lemma prefix_of_app a v : String.prefix a (a ++ v) = true.
Proof. apply prefix_app. Qed.

Lemma reaches_prefix_true a t : reaches a t = true -> String.prefix a t = true.
Proof. destruct a; [discriminate|auto]. Qed.

(** An extra registration of [w] at [a] comes from an occurrence of [a]
    right after a ["_"] in [w]. *)
Lemma suffix_hits_pos a rest :
  0 < suffix_hits a rest -> exists u v, rest = (u ++ "_" ++ a ++ v)%string.
Proof.
  induction rest as [|c rest IH]; simpl; [lia|].
  destruct (Ascii.eqb_spec c "_"%char) as [->|Hc].
  - unfold hits. destruct (reaches a rest) eqn:E.
    + intros _. apply reaches_prefix_true, prefix_split in E as [v ->].
      now exists EmptyString, v.
    + intros H. destruct (IH ltac:(lia)) as (u & v & ->).
      now exists (String "_"%char u), v.
  - intros H. destruct (IH ltac:(lia)) as (u & v & ->).
    now exists (String c u), v.
Qed.

Lemma suffix_hits_occurs a u v :
  a <> EmptyString -> 0 < suffix_hits a (u ++ "_" ++ a ++ v).
Proof.
  intros Ha. induction u as [|c u IH]; simpl in *.
  - unfold hits. rewrite reaches_prefix, prefix_app by exact Ha. lia.
  - lia.
Qed.

Lemma registrations_completes a w : 0 < registrations a w -> completes a w.
Proof.
  unfold registrations, hits, completes. intros H.
  destruct a as [|c a]; [left; apply prefix_nil|].
  destruct (reaches (String c a) w) eqn:E.
  - left. now apply reaches_prefix_true.
  - right. apply suffix_hits_pos. lia.
Qed.

(** A word that starts with [a] is registered once at [a], and once more
    for every ["_"] that [a] follows. *)
Lemma registrations_prefix a w :
  String.prefix a w = true -> registrations a w = 1 + suffix_hits a w.
Proof.
  unfold registrations, hits. intros H.
  destruct a as [|c a]; [reflexivity|].
  rewrite reaches_prefix, H by discriminate. reflexivity.
Qed.

(** Every entry of the node at [a] is a completion of [a]. *)
Lemma built_completes pairs : forall t,
  typed_root t ->
  (forall a e, In e (completions_of (find t a)) -> completes a (snd e)) ->
  forall a e, In e (completions_of (find (built t pairs) a)) -> completes a (snd e).
Proof.
  induction pairs as [|[w s] pairs IH]; intros t Ht Hinv; simpl; [exact Hinv|].
  apply IH; [now apply inserted_typed_root|].
  intros a e. rewrite find_inserted by exact Ht. intros H.
  apply iter_added_in in H. destruct H as [[-> Hk]|H]; [|now apply Hinv].
  now apply registrations_completes.
Qed.

Lemma find_init a : completions_of (find (root QueryServer_init) a) = [].
Proof. destruct a as [|c a]; simpl; [reflexivity|]. now rewrite find_none. Qed.

(** ** Ten entries out of eleven *)

Lemma built_once p pairs : forall t,
  typed_root t ->
  (forall x, In x pairs -> registrations p (fst x) = 1) ->
  completions_of (find (built t pairs) p) = pushed (completions_of (find t p)) pairs.
Proof.
  unfold pushed.
  induction pairs as [|[w s] pairs IH]; intros t Ht H1; simpl; [reflexivity|].
  rewrite IH; [|now apply inserted_typed_root|intros x Hx; apply H1; now right].
  rewrite find_inserted by exact Ht.
  pose proof (H1 (w, s) (or_introl eq_refl)) as R. simpl in R. now rewrite R.
Qed.

(** Up to ten entries, all are kept, in heap order. *)
Lemma pushed_small pairs : forall cs,
  heap_ok cs -> List.length cs + List.length pairs <= 10 ->
  Permutation (pushed cs pairs) (map entry_of pairs ++ cs) /\ heap_ok (pushed cs pairs).
Proof.
  unfold pushed.
  induction pairs as [|[w s] pairs IH]; intros cs Hh Hl; simpl in *; [auto|].
  destruct (added_small cs w s ltac:(lia)) as [P Hh'].
  destruct (IH (added cs w s)) as [P' Hh'']; [auto| |].
  - apply Permutation_length in P. simpl in P. lia.
  - split; [|exact Hh'']. rewrite P', P. unfold entry_of at 2. simpl.
    symmetry. apply Permutation_middle.
Qed.

Lemma pushed_app cs pairs1 pairs2 :
  pushed cs (pairs1 ++ pairs2) = pushed (pushed cs pairs1) pairs2.
Proof. unfold pushed. apply fold_left_app. Qed.

(** The eleventh entry pushes out a smallest one. *)
Lemma pushed_eleven pairs :
  List.length pairs = 11 ->
  exists r, Permutation (r :: pushed [] pairs) (map entry_of pairs) /\
            forall y, In y (map entry_of pairs) -> tuple_lt y r = false.
Proof.
  intros Hl.
  destruct (exists_last (l := pairs)) as (front & [w s] & ->);
    [destruct pairs; [discriminate|congruence]|].
  rewrite length_app in Hl. simpl in Hl.
  destruct (pushed_small front [] heap_ok_nil ltac:(simpl; lia)) as [P Hh].
  rewrite app_nil_r in P.
  rewrite pushed_app. simpl. unfold pushed at 1. simpl.
  destruct (added_full (pushed [] front) w s) as (r & Pr & Hmin).
  { apply Permutation_length in P. rewrite length_map in P. lia. }
  exists r. rewrite map_app. simpl. unfold entry_of at 2. simpl.
  specialize (Hmin Hh).
  assert (Q : Permutation ((s, w) :: pushed [] front) (map entry_of front ++ [(s, w)])).
  { rewrite P. apply Permutation_cons_append. }
  split.
  - now rewrite Pr.
  - intros y Hy. apply Hmin. now apply (Permutation_in _ (Permutation_sym Q)).
Qed.

Lemma suffix_hits_none a t :
  (~ exists u v, t = (u ++ "_" ++ a ++ v)%string) -> suffix_hits a t = 0.
Proof.
  intros H. destruct (suffix_hits a t) eqn:E; [reflexivity|].
  exfalso. apply H, suffix_hits_pos. lia.
Qed.

Lemma suffix_hits_empty t : suffix_hits EmptyString t = 0.
Proof.
  induction t as [|c t IH]; simpl; [reflexivity|].
  rewrite IH. now destruct (Ascii.eqb c "_"%char).
Qed.

(** After the insertion of a word that starts with [p] there is a node
    for [p]. *)
Lemma spath_inserted t w s p :
  typed_root t -> String.prefix p w = true -> spath (inserted t w s) p <> None.
Proof.
  intros Ht Hp. unfold inserted. apply spath_walk_exists; [|exact Hp].
  now apply suffixes_added_typed_root, walk_typed_root, lift_typed_root.
Qed.

(** ** The same word twice *)

Lemma all_same_repeat (x : item) l : (forall y, In y l -> y = x) -> l = repeat x (List.length l).
Proof.
  intros H. apply Forall_eq_repeat. apply Forall_forall.
  intros y Hy. symmetry. now apply H.
Qed.

Lemma iter_added_repeat k w s :
  Nat.iter k (fun cs => added cs w s) [] = repeat (s, w) (Nat.min 10 k).
Proof.
  induction k as [|k IH]; [reflexivity|].
  rewrite Nat.iter_succ, IH.
  rewrite (all_same_repeat (s, w) (added _ w s)).
  - rewrite added_length, repeat_length. f_equal. lia.
  - intros y Hy. apply added_in in Hy. destruct Hy as [Hy|Hy]; [exact Hy|].
    now apply repeat_spec in Hy.
Qed.

Lemma sort_reverse_repeat (x : item) n : sort_reverse (repeat x n) = repeat x n.
Proof.
  rewrite (all_same_repeat x (sort_reverse _)).
  - now rewrite sort_reverse_length, repeat_length.
  - intros y Hy. apply (Permutation_in _ (sort_reverse_perm _)) in Hy.
    now apply repeat_spec in Hy.
Qed.

(** ** [decode] *)

Lemma decode_unfold d toks :
  decode (S d) toks
  = match toks with
    | [] => Raise StopIteration
    | encoded_node :: it =>
        if Py.str_eq encoded_node ":" then Ok (PyNone, it)
        else
          let encoded_node := Py.split_on ","%char encoded_node in
          data <- index encoded_node 0;;
          f1 <- index encoded_node 1;;
          let is_word := Py.str_eq f1 (Py.str_of_bool true) in
          f2 <- index encoded_node 2;;
          score <- Py.int_of_str f2;;
          let node_data := if Py.str_eq data ":" then None else Some data in
          cs <- decode_completions (skipn 3 encoded_node);;
          '(l, it) <- decode d it;;
          '(m, it) <- decode d it;;
          '(r, it) <- decode d it;;
          Ok (mkNode node_data is_word score cs l m r, it)
    end.
Proof. reflexivity. Qed.

Lemma decode_step d toks :
  decode (S d) toks
  = match toks with
    | [] => Raise StopIteration
    | tok :: it =>
        if Py.str_eq tok ":" then Ok (PyNone, it)
        else
          mk <- decode_record tok;;
          '(l, it) <- decode d it;;
          '(m, it) <- decode d it;;
          '(r, it) <- decode d it;;
          Ok (mk l m r, it)
    end.
Proof.
  rewrite decode_unfold. destruct toks as [|tok it]; [reflexivity|].
  destruct (Py.str_eq tok ":"); [reflexivity|].
  unfold decode_record. cbv zeta.
  destruct (index _ 0); [|reflexivity]. cbn [bind].
  destruct (index _ 1); [|reflexivity]. cbn [bind].
  destruct (index _ 2); [|reflexivity]. cbn [bind].
  destruct (Py.int_of_str _); [|reflexivity]. cbn [bind].
  destruct (decode_completions _); reflexivity.
Qed.

Lemma int_of_str_exn f e : Py.int_of_str f = Raise e -> e = ValueError.
Proof.
  unfold Py.int_of_str.
  destruct (match _ with EmptyString => _ | _ => _ end); [discriminate|now intros [= <-]].
Qed.

Lemma decode_completions_exn l e :
  decode_completions l = Raise e -> e = IndexError \/ e = ValueError.
Proof.
  assert (G : forall n l, List.length l <= n -> forall e,
            decode_completions l = Raise e -> e = IndexError \/ e = ValueError).
  { clear. induction n as [|n IH]; intros l Hl e.
    - destruct l; [discriminate|simpl in Hl; lia].
    - destruct l as [|x [|y l]]; cbn [decode_completions]; [discriminate| |].
      + destruct (Py.int_of_str x) eqn:E; cbn [bind]; [intros [= <-]; auto|].
        intros [= <-]. right. eapply int_of_str_exn; eauto.
      + destruct (Py.int_of_str x) eqn:E; cbn [bind].
        * destruct (decode_completions l) eqn:El; cbn [bind]; [discriminate|].
          intros [= <-]. apply (IH l); [simpl in Hl; lia|exact El].
        * intros [= <-]. right. eapply int_of_str_exn; eauto. }
  apply (G (List.length l)). lia.
Qed.

Lemma decode_record_exn tok e :
  decode_record tok = Raise e -> e = IndexError \/ e = ValueError.
Proof.
  unfold decode_record, index.
  destruct (nth_error _ 0); cbn [bind]; [|intros [= <-]; auto].
  destruct (nth_error _ 1); cbn [bind]; [|intros [= <-]; auto].
  destruct (nth_error _ 2); cbn [bind]; [|intros [= <-]; auto].
  destruct (Py.int_of_str _) eqn:E1; cbn [bind];
    [|intros [= <-]; right; eapply int_of_str_exn; eauto].
  destruct (decode_completions _) eqn:E2; cbn [bind]; [discriminate|].
  intros [= <-]. eapply decode_completions_exn; eauto.
Qed.

(** [decode] takes at least one token. *)
Lemma decode_consumes d : forall toks n rest,
  decode d toks = Ok (n, rest) -> List.length rest < List.length toks.
Proof.
  induction d as [|d IH]; intros toks n rest; [discriminate|].
  rewrite decode_step. destruct toks as [|tok it]; [discriminate|].
  destruct (Py.str_eq tok ":"); [intros [= <- <-]; simpl; lia|].
  destruct (decode_record tok); cbn [bind]; [|discriminate].
  destruct (decode d it) as [[l it1]|] eqn:E1; cbn [bind]; [|discriminate].
  destruct (decode d it1) as [[m it2]|] eqn:E2; cbn [bind]; [|discriminate].
  destruct (decode d it2) as [[r it3]|] eqn:E3; cbn [bind]; [|discriminate].
  intros [= <- <-]. apply IH in E1, E2, E3. simpl. lia.
Qed.

(** With more depth than tokens, the depth does not run out. *)
Lemma decode_depth d : forall toks,
  List.length toks < d -> decode d toks <> Raise RecursionError.
Proof.
  induction d as [|d IH]; intros toks Hl; [lia|].
  rewrite decode_step. destruct toks as [|tok it]; [discriminate|].
  destruct (Py.str_eq tok ":"); [discriminate|]. simpl in Hl.
  destruct (decode_record tok) eqn:Er; cbn [bind].
  2:{ apply decode_record_exn in Er. destruct Er; subst; discriminate. }
  destruct (decode d it) as [[l it1]|] eqn:E1; cbn [bind].
  2:{ rewrite <- E1. apply IH. lia. }
  pose proof (decode_consumes _ _ _ _ E1).
  destruct (decode d it1) as [[m it2]|] eqn:E2; cbn [bind].
  2:{ rewrite <- E2. apply IH. lia. }
  pose proof (decode_consumes _ _ _ _ E2).
  destruct (decode d it2) as [[r it3]|] eqn:E3; cbn [bind]; [discriminate|].
  rewrite <- E3. apply IH. lia.
Qed.

(** More depth does not change a result. *)
Lemma decode_deeper d : forall toks res d',
  decode d toks = res -> res <> Raise RecursionError -> d <= d' ->
  decode d' toks = res.
Proof.
  induction d as [|d IH]; intros toks res d' E Hres Hd; [simpl in E; congruence|].
  destruct d' as [|d']; [lia|]. rewrite decode_step in *.
  destruct toks as [|tok it]; [exact E|].
  destruct (Py.str_eq tok ":"); [exact E|].
  destruct (decode_record tok); cbn [bind] in *; [|exact E].
  destruct (decode d it) as [[l it1]|e1] eqn:E1; cbn [bind] in E.
  2:{ rewrite (IH it (Raise e1) d' E1); [exact E|congruence|lia]. }
  rewrite (IH it _ d' E1); [|discriminate|lia]. cbn [bind].
  destruct (decode d it1) as [[m it2]|e2] eqn:E2; cbn [bind] in E.
  2:{ rewrite (IH it1 (Raise e2) d' E2); [exact E|congruence|lia]. }
  rewrite (IH it1 _ d' E2); [|discriminate|lia]. cbn [bind].
  destruct (decode d it2) as [[r it3]|e3] eqn:E3; cbn [bind] in E.
  2:{ rewrite (IH it2 (Raise e3) d' E3); [exact E|congruence|lia]. }
  rewrite (IH it2 _ d' E3); [|discriminate|lia]. exact E.
Qed.

(** Tokens after those of a tree are left alone. *)
Lemma decode_app d : forall toks n rest more,
  decode d toks = Ok (n, rest) -> decode d (toks ++ more) = Ok (n, rest ++ more).
Proof.
  induction d as [|d IH]; intros toks n rest more; [discriminate|].
  rewrite !decode_step. destruct toks as [|tok it]; [discriminate|].
  cbn [List.app]. destruct (Py.str_eq tok ":"); [now intros [= <- <-]|].
  destruct (decode_record tok); cbn [bind]; [|discriminate].
  destruct (decode d it) as [[l it1]|] eqn:E1; cbn [bind]; [|discriminate].
  rewrite (IH _ _ _ more E1). cbn [bind].
  destruct (decode d it1) as [[m it2]|] eqn:E2; cbn [bind]; [|discriminate].
  rewrite (IH _ _ _ more E2). cbn [bind].
  destruct (decode d it2) as [[r it3]|] eqn:E3; cbn [bind]; [|discriminate].
  rewrite (IH _ _ _ more E3). cbn [bind].
  now intros [= <- <-].
Qed.

(** Decoding [front ++ back] either stays within [front], or needs tokens
    of [back]: then [front] alone runs out of tokens. *)
Lemma decode_split d : forall front back n rest,
  decode d (front ++ back) = Ok (n, rest) ->
  (exists rest', rest = rest' ++ back /\ decode d front = Ok (n, rest'))
  \/ decode d front = Raise StopIteration.
Proof.
  induction d as [|d IH]; intros front back n rest; [discriminate|].
  rewrite !decode_step. destruct front as [|tok it]; [now right|].
  cbn [List.app]. destruct (Py.str_eq tok ":"); [intros [= <- <-]; left; eauto|].
  destruct (decode_record tok); cbn [bind]; [|discriminate].
  destruct (decode d (it ++ back)) as [[l it1]|] eqn:E1; cbn [bind]; [|discriminate].
  destruct (IH _ _ _ _ E1) as [(it1' & -> & ->) | -> ]; cbn [bind]; [|now right].
  destruct (decode d (it1' ++ back)) as [[m it2]|] eqn:E2; cbn [bind]; [|discriminate].
  destruct (IH _ _ _ _ E2) as [(it2' & -> & ->) | -> ]; cbn [bind]; [|now right].
  destruct (decode d (it2' ++ back)) as [[r it3]|] eqn:E3; cbn [bind]; [|discriminate].
  destruct (IH _ _ _ _ E3) as [(it3' & -> & ->) | -> ]; cbn [bind]; [|now right].
  intros [= <- <-]. left. eauto.
Qed.

(** When [front] runs out of tokens, decoding goes on into what follows
    it, and fails there if the next token is a record that fails. *)
Lemma decode_reaches d : forall front tok back e,
  decode d front = Raise StopIteration ->
  tok <> ":" -> decode_record tok = Raise e ->
  exists e', decode d (front ++ tok :: back) = Raise e' /\
             (e' = IndexError \/ e' = ValueError).
Proof.
  induction d as [|d IH]; intros front tok back e; [discriminate|].
  rewrite !decode_step. intros Hf Htok He.
  destruct front as [|tok0 it]; cbn [List.app].
  - apply str_eq_false in Htok. rewrite Htok, He. cbn [bind].
    eexists. split; [reflexivity|]. now apply decode_record_exn in He.
  - destruct (Py.str_eq tok0 ":"); [discriminate|].
    destruct (decode_record tok0) eqn:Er; cbn [bind] in *.
    2:{ injection Hf as ->. apply decode_record_exn in Er. destruct Er; discriminate. }
    destruct (decode d it) as [[l it1]|e1] eqn:E1; cbn [bind] in Hf.
    2:{ injection Hf as ->. destruct (IH _ _ back _ E1 Htok He) as (e' & -> & H). cbn [bind]. eauto. }
    rewrite (decode_app _ _ _ _ (tok :: back) E1). cbn [bind].
    destruct (decode d it1) as [[m it2]|e2] eqn:E2; cbn [bind] in Hf.
    2:{ injection Hf as ->. destruct (IH _ _ back _ E2 Htok He) as (e' & -> & H). cbn [bind]. eauto. }
    rewrite (decode_app _ _ _ _ (tok :: back) E2). cbn [bind].
    destruct (decode d it2) as [[r it3]|e3] eqn:E3; cbn [bind] in Hf; [discriminate|].
    injection Hf as ->. destruct (IH _ _ back _ E3 Htok He) as (e' & -> & H). cbn [bind]. eauto.
Qed.

(** ** Malformed records *)

Lemma decode_completions_ok l : forall cs,
  decode_completions l = Ok cs ->
  Nat.even (List.length l) = true /\
  forall j f, Nat.even j = true -> nth_error l j = Some f ->
              exists z, Py.int_of_str f = Ok z.
Proof.
  assert (G : forall n l, List.length l <= n -> forall cs,
            decode_completions l = Ok cs ->
            Nat.even (List.length l) = true /\
            forall j f, Nat.even j = true -> nth_error l j = Some f ->
                        exists z, Py.int_of_str f = Ok z).
  { clear. induction n as [|n IH]; intros l Hl cs.
    - destruct l; [|simpl in Hl; lia]. intros _. split; [reflexivity|].
      intros [|j] f _; discriminate.
    - destruct l as [|x [|y l]]; cbn [decode_completions].
      + intros _. split; [reflexivity|]. intros [|j] f _; discriminate.
      + destruct (Py.int_of_str x); discriminate.
      + destruct (Py.int_of_str x) as [z|] eqn:E; cbn [bind]; [|discriminate].
        destruct (decode_completions l) as [cs'|] eqn:El; cbn [bind]; [|discriminate].
        intros _. destruct (IH l ltac:(simpl in Hl; lia) _ El) as [He Hf].
        split; [exact He|].
        intros [|[|j]] f Hj; cbn [nth_error].
        * intros [= <-]. eauto.
        * discriminate.
        * apply Hf. exact Hj. }
  intros cs. apply (G (List.length l)). lia.
Qed.

Lemma split_on_not_nil sep s : Py.split_on sep s <> [].
Proof.
  destruct s as [|c s]; simpl; [discriminate|].
  destruct (Ascii.eqb c sep); [discriminate|].
  destruct (Py.split_on sep s); discriminate.
Qed.

(** A malformed record makes [decode] raise. *)
Lemma malformed_record_raises tok :
  malformed_record tok -> exists e, decode_record tok = Raise e.
Proof.
  intros [_ H]. unfold decode_record, index.
  destruct (decode_record tok) as [mk|e] eqn:E; [exfalso|unfold decode_record, index in E; eauto].
  unfold decode_record, index in E. unfold bad_field_count, bad_integer in H.
  destruct (Py.split_on ","%char tok) as [|f0 [|f1 [|f2 rest]]]; try discriminate.
  cbn [nth_error bind skipn] in E.
  destruct (Py.int_of_str f2) as [z|] eqn:E2; cbn [bind] in E; [|discriminate].
  destruct (decode_completions rest) as [cs|] eqn:Ec; cbn [bind] in E; [|discriminate].
  destruct (decode_completions_ok _ _ Ec) as [He Hf].
  destruct H as [[H|H]|(i & f & Hi & Hn & Hv)].
  - simpl in H. lia.
  - simpl in H. rewrite Nat.sub_0_r in H. congruence.
  - unfold score_field in Hi.
    destruct i as [|[|[|j]]]; try discriminate.
    + injection Hn as <-. congruence.
    + cbn [nth_error] in Hn. simpl in Hi. rewrite Nat.sub_0_r in Hi.
      destruct (Hf j f Hi Hn) as [z' Hz]. congruence.
Qed.

(** ** [str.split()] *)

Lemma split_ws_aux_space e x :
  Py.split_ws_aux (e ++ String " "%char x)
  = (fst (Py.split_ws_aux e), snd (Py.split_ws_aux e) ++ Py.split_ws x).
Proof.
  induction e as [|c e IH]; cbn [String.append Py.split_ws_aux].
  - unfold Py.split_ws. destruct (Py.split_ws_aux x) as [w ts]. reflexivity.
  - rewrite IH. destruct (Py.split_ws_aux e) as [w ts]. cbn [fst snd].
    destruct (Py.isspace c); [|reflexivity].
    destruct w; reflexivity.
Qed.

(** Tokens separated by a space: those of the left part, then those of
    the right part. *)
Lemma split_ws_space e x :
  Py.split_ws (e ++ " " ++ x) = Py.split_ws e ++ Py.split_ws x.
Proof.
  unfold Py.split_ws at 1 2. cbn [String.append]. rewrite split_ws_aux_space.
  destruct (Py.split_ws_aux e) as [w ts]. cbn [fst snd]. now destruct w.
Qed.

(** ** Integers as strings *)

Lemma digits_string_of_uint u : Py.digits true (NilEmpty.string_of_uint u) = Some u.
Proof. induction u; simpl; try rewrite IHu; reflexivity. Qed.

Lemma digits_string_of_uint_first u :
  u <> Nil -> Py.digits false (NilEmpty.string_of_uint u) = Some u.
Proof.
  destruct u; [congruence|..]; intros _; simpl; now rewrite digits_string_of_uint.
Qed.

Lemma rstrip_string_of_uint u :
  Py.rstrip (NilEmpty.string_of_uint u) = NilEmpty.string_of_uint u.
Proof.
  induction u; cbn [NilEmpty.string_of_uint Py.rstrip]; [reflexivity|..];
    rewrite IHu; destruct (NilEmpty.string_of_uint u); reflexivity.
Qed.

Lemma lstrip_string_of_uint u :
  Py.lstrip (NilEmpty.string_of_uint u) = NilEmpty.string_of_uint u.
Proof. destruct u; reflexivity. Qed.

Lemma int_of_str_digits u :
  u <> Nil -> Py.int_of_str (NilEmpty.string_of_uint u) = Ok (Z.of_int (Pos u)).
Proof.
  intros Hu. unfold Py.int_of_str.
  rewrite lstrip_string_of_uint, rstrip_string_of_uint.
  pose proof (digits_string_of_uint_first u Hu) as D.
  destruct u; [congruence|..]; cbn [NilEmpty.string_of_uint] in *; now rewrite D.
Qed.

Lemma int_of_str_minus_digits u :
  u <> Nil -> Py.int_of_str (String "-"%char (NilEmpty.string_of_uint u)) = Ok (Z.of_int (Neg u)).
Proof.
  intros Hu. unfold Py.int_of_str.
  assert (E : Py.rstrip (Py.lstrip (String "-"%char (NilEmpty.string_of_uint u)))
              = String "-"%char (NilEmpty.string_of_uint u)).
  { cbn [Py.lstrip]. change (Py.int_space "-"%char) with false. cbn iota.
    cbn [Py.rstrip]. rewrite rstrip_string_of_uint.
    destruct u; [congruence|..]; reflexivity. }
  rewrite E. now rewrite (digits_string_of_uint_first u Hu).
Qed.

(** [int(str(z)) == z]. *)
Lemma int_of_str_of_int z : Py.int_of_str (Py.str_of_int z) = Ok z.
Proof.
  unfold Py.str_of_int. rewrite <- (DecimalZ.of_to z) at 2.
  destruct z as [|p|p]; cbn [Z.to_int NilZero.string_of_int]; [reflexivity| |].
  - pose proof (Unsigned.to_uint_nonnil p) as Hp.
    unfold NilZero.string_of_uint.
    destruct (Pos.to_uint p) eqn:E; [congruence|..]; rewrite <- E;
      apply int_of_str_digits; congruence.
  - pose proof (Unsigned.to_uint_nonnil p) as Hp.
    unfold NilZero.string_of_uint.
    destruct (Pos.to_uint p) eqn:E; [congruence|..]; rewrite <- E;
      apply int_of_str_minus_digits; congruence.
Qed.

Lemma plain_string_of_uint u : plain (NilEmpty.string_of_uint u) = true.
Proof. induction u; simpl; auto. Qed.

Lemma plain_str_of_int z : plain (Py.str_of_int z) = true.
Proof.
  unfold Py.str_of_int.
  destruct z as [|p|p]; cbn [Z.to_int NilZero.string_of_int]; [reflexivity| |];
    unfold NilZero.string_of_uint; destruct (Pos.to_uint p) eqn:E; try reflexivity;
    rewrite <- E; simpl; apply plain_string_of_uint.
Qed.

Lemma str_of_int_not_empty z : Py.str_of_int z <> EmptyString.
Proof.
  unfold Py.str_of_int.
  destruct z as [|p|p]; cbn [Z.to_int NilZero.string_of_int]; try discriminate.
  pose proof (Unsigned.to_uint_nonnil p) as Hp.
  unfold NilZero.string_of_uint. destruct (Pos.to_uint p); try congruence; discriminate.
Qed.

Lemma plain_str_of_bool b : plain (Py.str_of_bool b) = true.
Proof. now destruct b. Qed.

Lemma str_of_bool_true b : Py.str_eq (Py.str_of_bool b) (Py.str_of_bool true) = b.
Proof. now destruct b. Qed.

(** ** Splitting what was joined *)

Lemma join_cons sep x xs :
  xs <> [] -> Py.join sep (x :: xs) = (x ++ sep ++ Py.join sep xs)%string.
Proof. destruct xs; [congruence|reflexivity]. Qed.

Lemma plain_app a b : plain (a ++ b) = plain a && plain b.
Proof. induction a as [|c a IH]; simpl; [reflexivity|]. now rewrite IH, andb_assoc. Qed.

Lemma plain_char_not_comma c : plain_char c = true -> Ascii.eqb c ","%char = false.
Proof. unfold plain_char. destruct (Ascii.eqb c ","%char); [discriminate|reflexivity]. Qed.

Lemma plain_char_not_space c : plain_char c = true -> Py.isspace c = false.
Proof.
  unfold plain_char. destruct (Py.isspace c); [|reflexivity].
  now rewrite andb_false_r.
Qed.

Lemma split_on_plain f : plain f = true -> Py.split_on ","%char f = [f].
Proof.
  induction f as [|c f IH]; simpl; [reflexivity|].
  intros H. apply andb_prop in H as [Hc Hf].
  now rewrite (plain_char_not_comma c Hc), (IH Hf).
Qed.

Lemma split_on_app_plain f rest :
  plain f = true ->
  Py.split_on ","%char (f ++ String ","%char rest) = f :: Py.split_on ","%char rest.
Proof.
  induction f as [|c f IH]; simpl; [reflexivity|].
  intros H. apply andb_prop in H as [Hc Hf].
  now rewrite (plain_char_not_comma c Hc), (IH Hf).
Qed.

(** The fields of the entries written by [serialize], when there is at
    least one entry. *)
Lemma split_on_entries cs :
  cs <> [] -> Forall (fun e => plain (snd e) = true) cs ->
  Py.split_on ","%char (Py.join "," (map encode_pair cs)) = fields_of cs.
Proof.
  induction cs as [|e cs IH]; [congruence|]. intros _ Hp.
  inversion Hp as [|? ? He Hcs]; subst.
  unfold fields_of. destruct cs as [|e2 cs].
  - cbn [map Py.join flat_map List.app]. unfold encode_pair. cbn [String.append].
    rewrite split_on_app_plain by apply plain_str_of_int.
    now rewrite split_on_plain.
  - specialize (IH ltac:(discriminate) Hcs).
    remember (e2 :: cs) as cs2. cbn [map flat_map List.app].
    rewrite join_cons by (subst; discriminate).
    unfold encode_pair at 1. rewrite str_app_assoc. cbn [String.append].
    rewrite split_on_app_plain by apply plain_str_of_int.
    rewrite split_on_app_plain by exact He.
    now rewrite IH.
Qed.

Lemma decode_completions_fields cs : decode_completions (fields_of cs) = Ok cs.
Proof.
  induction cs as [|[s t] cs IH]; [reflexivity|].
  unfold fields_of in *. cbn [flat_map List.app fst snd decode_completions].
  rewrite int_of_str_of_int. cbn [bind]. now rewrite IH.
Qed.

Lemma spaceless_app a b : spaceless (a ++ b) = spaceless a && spaceless b.
Proof. induction a as [|c a IH]; simpl; [reflexivity|]. now rewrite IH, andb_assoc. Qed.

Lemma plain_spaceless s : plain s = true -> spaceless s = true.
Proof.
  induction s as [|c s IH]; simpl; [reflexivity|].
  intros H. apply andb_prop in H as [Hc Hs].
  now rewrite (plain_char_not_space c Hc), (IH Hs).
Qed.

(** A token without white space is one run of characters for [split()]. *)
Lemma split_ws_aux_spaceless t : spaceless t = true -> Py.split_ws_aux t = (t, []).
Proof.
  induction t as [|c t IH]; simpl; [reflexivity|].
  intros H. apply andb_prop in H as [Hc Ht].
  rewrite (IH Ht). now destruct (Py.isspace c).
Qed.

Lemma split_ws_join toks :
  Forall (fun t => t <> EmptyString /\ spaceless t = true) toks ->
  Py.split_ws (Py.join " " toks) = toks.
Proof.
  induction toks as [|t toks IH]; [reflexivity|].
  intros H. inversion H as [|? ? [Hne Hp] Ht]; subst.
  destruct toks as [|t2 toks].
  - cbn [Py.join]. unfold Py.split_ws. rewrite split_ws_aux_spaceless by exact Hp.
    now destruct t.
  - rewrite join_cons by discriminate.
    rewrite split_ws_space, IH by exact Ht.
    unfold Py.split_ws. rewrite split_ws_aux_spaceless by exact Hp.
    now destruct t.
Qed.

(** ** [decode] after [encode] *)

Lemma encode_node_data d :
  match decoded_data d with
  | Some (String c x) => String c x
  | _ => ":"
  end
  = match d with
    | Some (String c x) => String c x
    | _ => ":"
    end.
Proof.
  destruct d as [[|c x]|]; cbn [decoded_data]; try reflexivity.
  destruct (Py.str_eq (String c x) ":") eqn:E; [|reflexivity].
  apply str_eq_true in E. now rewrite E.
Qed.

Lemma encode_decoded n : encode (decoded n) = encode n.
Proof.
  induction n as [|d w s cs l IHl m IHm r IHr]; simpl; [reflexivity|].
  rewrite IHl, IHm, IHr. unfold encode_node. now rewrite encode_node_data.
Qed.

(** The record of a node with entries, read back. *)
Lemma decode_record_encode_node d w s cs :
  node_encodable d cs ->
  decode_record (encode_node d w s cs) = Ok (mkNode (decoded_data d) w s cs) /\
  Py.str_eq (encode_node d w s cs) ":" = false /\
  encode_node d w s cs <> EmptyString /\ spaceless (encode_node d w s cs) = true.
Proof.
  intros (Hp & Hne & Hd). unfold encode_node.
  set (ds := match d with Some (String c x) => String c x | _ => ":" end).
  assert (Hds : plain ds = true /\ ds <> EmptyString /\
                (if Py.str_eq ds ":" then None else Some ds) = decoded_data d).
  { subst ds. destruct d as [[|c x]|]; cbn [decoded_data].
    - destruct Hd as [H _]. congruence.
    - destruct Hd as (_ & H). split; [exact H|]. split; [discriminate|reflexivity].
    - repeat split. discriminate. }
  destruct Hds as (Hds1 & Hds2 & Hds3).
  split; [|split; [|split]].
  - unfold decode_record. cbn [String.append].
    rewrite split_on_app_plain by exact Hds1.
    rewrite split_on_app_plain by apply plain_str_of_bool.
    rewrite split_on_app_plain by apply plain_str_of_int.
    rewrite split_on_entries by assumption.
    cbn [index nth_error bind skipn].
    rewrite int_of_str_of_int. cbn [bind].
    rewrite decode_completions_fields. cbn [bind].
    now rewrite str_of_bool_true, Hds3.
  - apply str_eq_false. intros E.
    destruct ds as [|c ds]; [congruence|]. cbn [String.append] in E.
    injection E as _ E. destruct ds; discriminate.
  - destruct ds; [congruence|discriminate].
  - rewrite !spaceless_app. cbn [spaceless String.append].
    rewrite (plain_spaceless _ Hds1), (plain_spaceless _ (plain_str_of_bool w)),
      (plain_spaceless _ (plain_str_of_int s)).
    change (Py.isspace ","%char) with false. cbn [negb andb].
    clear -Hp Hne. induction cs as [|e cs IH]; [reflexivity|].
    inversion Hp as [|? ? He Hcs]; subst.
    destruct cs as [|e2 cs].
    + cbn [map Py.join]. unfold encode_pair. rewrite spaceless_app.
      cbn [spaceless String.append]. change (Py.isspace ","%char) with false.
      now rewrite (plain_spaceless _ (plain_str_of_int _)), (plain_spaceless _ He).
    + cbn [map]. rewrite join_cons by discriminate.
      rewrite !spaceless_app. cbn [spaceless String.append].
      change (Py.isspace ","%char) with false. cbn [negb andb].
      unfold encode_pair at 1. rewrite spaceless_app.
      cbn [spaceless String.append]. change (Py.isspace ","%char) with false.
      rewrite (plain_spaceless _ (plain_str_of_int _)), (plain_spaceless _ He).
      cbn [negb andb]. apply IH; [exact Hcs|discriminate].
Qed.

(** The tokens of a tree are read back as the tree, and what follows them
    is left. *)
Lemma decode_encode n : forall rest,
  all_nodes node_encodable n ->
  decode (S (List.length (encode n))) (encode n ++ rest) = Ok (decoded n, rest).
Proof.
  induction n as [|d w s cs l IHl m IHm r IHr]; intros rest; [reflexivity|].
  intros (Hn & Hl & Hm & Hr). cbn [encode decoded].
  destruct (decode_record_encode_node d w s cs Hn) as (Hrec & Hcolon & _).
  rewrite decode_step. cbn [List.app]. rewrite Hcolon, Hrec. cbn [bind].
  cbn [List.length]. rewrite !length_app, <- !app_assoc.
  rewrite (decode_deeper _ _ _ _ (IHl _ Hl)); [|discriminate|lia]. cbn [bind].
  rewrite (decode_deeper _ _ _ _ (IHm _ Hm)); [|discriminate|lia]. cbn [bind].
  rewrite (decode_deeper _ _ _ _ (IHr _ Hr)); [|discriminate|lia]. reflexivity.
Qed.

Lemma encode_tokens n :
  all_nodes node_encodable n ->
  Forall (fun t => t <> EmptyString /\ spaceless t = true) (encode n).
Proof.
  induction n as [|d w s cs l IHl m IHm r IHr]; cbn [encode all_nodes].
  - intros _. constructor; [|constructor]. split; [discriminate|reflexivity].
  - intros (Hn & Hl & Hm & Hr).
    destruct (decode_record_encode_node d w s cs Hn) as (_ & _ & H1 & H2).
    constructor; [now split|].
    apply Forall_app. split; [auto|]. apply Forall_app. auto.
Qed.

(** [deserialize] of [serialize] of a tree that can be encoded. *)
Lemma deserialize_serialize self t :
  all_nodes node_encodable t ->
  deserialize self (serialize (mkQueryServer t)) = (mkQueryServer (decoded t), None).
Proof.
  intros Ht. unfold deserialize, serialize. cbn [root].
  rewrite split_ws_join by now apply encode_tokens.
  pose proof (decode_encode t [] Ht) as D. rewrite app_nil_r in D.
  now rewrite D.
Qed.

(** ** Insertions of plain words *)

Lemma all_nodes_deref P t q : all_nodes P t -> all_nodes P (deref t q).
Proof.
  revert t; induction q as [|b q IH]; intros t H; simpl; [exact H|].
  apply IH. destruct t as [|d w s cs l m r]; [exact I|].
  destruct H as (_ & Hl & Hm & Hr). now destruct b.
Qed.

Lemma all_nodes_plug P t q x t' :
  plug t q x = Ok t' -> all_nodes P t -> all_nodes P x -> all_nodes P t'.
Proof.
  unfold plug. revert t t'; induction q as [|b q IH]; intros t t'; simpl.
  - now intros [= <-].
  - destruct t as [|d w s cs l m r]; [discriminate|].
    intros H (Hn & Hl & Hm & Hr) Hx.
    destruct b; destruct (update _ q _) as [y|] eqn:E; simpl in H; try discriminate;
      injection H as <-; simpl; repeat split; auto; eapply IH; eauto.
Qed.

Lemma all_nodes_bmod_const P b c x :
  all_nodes P b -> all_nodes P x -> all_nodes P (bmod b c (fun _ => x)).
Proof.
  intros Hb Hx. induction b as [|d w s cs l IHl m _ r IHr]; simpl; [exact Hx|].
  destruct Hb as (Hn & Hl & Hm & Hr). destruct d as [y|]; [|simpl; auto].
  destruct (Py.str_eq y c); [exact Hx|].
  destruct (Py.str_lt y c); simpl; auto.
Qed.

Lemma added_not_nil cs w s : added cs w s <> [].
Proof.
  intros E. pose proof (added_length cs w s) as L. rewrite E in L.
  change (List.length (@nil item)) with 0 in L. lia.
Qed.

Lemma node_plain_added d cs w s :
  plain w = true -> node_plain d cs -> node_plain d (added cs w s).
Proof.
  intros Hw (Hp & Hd). split.
  - apply Forall_forall. intros e He. apply added_in in He as [->|He]; [exact Hw|].
    now apply (proj1 (Forall_forall _ _) Hp).
  - destruct d as [x|]; [|exact I]. destruct Hd as (H1 & H2 & _).
    repeat split; auto. apply added_not_nil.
Qed.

Lemma all_nodes_lift_padd w s n :
  plain w = true -> all_nodes node_plain n -> all_nodes node_plain (lift (padd w s) n).
Proof.
  intros Hw. destruct n as [|d w0 s0 cs l m r]; simpl; [auto|].
  intros (Hn & Hl & Hm & Hr). repeat split; auto.
  - apply (node_plain_added d cs w s Hw Hn).
  - destruct d; [|exact I]. destruct Hn as (_ & H1 & H2 & _).
    repeat split; auto. apply added_not_nil.
Qed.

Lemma all_nodes_lift_pmark s n :
  all_nodes node_plain n -> all_nodes node_plain (lift (pmark s) n).
Proof. destruct n as [|d w0 s0 cs l m r]; simpl; auto. Qed.

(** The walk of [insert_completion] along a plain string. *)
Lemma all_nodes_walk_add w s a : forall n,
  plain w = true -> plain a = true -> typed_root n ->
  all_nodes node_plain n ->
  all_nodes node_plain (walk n a (lift (padd w s)) (lift (fun p => p))).
Proof.
  induction a as [|c a IH]; intros n Hw Ha Hn Hall.
  - cbn [walk]. now rewrite lift_id.
  - destruct n as [|d w0 s0 cs l m r]; [contradiction|]. simpl in Hn.
    cbn [plain] in Ha. apply andb_prop in Ha as [Hc Ha].
    destruct Hall as (Hd & Hl & Hm & Hr). cbn [walk all_nodes].
    split; [exact Hd|]. split; [exact Hl|]. split; [|exact Hr].
    rewrite (bmod_bnode m (String c EmptyString)
      (fun x => walk (lift (padd w s) x) a (lift (padd w s)) (lift (fun p => p))) Hn).
    apply all_nodes_bmod_const; [exact Hm|].
    destruct (bnode_typed_root m (String c EmptyString) Hn)
      as (w1 & s1 & cs1 & l1 & mm & r1 & Eb & _ & Hmm & _).
    apply IH; auto.
    + apply lift_typed_root. rewrite Eb. exact Hmm.
    + unfold bnode in *. destruct (bpath m (String c EmptyString)) as [q|].
      * apply all_nodes_lift_padd; [exact Hw|]. now apply all_nodes_deref.
      * unfold Node_init. cbn [lift padd fst snd all_nodes]. repeat split; auto.
        -- apply Forall_forall. intros e He.
           apply added_in in He as [->|He]; [exact Hw|contradiction].
        -- discriminate.
        -- cbn [plain]. now rewrite Hc.
        -- apply added_not_nil.
Qed.

Lemma plain_suffix c a : plain (String c a) = true -> plain a = true.
Proof. cbn [plain]. intros H. now apply andb_prop in H. Qed.

Lemma all_nodes_suffixes_added w s rest : forall t,
  plain w = true -> plain rest = true -> typed_root t ->
  all_nodes node_plain t -> all_nodes node_plain (suffixes_added t rest w s).
Proof.
  induction rest as [|c rest IH]; intros t Hw Hr Ht Hall; cbn [suffixes_added]; [exact Hall|].
  pose proof (plain_suffix _ _ Hr) as Hr'.
  destruct (Ascii.eqb c "_"%char); apply IH; auto.
  - now apply walk_typed_root.
  - now apply all_nodes_walk_add.
Qed.

(** The node of [w] is there when the loop of [insert] has run. *)
Lemma spath_before_mark t w s :
  typed_root t ->
  exists q,
    spath (suffixes_added
             (walk (lift (padd w s) t) w (lift (padd w s)) (lift (fun p => p))) w w s) w
    = Some q.
Proof.
  intros Ht.
  set (t2 := walk (lift (padd w s) t) w (lift (padd w s)) (lift (fun p => p))).
  assert (Ht2 : typed_root t2) by (apply walk_typed_root; now apply lift_typed_root).
  destruct (spath t2 w) as [q|] eqn:Eq.
  - exists q. now apply suffixes_added_stable.
  - exfalso. revert Eq. apply spath_walk_exists; [now apply lift_typed_root|apply prefix_refl].
Qed.

Lemma inserted_plain t w s :
  plain w = true -> typed_root t -> all_nodes node_plain t ->
  all_nodes node_plain (inserted t w s).
Proof.
  intros Hw Ht Hall. unfold inserted.
  destruct (spath_before_mark t w s Ht) as [q Hq].
  set (t3 := suffixes_added _ w w s) in *.
  assert (Ht1 : typed_root (lift (padd w s) t)) by now apply lift_typed_root.
  assert (Ht3 : typed_root t3)
    by (apply suffixes_added_typed_root; now apply walk_typed_root).
  assert (H3 : all_nodes node_plain t3).
  { apply all_nodes_suffixes_added; auto; [now apply walk_typed_root|].
    apply all_nodes_walk_add; auto. now apply all_nodes_lift_padd. }
  pose proof (plug_spath_walk w (pmark s) t3 q Ht3 Hq) as P.
  apply (all_nodes_plug _ _ _ _ _ P H3).
  apply all_nodes_lift_pmark. now apply all_nodes_deref.
Qed.

Lemma inserted_root_bare t w s : root_bare t -> root_bare (inserted t w s).
Proof.
  assert (L : forall E n, root_bare n -> root_bare (lift E n)).
  { intros E [|d w0 s0 cs [|] m [|]]; simpl; try tauto.
    now destruct (E (w0, s0, cs)) as [[? ?] ?]. }
  assert (W : forall a E F n, root_bare n -> root_bare (walk n a (lift E) (lift F))).
  { intros [|c a] E F n Hn; cbn [walk]; [now apply L|].
    destruct n as [|d w0 s0 cs [|] m [|]]; simpl in *; tauto. }
  assert (S : forall rest n, root_bare n -> root_bare (suffixes_added n rest w s)).
  { induction rest as [|c rest IH]; intros n Hn; cbn [suffixes_added]; [exact Hn|].
    apply IH. destruct (Ascii.eqb c "_"%char); [now apply W|exact Hn]. }
  intros Ht. unfold inserted. now apply W, S, W, L.
Qed.

Lemma inserted_root_entries t w s :
  typed_root t -> completions_of (inserted t w s) <> [].
Proof.
  intros Ht. pose proof (find_inserted t w s EmptyString Ht) as F.
  cbn [find] in F. rewrite F. unfold registrations, hits. cbn [reaches].
  rewrite suffix_hits_empty. simpl. apply added_not_nil.
Qed.

(** After at least one insertion of plain words, the tree can be
    encoded. *)
Lemma built_plain pairs : forall t,
  (forall x, In x pairs -> plain (fst x) = true) ->
  typed_root t -> root_bare t -> all_nodes node_plain t ->
  all_nodes node_plain (built t pairs) /\ root_bare (built t pairs) /\
  (pairs <> [] \/ completions_of t <> [] -> completions_of (built t pairs) <> []).
Proof.
  induction pairs as [|[w s] pairs IH]; intros t Hp Ht Hb Hall; cbn [built].
  - repeat split; auto. intros [H|H]; [congruence|exact H].
  - destruct (IH (inserted t w s)) as (H1 & H2 & H3).
    + intros x Hx. apply Hp. now right.
    + now apply inserted_typed_root.
    + now apply inserted_root_bare.
    + apply inserted_plain; auto. apply (Hp (w, s)). now left.
    + repeat split; auto. intros _. apply H3. right.
      now apply inserted_root_entries.
Qed.

Lemma plain_encodable n : typed n -> all_nodes node_plain n -> all_nodes node_encodable n.
Proof.
  induction n as [|d w s cs l IHl m IHm r IHr]; simpl; [auto|].
  intros (Hd & Hl & Hm & Hr) ((Hp & Hx) & Al & Am & Ar).
  repeat split; auto; destruct d as [x|]; try congruence; tauto.
Qed.

Lemma root_encodable t :
  typed_root t -> root_bare t -> all_nodes node_plain t -> completions_of t <> [] ->
  all_nodes node_encodable t.
Proof.
  destruct t as [|d w s cs [|] m [|]]; simpl; try tauto.
  intros Hm _ ((Hp & Hx) & _ & Am & _) Hcs.
  repeat split; auto; [|now apply plain_encodable].
  destruct d as [x|]; [tauto|exact I].
Qed.

(** ** The highest entries, without queries *)

Lemma top_of_perm cs R R' : Permutation R R' -> top_of cs R -> top_of cs R'.
Proof.
  intros P (Hh & Hl & dropped & Hp & Hd). split; [exact Hh|]. split.
  - now rewrite <- (Permutation_length P).
  - exists dropped. split; [now rewrite Hp|exact Hd].
Qed.

Lemma top_of_nil : top_of [] [].
Proof.
  split; [apply heap_ok_nil|]. split; [reflexivity|].
  exists []. split; [constructor|intros e y []].
Qed.

Lemma top_of_iter k w s cs R :
  top_of cs R -> top_of (Nat.iter k (fun cs => added cs w s) cs) (repeat (s, w) k ++ R).
Proof.
  intros H. induction k as [|k IH]; [exact H|].
  rewrite Nat.iter_succ. cbn [repeat List.app]. now apply top_of_added.
Qed.

Lemma built_top a pairs : forall t R,
  typed_root t -> top_of (completions_of (find t a)) R ->
  top_of (completions_of (find (built t pairs) a)) (registered a pairs ++ R).
Proof.
  induction pairs as [|[w s] pairs IH]; intros t R Ht H; [exact H|].
  cbn [built fst snd]. unfold registered. cbn [flat_map fst].
  fold (registered a pairs).
  apply (top_of_perm _ (registered a pairs ++ repeat (s, w) (registrations a w) ++ R)).
  - rewrite <- app_assoc. rewrite !app_assoc. apply Permutation_app_tail.
    apply Permutation_app_comm.
  - apply IH; [now apply inserted_typed_root|].
    rewrite find_inserted by exact Ht. now apply top_of_iter.
Qed.

(** Without queries the top ten are kept: after any sequence of
    insertions into a new server, the node of [a] holds, in heap order, the
    ten highest of the entries registered there, or all of them when they
    are fewer. *)
Theorem top_ten_without_queries (pairs : list (string * Z)) (a : string) :
  exists self,
    build_from_tuples QueryServer_init pairs = Ok self /\
    top_of (completions_at self a) (registered a pairs).
Proof.
  assert (H0 : typed_root (root QueryServer_init)) by exact I.
  eexists. split; [apply (build_from_tuples_built pairs _ H0)|].
  rewrite completions_at_find by now apply built_typed_root.
  rewrite <- (app_nil_r (registered a pairs)).
  apply built_top; [exact H0|]. rewrite find_init. apply top_of_nil.
Qed.

(** ** The word marks *)

Lemma word_at_find t a :
  typed_root t ->
  word_at (mkQueryServer t) a
  = if is_word_of (find t a) then Some (score_of (find t a)) else None.
Proof.
  intros Ht. unfold word_at, is_word_of, score_of.
  rewrite search_spath by exact Ht. rewrite (find_spath a t Ht). cbn [root].
  now destruct (spath t a).
Qed.

Lemma fst_padd w s x : fst (padd w s x) = fst x.
Proof. now destruct x as [[? ?] ?]. Qed.

Lemma marks_suffixes_added w s a rest : forall t,
  typed_root t ->
  fst (payload_of (find (suffixes_added t rest w s) a)) = fst (payload_of (find t a)).
Proof.
  induction rest as [|c rest IH]; intros t Ht; cbn [suffixes_added]; [reflexivity|].
  destruct (Ascii.eqb c "_"%char); [|now apply IH].
  rewrite IH by now apply walk_typed_root.
  rewrite find_walk by exact Ht.
  destruct (String.eqb a rest), (reaches a rest); now rewrite ?fst_padd.
Qed.

Lemma marks_inserted t w s a :
  typed_root t ->
  fst (payload_of (find (inserted t w s) a))
  = if String.eqb a w then (true, s) else fst (payload_of (find t a)).
Proof.
  intros Ht. unfold inserted.
  assert (H1 : typed_root (lift (padd w s) t)) by now apply lift_typed_root.
  assert (H2 : typed_root (walk (lift (padd w s) t) w (lift (padd w s)) (lift (fun p => p))))
    by now apply walk_typed_root.
  rewrite (find_walk w (fun p => p) (pmark s)) by now apply suffixes_added_typed_root.
  assert (E : fst (payload_of (find (suffixes_added
              (walk (lift (padd w s) t) w (lift (padd w s)) (lift (fun p => p))) w w s) a))
              = fst (payload_of (find t a))).
  { rewrite marks_suffixes_added by exact H2.
    rewrite find_walk by exact H1.
    assert (F : fst (payload_of (find (lift (padd w s) t) a)) = fst (payload_of (find t a))).
    { destruct a as [|c a]; [|now rewrite find_lift].
      cbn [find]. rewrite payload_of_lift by now apply typed_root_not_none.
      apply fst_padd. }
    destruct (String.eqb a w), (reaches a w); rewrite ?fst_padd; exact F. }
  destruct (String.eqb a w); [reflexivity|].
  destruct (reaches a w); exact E.
Qed.

(** ** Sorted lists of entries *)

Lemma sorted_perm_eq l1 : forall l2,
  StronglySorted before l1 -> StronglySorted before l2 ->
  Permutation l1 l2 -> l1 = l2.
Proof.
  induction l1 as [|x l1 IH]; intros l2 S1 S2 P.
  - apply Permutation_nil in P. now subst.
  - destruct l2 as [|y l2]; [apply Permutation_sym, Permutation_nil in P; discriminate|].
    apply StronglySorted_inv in S1 as [S1 F1]. apply StronglySorted_inv in S2 as [S2 F2].
    assert (E : x = y).
    { assert (Hx : In x (y :: l2)) by (apply (Permutation_in _ P); now left).
      assert (Hy : In y (x :: l1))
        by (apply (Permutation_in _ (Permutation_sym P)); now left).
      destruct Hx as [<-|Hx]; [reflexivity|]. destruct Hy as [->|Hy]; [reflexivity|].
      apply tuple_lt_total; apply before_iff.
      - apply (proj1 (Forall_forall _ _) F1 _ Hy).
      - apply (proj1 (Forall_forall _ _) F2 _ Hx). }
    subst y. f_equal. apply IH; auto. now apply Permutation_cons_inv in P.
Qed.

Lemma sort_reverse_perm_eq l1 l2 :
  Permutation l1 l2 -> sort_reverse l1 = sort_reverse l2.
Proof.
  intros P. apply sorted_perm_eq; try apply sort_reverse_sorted.
  rewrite (sort_reverse_perm l1), P. symmetry. apply sort_reverse_perm.
Qed.

Lemma sort_reverse_sorted_id l : StronglySorted before l -> sort_reverse l = l.
Proof.
  intros S. apply sorted_perm_eq; [apply sort_reverse_sorted|exact S|apply sort_reverse_perm].
Qed.

Lemma sort_reverse_idem l : sort_reverse (sort_reverse l) = sort_reverse l.
Proof. apply sort_reverse_sorted_id, sort_reverse_sorted. Qed.

Lemma sorted_app l1 : forall l2,
  StronglySorted before l1 -> StronglySorted before l2 ->
  (forall x y, In x l1 -> In y l2 -> before x y) ->
  StronglySorted before (l1 ++ l2).
Proof.
  induction l1 as [|x l1 IH]; intros l2 S1 S2 H; [exact S2|].
  apply StronglySorted_inv in S1 as [S1 F1]. cbn [List.app]. constructor.
  - apply IH; auto. intros a b Ha Hb. apply H; [now right|exact Hb].
  - apply Forall_app. split; [exact F1|].
    apply Forall_forall. intros y Hy. apply H; [now left|exact Hy].
Qed.

(** The list that holds the highest entries, sorted, is the start of the
    sorted list of all the entries. *)
Lemma top_of_sorted cs R : top_of cs R -> sort_reverse cs = firstn 10 (sort_reverse R).
Proof.
  intros (_ & Hl & dropped & P & Hd).
  assert (E : sort_reverse R = sort_reverse cs ++ sort_reverse dropped).
  { apply sorted_perm_eq; [apply sort_reverse_sorted| |].
    - apply sorted_app; try apply sort_reverse_sorted.
      intros x y Hx Hy. apply before_iff. apply Hd.
      + apply (Permutation_in _ (sort_reverse_perm _) Hy).
      + apply (Permutation_in _ (sort_reverse_perm _) Hx).
    - rewrite (sort_reverse_perm R), <- P.
      apply Permutation_sym, Permutation_app; apply sort_reverse_perm. }
  rewrite E. pose proof (Permutation_length P) as L. rewrite length_app in L.
  rewrite firstn_app, sort_reverse_length.
  rewrite (firstn_all2 (n := 10)) by (rewrite sort_reverse_length; lia).
  destruct (Nat.le_gt_cases (List.length R) 10) as [H|H].
  - assert (D : dropped = []) by (apply length_zero_iff_nil; lia).
    rewrite D. cbn [sort_reverse fold_right]. now rewrite firstn_nil, app_nil_r.
  - replace (10 - List.length cs) with 0 by lia. now rewrite firstn_O, app_nil_r.
Qed.

(** ** What a query returns *)

Lemma get_completions_built pairs p :
  get_completions (mkQueryServer (built (root QueryServer_init) pairs)) p
  = Ok (map snd (firstn 10 (sort_reverse (registered p pairs))),
        mkQueryServer (queried (built (root QueryServer_init) pairs) p)).
Proof.
  assert (H0 : typed_root (root QueryServer_init)) by exact I.
  rewrite get_completions_queried by now apply built_typed_root.
  do 3 f_equal. apply top_of_sorted.
  rewrite <- (app_nil_r (registered p pairs)).
  apply built_top; [exact H0|]. rewrite find_init. apply top_of_nil.
Qed.

Lemma registered_perm a pairs pairs' :
  Permutation pairs pairs' -> Permutation (registered a pairs) (registered a pairs').
Proof. intros P. unfold registered. now apply Permutation_flat_map. Qed.

Lemma completes_registrations a w : completes a w -> 0 < registrations a w.
Proof.
  unfold registrations. destruct a as [|c a]; [lia|].
  intros [H|(u & v & ->)].
  - unfold hits. rewrite reaches_prefix by discriminate. rewrite H. lia.
  - pose proof (suffix_hits_occurs (String c a) u v). cbn zeta in *.
    assert (String c a <> EmptyString) by discriminate. intuition lia.
Qed.

Lemma registered_nil a pairs :
  registered a pairs = [] <-> forall x, In x pairs -> ~ completes a (fst x).
Proof.
  unfold registered. induction pairs as [|x pairs IH]; cbn [flat_map].
  - split; [intros _ x []|reflexivity].
  - split.
    + intros E. apply app_eq_nil in E as [E1 E2]. intros y [<-|Hy].
      * intros C. apply completes_registrations in C.
        destruct (registrations a (fst x)); [lia|discriminate].
      * now apply IH.
    + intros H. assert (Z0 : registrations a (fst x) = 0).
      { destruct (registrations a (fst x)) eqn:E; [reflexivity|].
        elim (H x (or_introl eq_refl)). apply registrations_completes. lia. }
      rewrite Z0. cbn [repeat List.app]. apply IH. intros y Hy. apply H. now right.
Qed.

Lemma queried_idem t p : typed_root t -> queried (queried t p) p = queried t p.
Proof.
  intros Ht. unfold queried at 2 3. destruct (spath t p) as [q|] eqn:Eq.
  2:{ unfold queried. now rewrite Eq. }
  pose proof (plug_spath_walk p psort t q Ht Eq) as P.
  set (t1 := walk t p (lift (fun x => x)) (lift psort)) in *.
  assert (Ht1 : typed_root t1) by now apply walk_typed_root.
  assert (Eq1 : spath t1 p = Some q) by now apply spath_walk_stable.
  unfold queried. rewrite Eq1.
  pose proof (plug_spath_walk p psort t1 q Ht1 Eq1) as P1.
  assert (D : deref t1 q = lift psort (deref t q)).
  { rewrite <- (app_nil_r q) at 1. now rewrite (deref_plug _ _ _ _ [] P). }
  assert (N : deref t1 q <> PyNone).
  { apply typed_root_not_none. now apply (spath_deref_typed p). }
  assert (L : lift psort (deref t1 q) = deref t1 q).
  { rewrite D. destruct (deref t q) as [|d w s cs l m r]; [reflexivity|].
    cbn [lift psort fst snd]. now rewrite sort_reverse_idem. }
  rewrite L, plug_deref in P1 by exact N. now injection P1.
Qed.

Lemma marks_queried t p a :
  typed_root t ->
  fst (payload_of (find (queried t p) a)) = fst (payload_of (find t a)).
Proof.
  intros Ht. unfold queried. destruct (spath t p); [|reflexivity].
  rewrite find_walk by exact Ht.
  destruct (String.eqb a p), (reaches a p);
    now destruct (payload_of (find t a)) as [[? ?] ?].
Qed.

(** ** Trees that [decode] gives back as they were *)

Lemma decoded_kept n : all_nodes data_kept n -> decoded n = n.
Proof.
  induction n as [|d w s cs l IHl m IHm r IHr]; cbn [all_nodes decoded]; [reflexivity|].
  intros (H & Hl & Hm & Hr). unfold data_kept in H.
  now rewrite H, IHl, IHm, IHr.
Qed.

Lemma data_kept_char c :
  Ascii.eqb c ":"%char = false -> decoded_data (Some (String c EmptyString)) = Some (String c EmptyString).
Proof.
  intros H. cbn [decoded_data]. unfold Py.str_eq. cbn [String.eqb]. now rewrite H.
Qed.

Lemma all_kept_lift E n : all_nodes data_kept n -> all_nodes data_kept (lift E n).
Proof.
  destruct n as [|d w s cs l m r]; [auto|]. cbn [lift].
  destruct (E (w, s, cs)) as [[w' s'] cs']. exact (fun H => H).
Qed.

Lemma all_kept_walk E L a : forall n,
  lacks ":"%char a = true -> typed_root n -> all_nodes data_kept n ->
  all_nodes data_kept (walk n a (lift E) (lift L)).
Proof.
  induction a as [|c a IH]; intros n Ha Hn Hall.
  - cbn [walk]. now apply all_kept_lift.
  - destruct n as [|d w0 s0 cs l m r]; [contradiction|]. simpl in Hn.
    cbn [lacks] in Ha. apply andb_prop in Ha as [Hc Ha].
    apply negb_true_iff in Hc.
    destruct Hall as (Hd & Hl & Hm & Hr). cbn [walk all_nodes].
    split; [exact Hd|]. split; [exact Hl|]. split; [|exact Hr].
    rewrite (bmod_bnode m (String c EmptyString)
      (fun x => walk (lift E x) a (lift E) (lift L)) Hn).
    apply all_nodes_bmod_const; [exact Hm|].
    destruct (bnode_typed_root m (String c EmptyString) Hn)
      as (w1 & s1 & cs1 & l1 & mm & r1 & Eb & _ & Hmm & _).
    apply IH; [exact Ha| |].
    + apply lift_typed_root. rewrite Eb. exact Hmm.
    + apply all_kept_lift. unfold bnode in *.
      destruct (bpath m (String c EmptyString)) as [q|].
      * now apply all_nodes_deref.
      * unfold Node_init. cbn [all_nodes]. repeat split; auto.
        now apply data_kept_char.
Qed.

Lemma lacks_suffix c x a : lacks c (String x a) = true -> lacks c a = true.
Proof. cbn [lacks]. intros H. now apply andb_prop in H. Qed.

Lemma all_kept_suffixes_added w s rest : forall t,
  lacks ":"%char rest = true -> typed_root t ->
  all_nodes data_kept t -> all_nodes data_kept (suffixes_added t rest w s).
Proof.
  induction rest as [|c rest IH]; intros t Hr Ht Hall; cbn [suffixes_added]; [exact Hall|].
  pose proof (lacks_suffix _ _ _ Hr) as Hr'.
  destruct (Ascii.eqb c "_"%char); apply IH; auto.
  - now apply walk_typed_root.
  - now apply all_kept_walk.
Qed.

Lemma all_kept_inserted t w s :
  lacks ":"%char w = true -> typed_root t -> all_nodes data_kept t ->
  all_nodes data_kept (inserted t w s).
Proof.
  intros Hw Ht Hall. unfold inserted.
  assert (H1 : typed_root (lift (padd w s) t)) by now apply lift_typed_root.
  assert (H2 : typed_root (walk (lift (padd w s) t) w (lift (padd w s)) (lift (fun p => p))))
    by now apply walk_typed_root.
  apply all_kept_walk; [exact Hw|now apply suffixes_added_typed_root|].
  apply all_kept_suffixes_added; [exact Hw|exact H2|].
  apply all_kept_walk; [exact Hw|exact H1|]. now apply all_kept_lift.
Qed.

Lemma all_kept_built pairs : forall t,
  (forall x, In x pairs -> lacks ":"%char (fst x) = true) ->
  typed_root t -> all_nodes data_kept t -> all_nodes data_kept (built t pairs).
Proof.
  induction pairs as [|[w s] pairs IH]; intros t Hp Ht Hall; cbn [built]; [exact Hall|].
  apply IH.
  - intros x Hx. apply Hp. now right.
  - now apply inserted_typed_root.
  - apply all_kept_inserted; auto. apply (Hp (w, s)). now left.
Qed.

(** What [deserialize] makes of the serialization of a server built from
    plain words. *)
Lemma deserialize_built other pairs :
  pairs <> [] ->
  (forall x, In x pairs -> plain (fst x) = true) ->
  deserialize other (serialize (mkQueryServer (built (root QueryServer_init) pairs)))
  = (mkQueryServer (decoded (built (root QueryServer_init) pairs)), None).
Proof.
  intros Hne Hp.
  assert (H0 : typed_root (root QueryServer_init)) by exact I.
  destruct (built_plain pairs (root QueryServer_init) Hp H0 I) as (H1 & H2 & H3).
  { simpl. repeat split; auto. }
  pose proof (built_typed_root pairs _ H0) as Hb.
  pose proof (root_encodable _ Hb H2 H1 (H3 (or_introl Hne))) as He.
  apply (deserialize_serialize _ _ He).
Qed.

(** ** The first node under the root *)

Lemma middle_data_lift E n : middle_data (lift E n) = middle_data n.
Proof.
  destruct n as [|d w s cs l m r]; [reflexivity|]. cbn [lift].
  now destruct (E (w, s, cs)) as [[w' s'] cs'].
Qed.

Lemma bmod_data b c f x :
  typed b -> sibling_safe f -> get_data b = Ok (Some x) ->
  get_data (bmod b c f) = Ok (Some x).
Proof.
  intros Hb Hf. destruct b as [|d w s cs l m r]; [discriminate|].
  cbn [get_data]. intros [= ->]. cbn [bmod].
  destruct Hb as (_ & Hl & Hm & Hr).
  destruct (Py.str_eq x c).
  - destruct (Hf (Some x) w s cs l m r Hm) as (w' & s' & cs' & m' & E & _). now rewrite E.
  - now destruct (Py.str_lt x c).
Qed.

Lemma middle_data_get t x :
  middle_data t = Some x <->
  exists d w s cs l m r, t = mkNode d w s cs l m r /\ get_data m = Ok (Some x).
Proof.
  split.
  - destruct t as [|d w s cs l m r]; [discriminate|]. cbn [middle_data].
    destruct m as [|d' w' s' cs' l' m' r']; [discriminate|]. intros ->.
    now exists d, w, s, cs, l, (mkNode (Some x) w' s' cs' l' m' r'), r.
  - intros (d & w & s & cs & l & m & r & -> & H).
    destruct m as [|d' w' s' cs' l' m' r']; [discriminate|]. cbn in *. congruence.
Qed.

Lemma middle_data_walk E L a n x :
  typed_root n -> middle_data n = Some x ->
  middle_data (walk n a (lift E) (lift L)) = Some x.
Proof.
  intros Hn H. destruct a as [|c a]; cbn [walk]; [now rewrite middle_data_lift|].
  apply middle_data_get in H as (d & w & s & cs & l & m & r & -> & H).
  apply middle_data_get. eexists _, _, _, _, _, _, _. split; [reflexivity|].
  apply bmod_data; [exact Hn|apply walk_sibling_safe|exact H].
Qed.

Lemma middle_data_suffixes_added w s rest x : forall t,
  typed_root t -> middle_data t = Some x ->
  middle_data (suffixes_added t rest w s) = Some x.
Proof.
  induction rest as [|c rest IH]; intros t Ht H; cbn [suffixes_added]; [exact H|].
  destruct (Ascii.eqb c "_"%char); apply IH; auto.
  - now apply walk_typed_root.
  - now apply middle_data_walk.
Qed.

Lemma middle_data_inserted t w s x :
  typed_root t -> middle_data t = Some x -> middle_data (inserted t w s) = Some x.
Proof.
  intros Ht H. unfold inserted.
  assert (H1 : typed_root (lift (padd w s) t)) by now apply lift_typed_root.
  assert (H2 : typed_root (walk (lift (padd w s) t) w (lift (padd w s)) (lift (fun p => p))))
    by now apply walk_typed_root.
  apply middle_data_walk; [now apply suffixes_added_typed_root|].
  apply middle_data_suffixes_added; [exact H2|].
  apply middle_data_walk; [exact H1|]. now rewrite middle_data_lift.
Qed.

Lemma middle_data_built pairs x : forall t,
  typed_root t -> middle_data t = Some x -> middle_data (built t pairs) = Some x.
Proof.
  induction pairs as [|[w s] pairs IH]; intros t Ht H; cbn [built]; [exact H|].
  apply IH; [now apply inserted_typed_root|now apply middle_data_inserted].
Qed.

(** The first insertion of a word that is not empty puts the node of its
    first character under the root. *)
Lemma middle_data_first c w s :
  middle_data (inserted (root QueryServer_init) (String c w) s)
  = Some (String c EmptyString).
Proof.
  unfold inserted.
  set (t1 := lift (padd (String c w) s) (root QueryServer_init)).
  assert (H1 : typed_root t1) by exact I.
  set (t2 := walk t1 (String c w) (lift (padd (String c w) s)) (lift (fun p => p))).
  assert (H2 : typed_root t2) by now apply walk_typed_root.
  apply middle_data_walk; [now apply suffixes_added_typed_root|].
  apply middle_data_suffixes_added; [exact H2|].
  unfold t2, t1. cbn [QueryServer_init root Node_init lift walk bmod].
  destruct (padd (String c w) s (false, 0%Z, [])) as [[w' s'] cs'].
  apply middle_data_get. eexists _, _, _, _, _, _, _. split; [reflexivity|].
  destruct (walk_sibling_safe w (padd (String c w) s) (fun p => p)
              (Some (String c EmptyString)) false 0%Z [] PyNone PyNone PyNone I)
    as (w1 & s1 & cs1 & m1 & E & _).
  cbn [bmod]. unfold Node_init. now rewrite E.
Qed.

(** A tree whose first node under the root has no [data]: looking for a
    character compares it with [None]. *)
Lemma search_middle_none d w s cs l r w' s' cs' l' m' r' c a :
  let t := mkNode d w s cs l (mkNode None w' s' cs' l' m' r') r in
  search (mkQueryServer t) (String c a) = Raise TypeError.
Proof. reflexivity. Qed.

(** ** Strings of pairs *)

Lemma lacks_app c a b : lacks c (a ++ b) = lacks c a && lacks c b.
Proof. induction a as [|x a IH]; simpl; [reflexivity|]. now rewrite IH, andb_assoc. Qed.

Lemma split_on_lacks sep f : lacks sep f = true -> Py.split_on sep f = [f].
Proof.
  induction f as [|c f IH]; simpl; [reflexivity|].
  intros H. apply andb_prop in H as [Hc Hf]. apply negb_true_iff in Hc.
  now rewrite Hc, (IH Hf).
Qed.

Lemma split_on_app_lacks sep f rest :
  lacks sep f = true ->
  Py.split_on sep (f ++ String sep rest) = f :: Py.split_on sep rest.
Proof.
  induction f as [|c f IH]; simpl.
  - intros _. now rewrite Ascii.eqb_refl.
  - intros H. apply andb_prop in H as [Hc Hf]. apply negb_true_iff in Hc.
    now rewrite Hc, (IH Hf).
Qed.

Lemma lacks_string_of_uint c u :
  c = ","%char \/ c = ")"%char -> lacks c (NilEmpty.string_of_uint u) = true.
Proof. intros [->| ->]; induction u; simpl; auto. Qed.

Lemma lacks_str_of_int c z :
  c = ","%char \/ c = ")"%char -> lacks c (Py.str_of_int z) = true.
Proof.
  intros Hc. unfold Py.str_of_int.
  destruct z as [|p|p]; cbn [Z.to_int NilZero.string_of_int].
  - destruct Hc as [->| ->]; reflexivity.
  - unfold NilZero.string_of_uint. destruct (Pos.to_uint p) eqn:E;
      try (destruct Hc as [->| ->]; reflexivity);
      rewrite <- E; now apply lacks_string_of_uint.
  - unfold NilZero.string_of_uint. cbn [lacks].
    replace (negb (Ascii.eqb "-"%char c)) with true
      by (destruct Hc as [->| ->]; reflexivity).
    destruct (Pos.to_uint p) eqn:E;
      try (destruct Hc as [->| ->]; reflexivity);
      rewrite <- E; now apply lacks_string_of_uint.
Qed.

Lemma str_lstrip_spaceless s : spaceless s = true -> str_lstrip s = s.
Proof.
  destruct s as [|c s]; [reflexivity|]. cbn [spaceless str_lstrip].
  intros H. apply andb_prop in H as [Hc _]. apply negb_true_iff in Hc. now rewrite Hc.
Qed.

Lemma str_rstrip_spaceless s : spaceless s = true -> str_rstrip s = s.
Proof.
  induction s as [|c s IH]; [reflexivity|]. cbn [spaceless str_rstrip].
  intros H. apply andb_prop in H as [Hc Hs]. apply negb_true_iff in Hc.
  rewrite (IH Hs). destruct s; [now rewrite Hc|reflexivity].
Qed.

Lemma str_strip_score z : str_strip (" " ++ Py.str_of_int z) = Py.str_of_int z.
Proof.
  pose proof (plain_spaceless _ (plain_str_of_int z)) as H.
  unfold str_strip. change (str_lstrip (" " ++ Py.str_of_int z))
    with (str_lstrip (Py.str_of_int z)).
  now rewrite str_lstrip_spaceless, str_rstrip_spaceless.
Qed.

Lemma entry_fields x :
  lacks ","%char (fst x) = true ->
  Py.split_on ","%char (entry_text x)
  = [fst x; (" " ++ Py.str_of_int (snd x))%string].
Proof.
  intros H. unfold entry_text.
  change ((fst x ++ ", " ++ Py.str_of_int (snd x))%string)
    with ((fst x ++ String ","%char (" " ++ Py.str_of_int (snd x)))%string).
  rewrite split_on_app_lacks by exact H. f_equal.
  apply split_on_lacks. cbn [append lacks Ascii.eqb Bool.eqb negb andb].
  apply lacks_str_of_int. now left.
Qed.

Lemma build_from_strings_entry self x rest :
  lacks ","%char (fst x) = true ->
  build_from_strings self (entry_text x :: rest)
  = (self1 <- insert self (str_strip (fst x)) (snd x);; build_from_strings self1 rest).
Proof.
  intros H. cbn [build_from_strings]. rewrite (entry_fields x H).
  cbn [index nth_error bind]. now rewrite str_strip_score, int_of_str_of_int.
Qed.

Lemma build_from_strings_entries pairs : forall self,
  (forall x, In x pairs -> lacks ","%char (fst x) = true) ->
  forall rest,
  build_from_strings self (map entry_text pairs ++ rest)
  = (self1 <- build_from_tuples self (map stripped pairs);; build_from_strings self1 rest).
Proof.
  induction pairs as [|x pairs IH]; intros self H rest; [reflexivity|].
  cbn [map List.app build_from_tuples]. rewrite build_from_strings_entry by (apply H; now left).
  unfold stripped at 1 2. cbn [fst snd].
  destruct (insert self (str_strip (fst x)) (snd x)) as [self1|e]; [|reflexivity].
  cbn [bind]. apply IH. intros y Hy. apply H. now right.
Qed.

(** ** Files of names *)

Lemma findall_aux_group g : forall rest,
  lacks ")"%char g = true ->
  snd (findall_aux (g ++ String ")"%char rest)) = (g, fst (findall_aux rest)).
Proof.
  induction g as [|c g IH]; intros rest H.
  - cbn [append findall_aux]. destruct (findall_aux rest) as [found [group later]].
    reflexivity.
  - cbn [lacks] in H. apply andb_prop in H as [Hc Hg]. apply negb_true_iff in Hc.
    cbn [append findall_aux]. specialize (IH rest Hg).
    destruct (findall_aux (g ++ String ")"%char rest)) as [found [group later]].
    cbn [snd] in *. rewrite Hc. now injection IH as -> ->.
Qed.

Lemma findall_groups_skip j : forall rest,
  lacks "("%char j = true -> findall_groups (j ++ rest) = findall_groups rest.
Proof.
  unfold findall_groups. induction j as [|c j IH]; intros rest H; [reflexivity|].
  cbn [lacks] in H. apply andb_prop in H as [Hc Hj]. apply negb_true_iff in Hc.
  cbn [append findall_aux]. specialize (IH rest Hj).
  destruct (findall_aux (j ++ rest)) as [found [group later]].
  cbn [fst] in *. now rewrite Hc.
Qed.

Lemma findall_groups_entry g rest :
  g <> EmptyString -> lacks ")"%char g = true ->
  findall_groups ("(" ++ g ++ ")" ++ rest) = g :: findall_groups rest.
Proof.
  intros Hne Hg. unfold findall_groups.
  change (("(" ++ g ++ ")" ++ rest)%string)
    with (String "("%char (g ++ String ")"%char rest)).
  cbn [findall_aux].
  pose proof (findall_aux_group g rest Hg) as E.
  destruct (findall_aux (g ++ String ")"%char rest)) as [found [group later]].
  cbn [snd] in E. injection E as -> ->. cbn [fst Ascii.eqb Bool.eqb].
  now destruct g as [|c g]; [congruence|].
Qed.

Lemma findall_groups_names sep pairs :
  lacks "("%char sep = true ->
  (forall x, In x pairs -> lacks ")"%char (fst x) = true) ->
  findall_groups (names_text sep pairs) = map entry_text pairs.
Proof.
  intros Hs. induction pairs as [|x pairs IH]; intros H; [reflexivity|].
  cbn [names_text map]. rewrite findall_groups_entry.
  - f_equal. rewrite findall_groups_skip by exact Hs.
    apply IH. intros y Hy. apply H. now right.
  - unfold entry_text. destruct (fst x); discriminate.
  - unfold entry_text. rewrite !lacks_app, (H x (or_introl eq_refl)).
    rewrite lacks_str_of_int by now right. reflexivity.
Qed.

(** ** Servers built by insertions *)

Lemma reachable_build pairs : forall self self',
  reachable self -> build_from_tuples self pairs = Ok self' -> reachable self'.
Proof.
  induction pairs as [|x pairs IH]; intros self self' Hr; cbn [build_from_tuples].
  - now intros [= <-].
  - destruct (insert self (fst x) (snd x)) as [self1|e] eqn:E; [|discriminate].
    cbn [bind]. apply IH. now apply (reach_insert self (fst x) (snd x)).
Qed.

(** ** References stay valid *)

Lemma spath_lift E t a : spath (lift E t) a = spath t a.
Proof.
  destruct t as [|d w s cs l m r]; [reflexivity|]. cbn [lift].
  destruct (E (w, s, cs)) as [[w' s'] cs']. now destruct a.
Qed.

Lemma spath_inserted_stable t w s a q :
  typed_root t -> spath t a = Some q -> spath (inserted t w s) a = Some q.
Proof.
  intros Ht H. unfold inserted.
  assert (H1 : typed_root (lift (padd w s) t)) by now apply lift_typed_root.
  assert (H2 : typed_root (walk (lift (padd w s) t) w (lift (padd w s)) (lift (fun p => p))))
    by now apply walk_typed_root.
  apply spath_walk_stable; [now apply suffixes_added_typed_root|].
  apply suffixes_added_stable; [exact H2|].
  apply spath_walk_stable; [exact H1|]. now rewrite spath_lift.
Qed.

Lemma spath_queried_stable t p a q :
  typed_root t -> spath t a = Some q -> spath (queried t p) a = Some q.
Proof.
  intros Ht H. unfold queried. destruct (spath t p); [|exact H].
  now apply spath_walk_stable.
Qed.

(** ** Insertions and queries in any order *)

Lemma calls_ran cs : forall t,
  typed_root t ->
  calls (mkQueryServer t) cs = Ok (mkQueryServer (ran t cs)) /\ typed_root (ran t cs).
Proof.
  induction cs as [|[w s|p] cs IH]; intros t Ht; cbn [calls ran].
  - now split.
  - rewrite insert_inserted by exact Ht. cbn [bind].
    apply IH. now apply inserted_typed_root.
  - rewrite get_completions_queried by exact Ht. cbn [bind].
    apply IH. now apply queried_typed_root.
Qed.

Lemma find_ran_in cs : forall t a e,
  typed_root t ->
  In e (completions_of (find (ran t cs) a)) ->
  In e (completions_of (find t a)) \/
  (In (snd e, fst e) (inserts_of cs) /\ completes a (snd e)).
Proof.
  induction cs as [|[w s|p] cs IH]; intros t a e Ht H; cbn [ran inserts_of] in *.
  - now left.
  - apply IH in H; [|now apply inserted_typed_root].
    destruct H as [H|[H1 H2]]; [|right; split; [now right|exact H2]].
    rewrite find_inserted in H by exact Ht.
    apply iter_added_in in H as [[-> Hk]|H]; [|now left].
    right. split; [now left|]. now apply registrations_completes.
  - apply IH in H; [|now apply queried_typed_root].
    destruct H as [H|H]; [|now right]. left.
    rewrite find_queried in H by exact Ht.
    destruct (String.eqb a p); [|exact H].
    apply (Permutation_in _ (sort_reverse_perm _) H).
Qed.

Lemma iter_added_perm k w s : forall cs,
  List.length cs + k <= 10 ->
  Permutation (Nat.iter k (fun cs => added cs w s) cs) (repeat (s, w) k ++ cs).
Proof.
  induction k as [|k IH]; intros cs H; [apply Permutation_refl|].
  rewrite Nat.iter_succ. cbn [repeat List.app].
  assert (P : Permutation (Nat.iter k (fun cs => added cs w s) cs) (repeat (s, w) k ++ cs))
    by (apply IH; lia).
  etransitivity.
  - apply added_small. rewrite (Permutation_length P), length_app, repeat_length.
    unfold item in *. lia.
  - now apply perm_skip.
Qed.

Lemma registered_cons a w s pairs :
  registered a ((w, s) :: pairs) = repeat (s, w) (registrations a w) ++ registered a pairs.
Proof. reflexivity. Qed.

Lemma find_ran_perm cs : forall t a R,
  typed_root t ->
  Permutation (completions_of (find t a)) R ->
  List.length R + List.length (registered a (inserts_of cs)) <= 10 ->
  Permutation (completions_of (find (ran t cs) a)) (registered a (inserts_of cs) ++ R).
Proof.
  induction cs as [|[w s|p] cs IH]; intros t a R Ht P H; cbn [ran inserts_of] in *.
  - exact P.
  - rewrite registered_cons in *. rewrite length_app, repeat_length in H.
    rewrite (IH (inserted t w s) a (repeat (s, w) (registrations a w) ++ R)).
    + rewrite !app_assoc. apply Permutation_app_tail, Permutation_app_comm.
    + now apply inserted_typed_root.
    + rewrite find_inserted by exact Ht.
      rewrite iter_added_perm by (rewrite (Permutation_length P); unfold item in *; lia).
      now apply Permutation_app_head.
    + rewrite length_app, repeat_length. unfold item in *. lia.
  - apply IH; [now apply queried_typed_root| |exact H].
    rewrite find_queried by exact Ht.
    destruct (String.eqb a p); [|exact P]. now rewrite sort_reverse_perm.
Qed.

(** * The properties of the specification *)

(** C1 (round trip) at the empty sequence of insertions: [serialize] of a
    new server gives a record that ends with a comma, which [deserialize]
    reads as an entry whose score is the empty string, and raises
    [ValueError]. *)
Theorem roundtrip_new_server :
  serialize QueryServer_init = ":,False,0, : : :" /\
  deserialize QueryServer_init (serialize QueryServer_init)
  = (QueryServer_init, Some ValueError).
Proof. split; vm_compute; reflexivity. Qed.

(** The round trip after at least one insertion.  For every sequence,
    not empty, of insertions of words without comma and without white
    space into a new server, [deserialize] of what [serialize] returns
    builds, in a second new server, a tree whose serialization is the same
    string. *)
Theorem roundtrip_after_insertions (pairs : list (string * Z)) :
  pairs <> [] ->
  (forall x, In x pairs -> plain (fst x) = true) ->
  exists self self2,
    build_from_tuples QueryServer_init pairs = Ok self /\
    deserialize QueryServer_init (serialize self) = (self2, None) /\
    serialize self2 = serialize self.
Proof.
  intros Hne Hp.
  assert (H0 : typed_root (root QueryServer_init)) by exact I.
  destruct (built_plain pairs (root QueryServer_init) Hp H0 I) as (H1 & H2 & H3).
  { simpl. repeat split; auto. }
  pose proof (built_typed_root pairs _ H0) as Hb.
  pose proof (root_encodable _ Hb H2 H1 (H3 (or_introl Hne))) as He.
  eexists _, _. split; [apply (build_from_tuples_built pairs _ H0)|].
  split; [apply (deserialize_serialize _ _ He)|].
  unfold serialize. cbn [root]. now rewrite encode_decoded.
Qed.

Lemma roundtrip_after_insertions_witness :
  let pairs := [("foo", 1%Z); ("bar_foo", 3%Z); (EmptyString, 7%Z)] in
  exists self self2,
    build_from_tuples QueryServer_init pairs = Ok self /\
    deserialize QueryServer_init (serialize self) = (self2, None) /\
    serialize self2 = serialize self.
Proof.
  cbv zeta. apply roundtrip_after_insertions; [discriminate|].
  simpl. intros x H. repeat (destruct H as [<-|H]; [reflexivity|]). contradiction.
Defined.

(** C2 (top ten) after a query: [get_completions] sorts the list of the
    node in place, which then is no heap.  After ten insertions of ["a"]
    with the scores 1 to 10, a query for ["a"] and the insertion of ["a"]
    with the score 11, the node of ["a"] has lost [(10, "a")] and still
    holds [(1, "a")]. *)
Theorem top_ten_lost_after_query :
  let pairs := [("a", 1); ("a", 2); ("a", 3); ("a", 4); ("a", 5);
                ("a", 6); ("a", 7); ("a", 8); ("a", 9); ("a", 10)]%Z in
  exists self1 l self2 self3,
    build_from_tuples QueryServer_init pairs = Ok self1 /\
    get_completions self1 "a" = Ok (l, self2) /\
    insert self2 "a" 11 = Ok self3 /\
    completions_at self3 "a"
    = [(8, "a"); (9, "a"); (4, "a"); (7, "a"); (6, "a");
       (5, "a"); (11, "a"); (3, "a"); (2, "a"); (1, "a")]%Z /\
    ~ In (10%Z, "a") (completions_at self3 "a") /\
    In (1%Z, "a") (completions_at self3 "a").
Proof.
  cbv zeta. eexists _, _, _, _.
  split; [vm_compute; reflexivity|].
  split; [vm_compute; reflexivity|].
  split; [vm_compute; reflexivity|].
  split; [vm_compute; reflexivity|].
  split; vm_compute; intuition discriminate.
Qed.

(** C3 (queries leave the server as it is) fails on the code for the same
    reason: after [insert("a", 1)] and [insert("a", 2)], the query for
    ["a"] returns the words in descending order and leaves the list of the
    node sorted, so that [serialize()] returns another string. *)
Theorem query_changes_serialization :
  exists self l self',
    build_from_tuples QueryServer_init [("a", 1%Z); ("a", 2%Z)] = Ok self /\
    get_completions self "a" = Ok (l, self') /\
    serialize self = ":,False,0,1,a,2,a : a,True,2,1,a,2,a : : : :" /\
    serialize self' = ":,False,0,1,a,2,a : a,True,2,2,a,1,a : : : :" /\
    serialize self <> serialize self'.
Proof.
  eexists _, _, _.
  split; [vm_compute; reflexivity|].
  split; [vm_compute; reflexivity|].
  split; [vm_compute; reflexivity|].
  split; [vm_compute; reflexivity|].
  vm_compute. discriminate.
Qed.

(** C4 (completion correctness).  After any sequence of insertions into a
    new server, [get_completions(p)] returns, and every word [t] it returns
    starts with [p] or has [p] right after some ["_"]. *)
Theorem completion_correctness (pairs : list (string * Z)) (p : string) :
  exists self l self',
    build_from_tuples QueryServer_init pairs = Ok self /\
    get_completions self p = Ok (l, self') /\
    forall t, In t l -> completes p t.
Proof.
  assert (H0 : typed_root (root QueryServer_init)) by exact I.
  pose proof (built_typed_root pairs _ H0) as Hb.
  eexists _, _, _. split; [apply (build_from_tuples_built pairs _ H0)|].
  split; [apply (get_completions_queried _ p Hb)|].
  intros t Ht. apply in_map_iff in Ht as ([s t'] & <- & He).
  apply (Permutation_in _ (sort_reverse_perm _)) in He.
  apply (built_completes pairs _ H0) in He; [exact He|].
  intros a e. now rewrite find_init.
Qed.

(** C5 (ordering).  On every server reached from a new one by insertions
    and queries, [get_completions] returns at most ten words: the words of
    the entries of the node reached, in descending order of score and, for
    equal scores, in descending order of word. *)
Theorem get_completions_ordered (self : QueryServer) (prefix : string) :
  reachable self ->
  exists l self',
    get_completions self prefix = Ok (l, self') /\
    List.length l <= 10 /\
    exists entries,
      Permutation entries (completions_at self prefix) /\
      StronglySorted before entries /\
      l = map snd entries.
Proof.
  intros Hr. pose proof (reachable_typed _ Hr) as Ht.
  pose proof (reachable_bounded _ Hr prefix) as Hb.
  destruct self as [t]. simpl in *.
  eexists _, _. split; [apply (get_completions_queried _ prefix Ht)|].
  split; [now rewrite length_map, sort_reverse_length|].
  exists (sort_reverse (completions_of (find t prefix))).
  rewrite completions_at_find by exact Ht.
  split; [apply sort_reverse_perm|]. split; [apply sort_reverse_sorted|reflexivity].
Qed.

Lemma get_completions_ordered_witness :
  exists self1 self,
    insert QueryServer_init "ab" 2 = Ok self1 /\
    insert self1 "a_b" 2 = Ok self /\
    reachable self /\
    exists l self',
      get_completions self "b" = Ok (l, self') /\
      List.length l <= 10 /\
      exists entries,
        Permutation entries (completions_at self "b") /\
        StronglySorted before entries /\
        l = map snd entries.
Proof.
  eexists _, _.
  split; [vm_compute; reflexivity|].
  split; [vm_compute; reflexivity|].
  match goal with
  | |- reachable ?s /\ _ =>
      assert (R : reachable s)
        by (eapply (reach_insert _ "a_b" 2);
            [eapply (reach_insert _ "ab" 2); [apply reach_init|vm_compute; reflexivity]
            |vm_compute; reflexivity]);
      split; [exact R|apply (get_completions_ordered s "b" R)]
  end.
Defined.

(** C6 (bounding), as stated, fails: ["a_a"] is registered twice at the
    node of ["a"], once as a word that starts with ["a"] and once for the
    ["a"] after its ["_"].  With the eleven words below, all starting with
    ["a"] and with eleven different scores, the node of ["a"] holds
    [(11, "a_a")] twice and lacks ["ac"], whose score [2] is not the lowest. *)
Lemma bounding_counterexample :
  let pairs := [("a_a", 11); ("ab", 1); ("ac", 2); ("ad", 3); ("ae", 4); ("af", 5);
                ("ag", 6); ("ah", 7); ("ai", 8); ("aj", 9); ("ak", 10)]%Z in
  List.length pairs = 11 /\
  NoDup (map fst pairs) /\ NoDup (map snd pairs) /\
  (forall t, In t (map fst pairs) -> String.prefix "a" t = true) /\
  exists self,
    build_from_tuples QueryServer_init pairs = Ok self /\
    completions_at self "a"
    = [(3, "ad"); (6, "ag"); (4, "ae"); (7, "ah"); (8, "ai"); (11, "a_a");
       (5, "af"); (11, "a_a"); (10, "ak"); (9, "aj")]%Z /\
    ~ In "ac" (map snd (completions_at self "a")).
Proof.
  cbv zeta. split; [reflexivity|].
  split; [repeat constructor; simpl; intuition discriminate|].
  split; [repeat constructor; simpl; intuition discriminate|].
  split.
  - simpl. intros t H. repeat (destruct H as [<-|H]; [reflexivity|]). contradiction.
  - eexists. split; [vm_compute; reflexivity|].
    split; [vm_compute; reflexivity|].
    vm_compute. intuition discriminate.
Qed.

(** C6 (bounding), amended.  Eleven words with eleven different scores,
    all starting with a non-empty [p] and none with [p] right after a
    ["_"], inserted into a new server, leave the node of [p] with exactly
    ten entries: all eleven but one whose score is the lowest. *)
Theorem bounding (pairs : list (string * Z)) (p : string) :
  List.length pairs = 11 ->
  NoDup (map fst pairs) -> NoDup (map snd pairs) ->
  p <> EmptyString ->
  (forall t, In t (map fst pairs) -> String.prefix p t = true) ->
  (forall t, In t (map fst pairs) -> ~ exists u v, t = (u ++ "_" ++ p ++ v)%string) ->
  exists self q lowest,
    build_from_tuples QueryServer_init pairs = Ok self /\
    search self p = Ok (Some q) /\
    List.length (completions_of (deref (root self) q)) = 10 /\
    In lowest pairs /\
    (forall x, In x pairs -> (snd lowest <= snd x)%Z) /\
    Permutation (entry_of lowest :: completions_of (deref (root self) q))
                (map entry_of pairs).
Proof.
  intros Hl _ _ Hp Hpre Hno.
  assert (H0 : typed_root (root QueryServer_init)) by exact I.
  pose proof (built_typed_root pairs _ H0) as Hb.
  assert (Hex : spath (built (root QueryServer_init) pairs) p <> None).
  { destruct (exists_last (l := pairs)) as (front & [w s] & E);
      [destruct pairs; [discriminate|congruence]|].
    rewrite E, built_app. simpl. apply spath_inserted.
    - now apply built_typed_root.
    - apply Hpre. rewrite E, map_app. apply in_or_app. right. now left. }
  destruct (spath (built (root QueryServer_init) pairs) p) as [q|] eqn:Eq; [|now elim Hex].
  assert (Hcs : completions_of (deref (built (root QueryServer_init) pairs) q)
                = pushed [] pairs).
  { pose proof (find_spath p _ Hb) as F. rewrite Eq in F.
    unfold completions_of at 1. rewrite <- F.
    fold (completions_of (find (built (root QueryServer_init) pairs) p)).
    rewrite built_once, find_init; auto.
    intros x Hx. rewrite registrations_prefix, suffix_hits_none; auto.
    - apply Hno. now apply in_map.
    - apply Hpre. now apply in_map. }
  destruct (pushed_eleven pairs Hl) as (r & Pr & Hmin).
  assert (Hr : In r (map entry_of pairs)).
  { apply (Permutation_in _ Pr). now left. }
  apply in_map_iff in Hr as (lowest & <- & Hlow).
  exists (mkQueryServer (built (root QueryServer_init) pairs)), q, lowest.
  split; [apply (build_from_tuples_built pairs _ H0)|].
  split; [rewrite search_spath by exact Hb; now rewrite Eq|].
  cbn [root]. rewrite Hcs.
  split; [apply Permutation_length in Pr; rewrite length_map in Pr; simpl in Pr; lia|].
  split; [exact Hlow|]. split; [|exact Pr].
  intros x Hx. specialize (Hmin (entry_of x) (in_map _ _ _ Hx)).
  destruct (Z.lt_ge_cases (snd x) (snd lowest)) as [L|G]; [|lia].
  assert (T : tuple_lt (entry_of x) (entry_of lowest) = true)
    by (apply tuple_lt_spec; now left).
  congruence.
Qed.

Lemma bounding_witness :
  let pairs := [("ab", 1); ("ac", 2); ("ad", 3); ("ae", 4); ("af", 5); ("ag", 6);
                ("ah", 7); ("ai", 8); ("aj", 9); ("ak", 10); ("al", 11)]%Z in
  exists self q lowest,
    build_from_tuples QueryServer_init pairs = Ok self /\
    search self "a" = Ok (Some q) /\
    List.length (completions_of (deref (root self) q)) = 10 /\
    In lowest pairs /\
    (forall x, In x pairs -> (snd lowest <= snd x)%Z) /\
    Permutation (entry_of lowest :: completions_of (deref (root self) q))
                (map entry_of pairs).
Proof.
  cbv zeta. apply bounding.
  - reflexivity.
  - repeat constructor; simpl; intuition discriminate.
  - repeat constructor; simpl; intuition discriminate.
  - discriminate.
  - simpl. intros t H. repeat (destruct H as [<-|H]; [reflexivity|]). contradiction.
  - simpl. intros t H [u [v E]].
    pose proof (suffix_hits_occurs "a" u v ltac:(discriminate)) as Hs.
    simpl in Hs. rewrite <- E in Hs.
    repeat (destruct H as [<-|H]; [vm_compute in Hs; lia|]). contradiction.
Defined.

(** C7 (malformed encoding).  A call of [deserialize] that raises leaves
    the server as it was, so that [serialize()] returns what it returned
    before; and the call raises
    - when the tokens lead the decoding to a record with a wrong number of
      fields or with a score field that is not an integer ([IndexError] or
      [ValueError]), and
    - when the tokens are a proper start of the tokens of a whole tree
      ([StopIteration]). *)
Theorem deserialize_malformed (self : QueryServer) (encoding : string) :
  (forall e, snd (deserialize self encoding) = Some e ->
     fst (deserialize self encoding) = self /\
     serialize (fst (deserialize self encoding)) = serialize self)
  /\
  (forall used tok post,
     Py.split_ws encoding = used ++ tok :: post ->
     truncated used -> malformed_record tok ->
     exists e, (e = IndexError \/ e = ValueError) /\
               deserialize self encoding = (self, Some e))
  /\
  (forall more node,
     more <> [] -> complete (Py.split_ws encoding ++ more) node ->
     deserialize self encoding = (self, Some StopIteration)).
Proof.
  split; [|split].
  - intros e. unfold deserialize.
    destruct (decode _ _) as [[node rest]|e']; simpl; [discriminate|auto].
  - intros used tok post Hs Ht Hm. unfold deserialize. rewrite Hs.
    destruct (malformed_record_raises tok Hm) as [e He].
    destruct (decode_reaches _ used tok post e Ht (proj1 Hm) He) as (e' & Hd & He').
    exists e'. split; [exact He'|].
    rewrite (decode_deeper _ _ _ (S (List.length (used ++ tok :: post))) Hd).
    + reflexivity.
    + destruct He'; subst; discriminate.
    + rewrite length_app. lia.
  - intros more node Hmore Hc. unfold deserialize, complete in *.
    set (toks := Py.split_ws encoding) in *.
    destruct (decode_split _ _ _ _ _ Hc) as [(rest' & Hr & _)|Hd].
    + destruct rest'; [|discriminate]. simpl in Hr. congruence.
    + destruct (decode (S (List.length toks)) toks) as [[n rest]|e] eqn:E.
      * rewrite (decode_deeper _ _ _ (S (List.length (toks ++ more))) E) in Hd;
          [discriminate|discriminate|rewrite length_app; lia].
      * assert (He : Raise (A := Node * list string) e <> Raise RecursionError).
        { rewrite <- E. apply decode_depth. lia. }
        rewrite (decode_deeper _ _ _ (S (List.length (toks ++ more))) E He) in Hd;
          [|rewrite length_app; lia].
        now injection Hd as ->.
Qed.

Lemma deserialize_malformed_witness :
  Py.split_ws ":,False,0,1,a b,True" = [":,False,0,1,a"] ++ "b,True" :: [] /\
  truncated [":,False,0,1,a"] /\ malformed_record "b,True" /\
  exists e, (e = IndexError \/ e = ValueError) /\
            deserialize QueryServer_init ":,False,0,1,a b,True"
            = (QueryServer_init, Some e).
Proof.
  assert (H1 : Py.split_ws ":,False,0,1,a b,True" = [":,False,0,1,a"] ++ "b,True" :: [])
    by reflexivity.
  assert (H2 : truncated [":,False,0,1,a"]) by reflexivity.
  assert (H3 : malformed_record "b,True").
  { split; [discriminate|]. left. left. vm_compute. lia. }
  split; [exact H1|]. split; [exact H2|]. split; [exact H3|].
  apply (proj1 (proj2 (deserialize_malformed QueryServer_init ":,False,0,1,a b,True"))
           [":,False,0,1,a"] "b,True" [] H1 H2 H3).
Defined.

(** C8 (empty word), as stated, fails: the insertion of the empty word
    with the score 5 into a new server also sets the word flag and the
    score of the root. *)
Lemma insert_empty_word_counterexample :
  exists self',
    insert QueryServer_init EmptyString 5 = Ok self' /\
    is_word_of (root QueryServer_init) = false /\ is_word_of (root self') = true /\
    score_of (root QueryServer_init) = 0%Z /\ score_of (root self') = 5%Z.
Proof. eexists. split; [vm_compute; reflexivity|]. repeat split. Qed.

(** C8 (empty word), amended.  On a server with a root, the insertion of
    the empty word with the score [s] changes the root node only: it runs
    [add_completion] with the empty word and [s] on its list, sets its word
    flag and sets its score to [s]; the data of the root and everything
    under it stay as they are. *)
Theorem insert_empty_word (d : option string) (w : bool) (sc : Z) (cs : list item)
    (l m r : Node) (s : Z) :
  exists cs',
    add_completion cs EmptyString s = Ok cs' /\
    insert (mkQueryServer (mkNode d w sc cs l m r)) EmptyString s
    = Ok (mkQueryServer (mkNode d true s cs' l m r)).
Proof.
  exists (added cs EmptyString s). split; [apply add_completion_added|].
  unfold insert, insert_completion, Node_add_completion. simpl.
  rewrite add_completion_added. reflexivity.
Qed.

(** C9 (no deduplication), as stated, fails: after two calls of
    [insert("a_a", 1)], [get_completions("a")] returns ["a_a"] four times,
    since each call registers the word twice at the node of ["a"]. *)
Lemma duplicate_insert_counterexample :
  String.prefix "a" "a_a" = true /\
  exists self1 self2 self',
    insert QueryServer_init "a_a" 1 = Ok self1 /\
    insert self1 "a_a" 1 = Ok self2 /\
    get_completions self2 "a" = Ok (["a_a"; "a_a"; "a_a"; "a_a"], self').
Proof.
  split; [reflexivity|]. eexists _, _, _.
  split; [vm_compute; reflexivity|].
  split; vm_compute; reflexivity.
Qed.

(** C9 (no deduplication), amended.  After two calls of [insert(t, s)] on
    a new server, [get_completions(p)] for a prefix [p] of [t] returns only
    copies of [t]: two for each time one call registers [t] at the node of
    [p], and ten at most.  They are at least two, and exactly two when [p]
    is empty or does not occur right after a ["_"] in [t]. *)
Theorem duplicate_insert (t : string) (s : Z) (p : string) :
  String.prefix p t = true ->
  exists self1 self2 l self',
    insert QueryServer_init t s = Ok self1 /\
    insert self1 t s = Ok self2 /\
    get_completions self2 p = Ok (l, self') /\
    l = repeat t (Nat.min 10 (2 * registrations p t)) /\
    2 <= List.length l /\
    ((p = EmptyString \/ ~ exists u v, t = (u ++ "_" ++ p ++ v)%string) -> l = [t; t]).
Proof.
  intros Hp.
  assert (H0 : typed_root (root QueryServer_init)) by exact I.
  pose proof (inserted_typed_root _ t s H0) as H1.
  pose proof (inserted_typed_root _ t s H1) as H2.
  assert (Hl : map snd (sort_reverse (completions_of
                 (find (inserted (inserted (root QueryServer_init) t s) t s) p)))
               = repeat t (Nat.min 10 (2 * registrations p t))).
  { rewrite !find_inserted, find_init by auto.
    rewrite <- Nat.iter_add, iter_added_repeat, sort_reverse_repeat, map_repeat.
    cbn [snd]. f_equal. lia. }
  eexists _, _, _, _.
  split; [apply (insert_inserted _ t s H0)|].
  split; [apply (insert_inserted _ t s H1)|].
  split; [apply (get_completions_queried _ p H2)|].
  rewrite Hl. split; [reflexivity|].
  pose proof (registrations_prefix p t Hp) as Hr.
  split; [rewrite repeat_length; lia|].
  intros Hc. rewrite Hr.
  replace (suffix_hits p t) with 0; [reflexivity|].
  destruct Hc as [->|Hc]; [now rewrite suffix_hits_empty|].
  now rewrite suffix_hits_none.
Qed.

Lemma duplicate_insert_witness :
  String.prefix "b" "b_b_c" = true /\
  exists self1 self2 l self',
    insert QueryServer_init "b_b_c" 7 = Ok self1 /\
    insert self1 "b_b_c" 7 = Ok self2 /\
    get_completions self2 "b" = Ok (l, self') /\
    l = repeat "b_b_c" (Nat.min 10 (2 * registrations "b" "b_b_c")) /\
    2 <= List.length l /\
    (("b" = EmptyString \/ ~ exists u v, "b_b_c" = (u ++ "_" ++ "b" ++ v)%string)
     -> l = ["b_b_c"; "b_b_c"]).
Proof.
  split; [reflexivity|]. apply (duplicate_insert "b_b_c" 7 "b"). reflexivity.
Defined.

(** C10 (trailing tokens).  When the tokens of [E] are those of a whole
    tree, [deserialize] of [E], a space and any further tokens [X] returns
    without an exception and leaves the tree that [deserialize] of [E]
    leaves. *)
Theorem deserialize_ignores_trailing (self : QueryServer) (E X : string) (node : Node) :
  complete (Py.split_ws E) node ->
  Py.split_ws X <> [] ->
  deserialize self (E ++ " " ++ X) = (mkQueryServer node, None) /\
  deserialize self E = (mkQueryServer node, None).
Proof.
  unfold complete, deserialize. intros Hc _. rewrite Hc. split; [|reflexivity].
  rewrite split_ws_space.
  pose proof (decode_app _ _ _ _ (Py.split_ws X) Hc) as Ha.
  rewrite (decode_deeper _ _ _ (S (List.length (Py.split_ws E ++ Py.split_ws X))) Ha);
    [reflexivity|discriminate|rewrite length_app; lia].
Qed.

Lemma deserialize_ignores_trailing_witness :
  let E := ":,False,0,1,a : a,True,1,1,a : : : :" in
  let X := "b,True junk" in
  let node := mkNode None false 0 [(1%Z, "a")] PyNone
                (mkNode (Some "a") true 1 [(1%Z, "a")] PyNone PyNone PyNone) PyNone in
  complete (Py.split_ws E) node /\
  Py.split_ws X <> [] /\
  deserialize QueryServer_init (E ++ " " ++ X) = (mkQueryServer node, None) /\
  deserialize QueryServer_init E = (mkQueryServer node, None).
Proof.
  cbv zeta.
  assert (H1 : complete (Py.split_ws ":,False,0,1,a : a,True,1,1,a : : : :")
                 (mkNode None false 0 [(1%Z, "a")] PyNone
                    (mkNode (Some "a") true 1 [(1%Z, "a")] PyNone PyNone PyNone) PyNone))
    by (vm_compute; reflexivity).
  assert (H2 : Py.split_ws "b,True junk" <> []) by (vm_compute; discriminate).
  split; [exact H1|]. split; [exact H2|].
  apply (deserialize_ignores_trailing QueryServer_init _ _ _ H1 H2).
Defined.

(** * Further properties of the code *)

(** X1 ([insert_node] after [search_char]).  When [search_char] does not
    find [char] among the siblings under [root0], [insert_node] returns;
    in the tree it returns, [search_char] finds [char] at the new node, and
    finds every other character where it found it before. *)
Theorem insert_node_found (root0 : Node) (char : string) :
  search_char root0 char = Ok None ->
  exists root1 node,
    insert_node root0 (Node_init (Some char)) = Ok (root1, node) /\
    search_char root1 char = Ok (Some node) /\
    deref root1 node = Node_init (Some char) /\
    forall c, c <> char -> search_char root1 c = search_char root0 c.
Proof.
  rename root0 into b, char into c.
  induction b as [|d w s cs l IHl m _ r IHr]; cbn [search_char insert_node].
  - intros _. exists (Node_init (Some c)), []. split; [reflexivity|].
    unfold Node_init. cbn [search_char data_eq data_lt bind option_map].
    split; [now rewrite str_eq_refl|]. split; [reflexivity|].
    intros c' Hc. apply not_eq_sym in Hc. apply str_eq_false in Hc. rewrite Hc.
    now destruct (Py.str_lt c c').
  - destruct (data_eq d (Some c)) eqn:E; [discriminate|].
    destruct d as [x|]; [|discriminate]. cbn [data_lt get_data Node_init bind data_eq] in *.
    destruct (Py.str_lt x c) eqn:L.
    + destruct (search_char r c) as [[q'|]|e] eqn:S; try discriminate. intros _.
      destruct (IHr eq_refl) as (r' & q & H1 & H2 & H3 & H4).
      exists (mkNode (Some x) w s cs l m r'), (Right :: q).
      rewrite H1. cbn [bind].
      split; [reflexivity|]. cbn [search_char data_eq data_lt bind].
      rewrite E, L, H2. split; [reflexivity|]. split; [exact H3|].
      intros c' Hc. destruct (Py.str_eq x c'); [reflexivity|].
      destruct (Py.str_lt x c'); [now rewrite H4|reflexivity].
    + destruct (search_char l c) as [[q'|]|e] eqn:S; try discriminate. intros _.
      destruct (IHl eq_refl) as (l' & q & H1 & H2 & H3 & H4).
      assert (G : Py.str_lt c x = true).
      { destruct (Py.str_lt c x) eqn:G; [reflexivity|].
        apply str_eq_false in E. elim E. now apply str_lt_total. }
      rewrite G. exists (mkNode (Some x) w s cs l' m r), (Left :: q).
      rewrite H1. cbn [bind].
      split; [reflexivity|]. cbn [search_char data_eq data_lt bind].
      rewrite E, L, H2. split; [reflexivity|]. split; [exact H3|].
      intros c' Hc. destruct (Py.str_eq x c'); [reflexivity|].
      destruct (Py.str_lt x c'); [reflexivity|now rewrite H4].
Qed.

Lemma insert_node_found_witness :
  let root0 := mkNode (Some "m") false 0 [] (Node_init (Some "c")) PyNone PyNone in
  search_char root0 "f" = Ok None /\
  exists root1 node,
    insert_node root0 (Node_init (Some "f")) = Ok (root1, node) /\
    search_char root1 "f" = Ok (Some node) /\
    deref root1 node = Node_init (Some "f") /\
    forall c, c <> "f" -> search_char root1 c = search_char root0 c.
Proof.
  cbv zeta. split; [reflexivity|]. apply insert_node_found. reflexivity.
Defined.

(** X2 ([search_char] is sound).  On every tree, the node [search_char]
    returns carries the character looked for, and is reached from the
    root of the siblings by [left] and [right] links only. *)
Theorem search_char_sound (root0 : Node) (char : string) (node : ref) :
  search_char root0 char = Ok (Some node) ->
  get_data (deref root0 node) = Ok (Some char) /\
  Forall (fun b => b <> Middle) node.
Proof.
  revert node. rename root0 into b, char into c.
  induction b as [|d w s cs l IHl m _ r IHr]; intros q; cbn [search_char].
  - discriminate.
  - destruct (data_eq d (Some c)) eqn:E.
    + intros [= <-]. split; [|constructor]. cbn [deref get_data].
      destruct d as [x|]; [|discriminate]. apply str_eq_true in E. now subst.
    + destruct (data_lt d (Some c)) as [lt|e]; [|discriminate]. cbn [bind].
      destruct lt.
      * destruct (search_char r c) as [[q'|]|e]; try discriminate.
        intros [= <-]. destruct (IHr q' eq_refl) as [H1 H2].
        split; [exact H1|]. constructor; [discriminate|exact H2].
      * destruct (search_char l c) as [[q'|]|e]; try discriminate.
        intros [= <-]. destruct (IHl q' eq_refl) as [H1 H2].
        split; [exact H1|]. constructor; [discriminate|exact H2].
Qed.

Lemma search_char_sound_witness :
  let root0 := mkNode (Some "m") false 0 [] (Node_init (Some "c")) PyNone PyNone in
  search_char root0 "c" = Ok (Some [Left]) /\
  get_data (deref root0 [Left]) = Ok (Some "c") /\
  Forall (fun b => b <> Middle) [Left].
Proof.
  cbv zeta. split; [reflexivity|]. apply (search_char_sound _ "c"). reflexivity.
Defined.

(** X3 ([search] along prefixes).  On a server reached by insertions and
    queries, when [search] finds a node for a word it finds one for every
    prefix of the word, on the way to that node. *)
Theorem search_prefix_closed (self : QueryServer) (w v : string) (node : ref) :
  reachable self ->
  search self (w ++ v) = Ok (Some node) ->
  exists node1 rest, search self w = Ok (Some node1) /\ node = node1 ++ rest.
Proof.
  intros Hr. pose proof (reachable_typed _ Hr) as Ht. destruct self as [t].
  cbn [root] in Ht. rewrite !search_spath by exact Ht.
  rewrite spath_app by exact Ht.
  destruct (spath t w) as [q|]; [|discriminate].
  destruct (spath (deref t q) v) as [q'|]; [|discriminate].
  intros [= <-]. now exists q, q'.
Qed.

Lemma search_prefix_closed_witness :
  exists self,
    build_from_tuples QueryServer_init [("b", 2%Z); ("ab", 1%Z)] = Ok self /\
    search self ("a" ++ "b") = Ok (Some [Middle; Left; Middle]) /\
    exists node1 rest,
      search self "a" = Ok (Some node1) /\ [Middle; Left; Middle] = node1 ++ rest.
Proof.
  eexists. split; [vm_compute; reflexivity|].
  split; [vm_compute; reflexivity|].
  eapply (search_prefix_closed _ "a" "b").
  - eapply (reachable_build [("b", 2%Z); ("ab", 1%Z)]); [apply reach_init|].
    vm_compute; reflexivity.
  - vm_compute; reflexivity.
Defined.

(** X4 ([insert] marks the word).  On a server reached by insertions and
    queries, [insert(word, score)] returns; afterwards the node of [word]
    is marked as a word with the score [score], and the marks of all other
    words are as before. *)
Theorem insert_marks_word (self : QueryServer) (word : string) (score : Z) :
  reachable self ->
  exists self',
    insert self word score = Ok self' /\
    forall w, word_at self' w
              = if String.eqb w word then Some score else word_at self w.
Proof.
  intros Hr. pose proof (reachable_typed _ Hr) as Ht. destruct self as [t].
  cbn [root] in Ht. exists (mkQueryServer (inserted t word score)).
  split; [now apply insert_inserted|]. intros w.
  rewrite !word_at_find by (try apply inserted_typed_root; exact Ht).
  unfold is_word_of, score_of. rewrite (marks_inserted t word score w Ht).
  now destruct (String.eqb w word).
Qed.

Lemma insert_marks_word_witness :
  exists self,
    build_from_tuples QueryServer_init [("ab", 1%Z); ("a", 2%Z)] = Ok self /\
    exists self',
      insert self "ab" 7 = Ok self' /\
      forall w, word_at self' w = if String.eqb w "ab" then Some 7%Z else word_at self w.
Proof.
  eexists. split; [vm_compute; reflexivity|].
  apply insert_marks_word.
  eapply (reachable_build [("ab", 1%Z); ("a", 2%Z)]); [apply reach_init|].
  vm_compute; reflexivity.
Defined.

(** X5 ([insert] registers the word).  On a server reached by insertions
    and queries, [insert(word, score)] returns; it has run
    [add_completion(word, score)] on the node of every string [a] as many
    times as [registrations a word] tells (once at the root, once at every
    prefix of [word] that is not empty, once more at every such prefix of
    what follows a ["_"]) and has left the other lists as they were. *)
Theorem insert_registers (self : QueryServer) (word : string) (score : Z) :
  reachable self ->
  exists self',
    insert self word score = Ok self' /\
    forall a, completions_at self' a
              = Nat.iter (registrations a word) (fun cs => added cs word score)
                         (completions_at self a).
Proof.
  intros Hr. pose proof (reachable_typed _ Hr) as Ht. destruct self as [t].
  cbn [root] in Ht. exists (mkQueryServer (inserted t word score)).
  split; [now apply insert_inserted|]. intros a.
  rewrite !completions_at_find by (try apply inserted_typed_root; exact Ht).
  now apply find_inserted.
Qed.

Lemma insert_registers_witness :
  exists self,
    build_from_tuples QueryServer_init [("ab", 1%Z); ("a", 2%Z)] = Ok self /\
    exists self',
      insert self "b_a" 7 = Ok self' /\
      forall a, completions_at self' a
                = Nat.iter (registrations a "b_a") (fun cs => added cs "b_a" 7%Z)
                           (completions_at self a).
Proof.
  eexists. split; [vm_compute; reflexivity|].
  apply insert_registers.
  eapply (reachable_build [("ab", 1%Z); ("a", 2%Z)]); [apply reach_init|].
  vm_compute; reflexivity.
Defined.

(** X6 ([insert_completion]).  On a server reached by insertions and
    queries, [insert_completion(prefix, word, score)] returns; it has run
    [add_completion(word, score)] once on the node of every prefix of
    [prefix] that is not empty, has left the other lists as they were (that
    of the root among them), and has changed no word mark. *)
Theorem insert_completion_registers (self : QueryServer) (prefix word : string)
    (score : Z) :
  reachable self ->
  exists self',
    insert_completion self prefix word score = Ok self' /\
    (forall a, completions_at self' a
               = if reaches a prefix then added (completions_at self a) word score
                 else completions_at self a) /\
    forall w, word_at self' w = word_at self w.
Proof.
  intros Hr. pose proof (reachable_typed _ Hr) as Ht. destruct self as [t].
  cbn [root] in Ht.
  exists (mkQueryServer (walk t prefix (lift (padd word score)) (lift (fun p => p)))).
  split; [now apply insert_completion_walk|].
  assert (Ht' : typed_root (walk t prefix (lift (padd word score)) (lift (fun p => p))))
    by now apply walk_typed_root.
  split.
  - intros a. rewrite !completions_at_find by assumption.
    unfold completions_of. rewrite find_walk by exact Ht.
    destruct (String.eqb a prefix), (reaches a prefix); reflexivity.
  - intros w. rewrite !word_at_find by assumption.
    unfold is_word_of, score_of. rewrite find_walk by exact Ht.
    destruct (String.eqb w prefix), (reaches w prefix); now rewrite ?fst_padd.
Qed.

Lemma insert_completion_registers_witness :
  exists self,
    build_from_tuples QueryServer_init [("ab", 1%Z); ("a", 2%Z)] = Ok self /\
    exists self',
      insert_completion self "ac" "x_ac" 7 = Ok self' /\
      (forall a, completions_at self' a
                 = if reaches a "ac" then added (completions_at self a) "x_ac" 7%Z
                   else completions_at self a) /\
      forall w, word_at self' w = word_at self w.
Proof.
  eexists. split; [vm_compute; reflexivity|].
  apply insert_completion_registers.
  eapply (reachable_build [("ab", 1%Z); ("a", 2%Z)]); [apply reach_init|].
  vm_compute; reflexivity.
Defined.

(** X7 (what a query returns, without earlier queries).  After any
    sequence of insertions into a new server, [get_completions(p)] returns
    the words of the first ten entries of the list, sorted in descending
    order, of all the entries registered at the node of [p]. *)
Theorem get_completions_top_ten (pairs : list (string * Z)) (p : string) :
  exists self l self',
    build_from_tuples QueryServer_init pairs = Ok self /\
    get_completions self p = Ok (l, self') /\
    l = map snd (firstn 10 (sort_reverse (registered p pairs))).
Proof.
  assert (H0 : typed_root (root QueryServer_init)) by exact I.
  eexists _, _, _. split; [apply (build_from_tuples_built pairs _ H0)|].
  split; [apply get_completions_built|reflexivity].
Qed.

(** X8 (the order of the insertions does not show).  Two sequences of
    insertions into new servers that differ only in their order give
    servers on which every query returns the same list. *)
Theorem insertion_order_irrelevant (pairs pairs' : list (string * Z)) (p : string) :
  Permutation pairs pairs' ->
  exists self1 self2 l self1' self2',
    build_from_tuples QueryServer_init pairs = Ok self1 /\
    build_from_tuples QueryServer_init pairs' = Ok self2 /\
    get_completions self1 p = Ok (l, self1') /\
    get_completions self2 p = Ok (l, self2').
Proof.
  intros P. assert (H0 : typed_root (root QueryServer_init)) by exact I.
  eexists _, _, _, _, _.
  split; [apply (build_from_tuples_built pairs _ H0)|].
  split; [apply (build_from_tuples_built pairs' _ H0)|].
  split; [apply get_completions_built|].
  rewrite get_completions_built. do 4 f_equal.
  apply sort_reverse_perm_eq, registered_perm. now apply Permutation_sym.
Qed.

Lemma insertion_order_irrelevant_witness :
  let pairs := [("ab", 1%Z); ("a_b", 2%Z); ("b", 3%Z)] in
  let pairs' := [("b", 3%Z); ("ab", 1%Z); ("a_b", 2%Z)] in
  exists self1 self2 l self1' self2',
    build_from_tuples QueryServer_init pairs = Ok self1 /\
    build_from_tuples QueryServer_init pairs' = Ok self2 /\
    get_completions self1 "b" = Ok (l, self1') /\
    get_completions self2 "b" = Ok (l, self2').
Proof.
  cbv zeta. apply insertion_order_irrelevant.
  apply Permutation_sym. apply (Permutation_cons_app [("ab", 1%Z); ("a_b", 2%Z)] []).
  apply Permutation_refl.
Defined.

(** X9 (when a query returns nothing).  After any sequence of insertions
    into a new server, [get_completions(p)] returns the empty list exactly
    when no inserted word starts with [p] or has [p] right after a
    ["_"]. *)
Theorem no_completions_iff (pairs : list (string * Z)) (p : string) :
  exists self l self',
    build_from_tuples QueryServer_init pairs = Ok self /\
    get_completions self p = Ok (l, self') /\
    (l = [] <-> forall x, In x pairs -> ~ completes p (fst x)).
Proof.
  assert (H0 : typed_root (root QueryServer_init)) by exact I.
  eexists _, _, _. split; [apply (build_from_tuples_built pairs _ H0)|].
  split; [apply get_completions_built|].
  rewrite <- registered_nil.
  pose proof (sort_reverse_length (registered p pairs)) as L.
  split.
  - intros E. apply map_eq_nil in E.
    destruct (sort_reverse (registered p pairs)) as [|e l]; [|discriminate].
    now apply length_zero_iff_nil.
  - now intros ->.
Qed.

(** X10 (a query does not change the answers).  On a server reached by
    insertions and queries, a query for [p] changes what no query returns:
    [get_completions(a)] returns the same list after it as before it. *)
Theorem query_keeps_answers (self : QueryServer) (p a : string) :
  reachable self ->
  exists l self1 la self2 self3,
    get_completions self p = Ok (l, self1) /\
    get_completions self a = Ok (la, self2) /\
    get_completions self1 a = Ok (la, self3).
Proof.
  intros Hr. pose proof (reachable_typed _ Hr) as Ht. destruct self as [t].
  cbn [root] in Ht. eexists _, _, _, _, _.
  split; [now apply get_completions_queried|].
  split; [now apply get_completions_queried|].
  rewrite get_completions_queried by now apply queried_typed_root.
  rewrite find_queried by exact Ht.
  destruct (String.eqb a p); [now rewrite sort_reverse_idem|reflexivity].
Qed.

Lemma query_keeps_answers_witness :
  exists self,
    build_from_tuples QueryServer_init [("ab", 1%Z); ("a", 2%Z); ("ac", 3%Z)] = Ok self /\
    exists l self1 la self2 self3,
      get_completions self "a" = Ok (l, self1) /\
      get_completions self EmptyString = Ok (la, self2) /\
      get_completions self1 EmptyString = Ok (la, self3).
Proof.
  eexists. split; [vm_compute; reflexivity|].
  apply query_keeps_answers.
  eapply (reachable_build [("ab", 1%Z); ("a", 2%Z); ("ac", 3%Z)]); [apply reach_init|].
  vm_compute; reflexivity.
Defined.

(** X11 (a query repeated).  On a server reached by insertions and
    queries, the same query made a second time returns the same list and
    leaves the server as the first query left it. *)
Theorem query_idempotent (self : QueryServer) (p : string) :
  reachable self ->
  exists l self1,
    get_completions self p = Ok (l, self1) /\
    get_completions self1 p = Ok (l, self1).
Proof.
  intros Hr. pose proof (reachable_typed _ Hr) as Ht. destruct self as [t].
  cbn [root] in Ht. eexists _, _.
  split; [now apply get_completions_queried|].
  rewrite get_completions_queried by now apply queried_typed_root.
  rewrite find_queried by exact Ht. rewrite String.eqb_refl.
  now rewrite sort_reverse_idem, queried_idem.
Qed.

Lemma query_idempotent_witness :
  exists self,
    build_from_tuples QueryServer_init [("ab", 1%Z); ("a", 2%Z); ("ac", 3%Z)] = Ok self /\
    exists l self1,
      get_completions self "a" = Ok (l, self1) /\
      get_completions self1 "a" = Ok (l, self1).
Proof.
  eexists. split; [vm_compute; reflexivity|].
  apply query_idempotent.
  eapply (reachable_build [("ab", 1%Z); ("a", 2%Z); ("ac", 3%Z)]); [apply reach_init|].
  vm_compute; reflexivity.
Defined.

(** X12 (what a query leaves as it is).  On a server reached by
    insertions and queries, a query for [p] changes at most the order of
    the list of the node of [p]: every list holds the entries it held, the
    lists of the other nodes and all the word marks are as before, and
    when [p] has no node the server is left as it was. *)
Theorem query_frame (self : QueryServer) (p : string) :
  reachable self ->
  exists l self1,
    get_completions self p = Ok (l, self1) /\
    (forall a, Permutation (completions_at self1 a) (completions_at self a)) /\
    (forall a, a <> p -> completions_at self1 a = completions_at self a) /\
    (forall w, word_at self1 w = word_at self w) /\
    (search self p = Ok None -> self1 = self).
Proof.
  intros Hr. pose proof (reachable_typed _ Hr) as Ht. destruct self as [t].
  cbn [root] in Ht. eexists _, _.
  split; [now apply get_completions_queried|].
  pose proof (queried_typed_root t p Ht) as Hq.
  split; [|split; [|split]].
  - intros a. rewrite !completions_at_find by assumption.
    rewrite find_queried by exact Ht.
    destruct (String.eqb a p); [apply sort_reverse_perm|apply Permutation_refl].
  - intros a Ha. rewrite !completions_at_find by assumption.
    rewrite find_queried by exact Ht. apply String.eqb_neq in Ha. now rewrite Ha.
  - intros w. rewrite !word_at_find by assumption.
    unfold is_word_of, score_of. now rewrite marks_queried.
  - rewrite search_spath by exact Ht. intros [= E]. unfold queried. now rewrite E.
Qed.

Lemma query_frame_witness :
  exists self,
    build_from_tuples QueryServer_init [("ab", 1%Z); ("a", 2%Z); ("ac", 3%Z)] = Ok self /\
    exists l self1,
      get_completions self "a" = Ok (l, self1) /\
      (forall a, Permutation (completions_at self1 a) (completions_at self a)) /\
      (forall a, a <> "a" -> completions_at self1 a = completions_at self a) /\
      (forall w, word_at self1 w = word_at self w) /\
      (search self "a" = Ok None -> self1 = self).
Proof.
  eexists. split; [vm_compute; reflexivity|].
  apply query_frame.
  eapply (reachable_build [("ab", 1%Z); ("a", 2%Z); ("ac", 3%Z)]); [apply reach_init|].
  vm_compute; reflexivity.
Defined.

(** X13 ([add_completion]).  [add_completion(word, score)] returns.  On a
    list in heap order it leaves a list in heap order: the entries it held
    and the new one when it held fewer than ten; otherwise these less one
    entry [r] than which none of them is smaller. *)
Theorem add_completion_spec (completions : list item) (word : string) (score : Z) :
  heap_ok completions ->
  exists completions',
    add_completion completions word score = Ok completions' /\
    heap_ok completions' /\
    (List.length completions < 10 ->
     Permutation completions' ((score, word) :: completions)) /\
    (10 <= List.length completions ->
     exists r, Permutation (r :: completions') ((score, word) :: completions) /\
               forall y, In y ((score, word) :: completions) -> tuple_lt y r = false).
Proof.
  intros Hh. exists (added completions word score).
  split; [apply add_completion_added|]. split; [now apply added_heap_ok|]. split.
  - intros Hl. now apply added_small.
  - intros Hl. destruct (added_full completions word score Hl) as (r & P & Hr).
    exists r. split; [exact P|now apply Hr].
Qed.

Lemma add_completion_spec_witness :
  let completions := [(1, "a"); (3, "c"); (2, "b")]%Z in
  heap_ok completions /\
  exists completions',
    add_completion completions "d" 0 = Ok completions' /\
    heap_ok completions' /\
    (List.length completions < 10 ->
     Permutation completions' ((0%Z, "d") :: completions)) /\
    (10 <= List.length completions ->
     exists r, Permutation (r :: completions') ((0%Z, "d") :: completions) /\
               forall y, In y ((0%Z, "d") :: completions) -> tuple_lt y r = false).
Proof.
  cbv zeta.
  assert (H : heap_ok [(1, "a"); (3, "c"); (2, "b")]%Z).
  { intros i Hi. cbn [List.length] in Hi.
    destruct i as [|[|[|i]]]; [lia|reflexivity|reflexivity|lia]. }
  split; [exact H|]. now apply add_completion_spec.
Defined.

(** X14 ([deserialize] restores the server).  For every sequence, not
    empty, of insertions of words without comma, white space and [":"]
    into a new server, [deserialize] of what [serialize] returns, on any
    server, leaves that server equal to the one serialized. *)
Theorem deserialize_restores (pairs : list (string * Z)) (other : QueryServer) :
  pairs <> [] ->
  (forall x, In x pairs -> plain (fst x) = true /\ lacks ":"%char (fst x) = true) ->
  exists self,
    build_from_tuples QueryServer_init pairs = Ok self /\
    deserialize other (serialize self) = (self, None).
Proof.
  intros Hne Hp. assert (H0 : typed_root (root QueryServer_init)) by exact I.
  eexists. split; [apply (build_from_tuples_built pairs _ H0)|].
  rewrite deserialize_built; [|exact Hne|intros x Hx; now apply Hp].
  rewrite decoded_kept; [reflexivity|].
  apply all_kept_built; [intros x Hx; now apply Hp|exact H0|].
  cbn. unfold data_kept. auto.
Qed.

Lemma deserialize_restores_witness :
  let pairs := [("foo", 1%Z); ("bar_foo", 3%Z); (EmptyString, 7%Z)] in
  exists self,
    build_from_tuples QueryServer_init pairs = Ok self /\
    deserialize QueryServer_init (serialize self) = (self, None).
Proof.
  cbv zeta. apply deserialize_restores; [discriminate|].
  simpl. intros x H.
  repeat (destruct H as [<-|H]; [split; reflexivity|]). contradiction.
Defined.

(** X15 (a [":"] is lost).  When the first word inserted into a new
    server starts with [":"], the serialization still reads back, and
    gives the same serialization again; but the node of [":"] comes back
    without its character, so that on the server read back every query for
    a prefix that is not empty and every insertion of a word that is not
    empty raise [TypeError]. *)
Theorem colon_lost (w : string) (s : Z) (pairs : list (string * Z))
    (other : QueryServer) :
  plain w = true ->
  (forall x, In x pairs -> plain (fst x) = true) ->
  exists self loaded,
    build_from_tuples QueryServer_init ((String ":"%char w, s) :: pairs) = Ok self /\
    deserialize other (serialize self) = (loaded, None) /\
    serialize loaded = serialize self /\
    (forall c p, get_completions loaded (String c p) = Raise TypeError) /\
    (forall c word score, insert loaded (String c word) score = Raise TypeError).
Proof.
  intros Hw Hp. assert (H0 : typed_root (root QueryServer_init)) by exact I.
  set (all := (String ":"%char w, s) :: pairs).
  exists (mkQueryServer (built (root QueryServer_init) all)),
         (mkQueryServer (decoded (built (root QueryServer_init) all))).
  split; [apply (build_from_tuples_built all _ H0)|].
  split.
  { apply deserialize_built; [discriminate|].
    intros x [<-|Hx]; [cbn [fst plain]; now rewrite Hw|now apply Hp]. }
  split; [unfold serialize; cbn [root]; now rewrite encode_decoded|].
  assert (M : middle_data (built (root QueryServer_init) all) = Some ":").
  { unfold all. cbn [built fst snd].
    apply middle_data_built; [now apply inserted_typed_root|].
    apply middle_data_first. }
  apply middle_data_get in M as (d & w0 & s0 & cs & l & m & r & -> & M).
  destruct m as [|d' w' s' cs' l' m' r']; [discriminate|]. cbn in M.
  injection M as ->. cbn [decoded decoded_data].
  change (Py.str_eq ":" ":") with true. cbv iota. split.
  - intros c p. unfold get_completions. now rewrite search_middle_none.
  - intros c word score. unfold insert. cbn [root update].
    unfold Node_add_completion. cbn [get_completions_attr bind].
    rewrite add_completion_added. reflexivity.
Qed.

Lemma colon_lost_witness :
  exists self loaded,
    build_from_tuples QueryServer_init [(":a", 1%Z); ("b", 2%Z)] = Ok self /\
    deserialize QueryServer_init (serialize self) = (loaded, None) /\
    serialize loaded = serialize self /\
    (forall c p, get_completions loaded (String c p) = Raise TypeError) /\
    (forall c word score, insert loaded (String c word) score = Raise TypeError).
Proof.
  apply (colon_lost "a" 1 [("b", 2%Z)] QueryServer_init); [reflexivity|].
  simpl. intros x [<-|[]]. reflexivity.
Defined.

(** X16 (a serialization that starts with [":"]).  When the first token
    of the string is [":"], [deserialize] returns and leaves the server
    without a root: [serialize] then returns [":"], the query for the
    empty prefix returns the empty list, and every other query and every
    insertion raise [AttributeError]. *)
Theorem deserialize_none_root (self : QueryServer) (encoding : string)
    (rest : list string) :
  Py.split_ws encoding = ":" :: rest ->
  let loaded := mkQueryServer PyNone in
  deserialize self encoding = (loaded, None) /\
  serialize loaded = ":" /\
  get_completions loaded EmptyString = Ok ([], loaded) /\
  (forall c p, get_completions loaded (String c p) = Raise AttributeError) /\
  (forall word score, insert loaded word score = Raise AttributeError).
Proof.
  intros H. cbv zeta. unfold deserialize. rewrite H. repeat split.
Qed.

Lemma deserialize_none_root_witness :
  Py.split_ws " : a,True,1,1,a" = [":"; "a,True,1,1,a"] /\
  deserialize QueryServer_init " : a,True,1,1,a" = (mkQueryServer PyNone, None) /\
  serialize (mkQueryServer PyNone) = ":" /\
  get_completions (mkQueryServer PyNone) EmptyString = Ok ([], mkQueryServer PyNone) /\
  (forall c p, get_completions (mkQueryServer PyNone) (String c p) = Raise AttributeError) /\
  (forall word score, insert (mkQueryServer PyNone) word score = Raise AttributeError).
Proof.
  split; [reflexivity|].
  apply (deserialize_none_root QueryServer_init " : a,True,1,1,a" ["a,True,1,1,a"]).
  reflexivity.
Defined.

(** X17 ([deserialize] does not bound the lists).  A root that holds any
    number of entries, with plain words, is read back by [deserialize] as
    it was serialized; the query for the empty prefix then returns all its
    words, and an insertion leaves a list of ten or more entries with as
    many entries as it had. *)
Theorem deserialize_keeps_long_lists (cs : list item) (other : QueryServer) :
  cs <> [] ->
  Forall (fun e => plain (snd e) = true) cs ->
  let self := mkQueryServer (mkNode None false 0 cs PyNone PyNone PyNone) in
  deserialize other (serialize self) = (self, None) /\
  (exists l self',
     get_completions self EmptyString = Ok (l, self') /\
     List.length l = List.length cs) /\
  forall word score,
    exists self',
      insert self word score = Ok self' /\
      (10 <= List.length cs ->
       List.length (completions_at self' EmptyString) = List.length cs).
Proof.
  intros Hne Hp. cbv zeta.
  set (t := mkNode None false 0 cs PyNone PyNone PyNone).
  assert (Ht : typed_root t) by exact I.
  split.
  { rewrite (deserialize_serialize other t); [reflexivity|].
    cbn. unfold node_encodable. auto. }
  split.
  { eexists _, _. split; [now apply get_completions_queried|].
    cbn [find]. now rewrite length_map, sort_reverse_length. }
  intros word score. exists (mkQueryServer (inserted t word score)).
  split; [now apply insert_inserted|]. intros Hl.
  rewrite completions_at_find by now apply inserted_typed_root.
  rewrite find_inserted by exact Ht. unfold registrations, hits. cbn [reaches].
  rewrite suffix_hits_empty. cbn [Nat.add Nat.iter nat_rect find].
  rewrite added_length. unfold t. cbn [completions_of payload_of snd]. lia.
Qed.

Lemma deserialize_keeps_long_lists_witness :
  let cs := [(1, "a"); (2, "b"); (3, "c"); (4, "d"); (5, "e"); (6, "f");
             (7, "g"); (8, "h"); (9, "i"); (10, "j"); (11, "k"); (12, "l")]%Z in
  let self := mkQueryServer (mkNode None false 0 cs PyNone PyNone PyNone) in
  deserialize QueryServer_init (serialize self) = (self, None) /\
  (exists l self',
     get_completions self EmptyString = Ok (l, self') /\
     List.length l = List.length cs) /\
  forall word score,
    exists self',
      insert self word score = Ok self' /\
      (10 <= List.length cs ->
       List.length (completions_at self' EmptyString) = List.length cs).
Proof.
  cbv zeta. apply deserialize_keeps_long_lists; [discriminate|].
  repeat constructor.
Defined.

(** X18 ([build_from_strings] on written pairs).  For pairs whose words
    have no comma, [build_from_strings] on the strings ["word, score"]
    does what [build_from_tuples] does on the pairs, with each word
    stripped of the white space around it. *)
Theorem build_from_strings_tuples (self : QueryServer) (pairs : list (string * Z)) :
  (forall x, In x pairs -> lacks ","%char (fst x) = true) ->
  build_from_strings self (map entry_text pairs)
  = build_from_tuples self (map stripped pairs).
Proof.
  intros H. rewrite <- (app_nil_r (map entry_text pairs)).
  rewrite build_from_strings_entries by exact H.
  now destruct (build_from_tuples self (map stripped pairs)).
Qed.

Lemma build_from_strings_tuples_witness :
  let pairs := [(" foo bar", 12%Z); ("b_c", (-3)%Z)] in
  map entry_text pairs = [" foo bar, 12"; "b_c, -3"] /\
  map stripped pairs = [("foo bar", 12%Z); ("b_c", (-3)%Z)] /\
  build_from_strings QueryServer_init (map entry_text pairs)
  = build_from_tuples QueryServer_init (map stripped pairs).
Proof.
  cbv zeta. split; [reflexivity|]. split; [reflexivity|].
  apply build_from_strings_tuples.
  simpl. intros x H. repeat (destruct H as [<-|H]; [reflexivity|]). contradiction.
Defined.

(** X19 ([build_from_strings] on a malformed string).  On a server
    reached by insertions and queries, after any number of well-formed
    strings, a string without comma makes [build_from_strings] raise
    [IndexError], and a string ["name,field"] whose field, stripped, is no
    integer makes it raise [ValueError]. *)
Theorem build_from_strings_malformed (self : QueryServer) (good : list (string * Z))
    (line : string) (rest : list string) :
  reachable self ->
  (forall x, In x good -> lacks ","%char (fst x) = true) ->
  (lacks ","%char line = true ->
   build_from_strings self (map entry_text good ++ line :: rest) = Raise IndexError) /\
  (forall name field,
     line = (name ++ "," ++ field)%string ->
     lacks ","%char name = true -> lacks ","%char field = true ->
     Py.int_of_str (str_strip field) = Raise ValueError ->
     build_from_strings self (map entry_text good ++ line :: rest) = Raise ValueError).
Proof.
  intros Hr Hg. pose proof (reachable_typed _ Hr) as Ht. destruct self as [t].
  cbn [root] in Ht. rewrite build_from_strings_entries by exact Hg.
  rewrite build_from_tuples_built by exact Ht. cbn [bind build_from_strings].
  split.
  - intros Hl. now rewrite split_on_lacks.
  - intros name field -> Hn Hf E.
    change ((name ++ "," ++ field)%string) with ((name ++ String ","%char field)%string).
    rewrite split_on_app_lacks by exact Hn. rewrite split_on_lacks by exact Hf.
    cbn [index nth_error bind]. now rewrite E.
Qed.

Lemma build_from_strings_malformed_witness :
  let good := [("foo", 1%Z)] in
  (build_from_strings QueryServer_init (map entry_text good ++ ["bar 2"; "baz, 3"])
   = Raise IndexError) /\
  (build_from_strings QueryServer_init (map entry_text good ++ ["bar, two"; "baz, 3"])
   = Raise ValueError).
Proof.
  cbv zeta.
  assert (G : forall x, In x [("foo", 1%Z)] -> lacks ","%char (fst x) = true).
  { simpl. intros x [<-|[]]. reflexivity. }
  split.
  - apply (proj1 (build_from_strings_malformed QueryServer_init [("foo", 1%Z)]
                    "bar 2" ["baz, 3"] reach_init G)). reflexivity.
  - apply (proj2 (build_from_strings_malformed QueryServer_init [("foo", 1%Z)]
                    "bar, two" ["baz, 3"] reach_init G) "bar" " two");
      reflexivity.
Defined.

(** X20 ([load_QueryServer] from a file of names).  When no pairs are
    given, a file of names that holds the pairs as ["(word, score)"], with
    words without comma and without [")"], loads as the server that
    [build_from_tuples] builds from the pairs, each word stripped of the
    white space around it.  What stands before the first pair and between
    the pairs is skipped as long as it holds no ["("], and the file of a
    serialization is not looked at. *)
Theorem load_names_file (intro sep : string) (pairs : list (string * Z))
    (encoding_input : option string) :
  lacks "("%char intro = true -> lacks "("%char sep = true ->
  (forall x, In x pairs ->
     lacks ","%char (fst x) = true /\ lacks ")"%char (fst x) = true) ->
  load_QueryServer [] (Some (intro ++ names_text sep pairs)%string) encoding_input
  = build_from_tuples QueryServer_init (map stripped pairs).
Proof.
  intros Hh Hs H. unfold load_QueryServer.
  rewrite findall_groups_skip by exact Hh.
  rewrite findall_groups_names by (try exact Hs; intros x Hx; now apply H).
  rewrite <- (app_nil_r (map entry_text pairs)).
  rewrite build_from_strings_entries by (intros x Hx; now apply H).
  now destruct (build_from_tuples QueryServer_init (map stripped pairs)).
Qed.

Lemma load_names_file_witness :
  let pairs := [("foo", 1%Z); ("bar_foo ", 3%Z)] in
  ("names: " ++ names_text newline pairs)%string
  = ("names: (foo, 1)" ++ newline ++ "(bar_foo , 3)" ++ newline)%string /\
  load_QueryServer [] (Some ("names: " ++ names_text newline pairs)%string) None
  = build_from_tuples QueryServer_init [("foo", 1%Z); ("bar_foo", 3%Z)].
Proof.
  cbv zeta. split; [reflexivity|].
  apply (load_names_file "names: " newline [("foo", 1%Z); ("bar_foo ", 3%Z)] None);
    [reflexivity|reflexivity|].
  simpl. intros x H. repeat (destruct H as [<-|H]; [split; reflexivity|]). contradiction.
Defined.

(** X21 ([load_QueryServer] from a serialization).  For every sequence,
    not empty, of insertions of words without comma, white space and [":"]
    into a new server, [load_QueryServer] on a file that holds what
    [serialize] returns gives a server equal to the one serialized. *)
Theorem load_encoding_file (pairs : list (string * Z)) :
  pairs <> [] ->
  (forall x, In x pairs -> plain (fst x) = true /\ lacks ":"%char (fst x) = true) ->
  exists self,
    build_from_tuples QueryServer_init pairs = Ok self /\
    load_QueryServer [] None (Some (serialize self)) = Ok self.
Proof.
  intros Hne Hp. assert (H0 : typed_root (root QueryServer_init)) by exact I.
  eexists. split; [apply (build_from_tuples_built pairs _ H0)|].
  unfold load_QueryServer.
  rewrite deserialize_built; [|exact Hne|intros x Hx; now apply Hp].
  rewrite decoded_kept; [reflexivity|].
  apply all_kept_built; [intros x Hx; now apply Hp|exact H0|].
  cbn. unfold data_kept. auto.
Qed.

Lemma load_encoding_file_witness :
  let pairs := [("foo", 1%Z); ("bar_foo", 3%Z)] in
  exists self,
    build_from_tuples QueryServer_init pairs = Ok self /\
    load_QueryServer [] None (Some (serialize self)) = Ok self.
Proof.
  cbv zeta. apply load_encoding_file; [discriminate|].
  simpl. intros x H.
  repeat (destruct H as [<-|H]; [split; reflexivity|]). contradiction.
Defined.

(** X22 (queries in between, few entries).  After any sequence of
    insertions and queries on a new server, when at most ten entries are
    registered at the node of [p], [get_completions(p)] returns the words
    of all of them, sorted in descending order. *)
Theorem few_entries_exact (cs : list call) (p : string) :
  List.length (registered p (inserts_of cs)) <= 10 ->
  exists self l self',
    calls QueryServer_init cs = Ok self /\
    get_completions self p = Ok (l, self') /\
    l = map snd (sort_reverse (registered p (inserts_of cs))).
Proof.
  intros H. assert (H0 : typed_root (root QueryServer_init)) by exact I.
  destruct (calls_ran cs _ H0) as [E Ht].
  eexists _, _, _. split; [exact E|].
  split; [now apply get_completions_queried|].
  f_equal. apply sort_reverse_perm_eq.
  rewrite <- (app_nil_r (registered p (inserts_of cs))).
  apply find_ran_perm; [exact H0|now rewrite find_init|simpl; lia].
Qed.

Lemma few_entries_exact_witness :
  let cs := [Insert "ab" 1; Query "a"; Insert "c_a" 5; Query EmptyString;
             Insert "a" 3; Query "a"]%Z in
  registered "a" (inserts_of cs) = [(1, "ab"); (5, "c_a"); (3, "a")]%Z /\
  exists self l self',
    calls QueryServer_init cs = Ok self /\
    get_completions self "a" = Ok (l, self') /\
    l = map snd (sort_reverse (registered "a" (inserts_of cs))).
Proof.
  cbv zeta. split; [reflexivity|].
  apply few_entries_exact. vm_compute. lia.
Defined.

(** X23 (queries in between, soundness).  After any sequence of
    insertions and queries on a new server, [get_completions(p)] returns,
    and every word it returns has been inserted and starts with [p] or has
    [p] right after some ["_"]. *)
Theorem completions_were_inserted (cs : list call) (p : string) :
  exists self l self',
    calls QueryServer_init cs = Ok self /\
    get_completions self p = Ok (l, self') /\
    forall t, In t l -> In t (map fst (inserts_of cs)) /\ completes p t.
Proof.
  assert (H0 : typed_root (root QueryServer_init)) by exact I.
  destruct (calls_ran cs _ H0) as [E Ht].
  eexists _, _, _. split; [exact E|].
  split; [now apply get_completions_queried|].
  intros t Hin. apply in_map_iff in Hin as ([s t'] & <- & He).
  apply (Permutation_in _ (sort_reverse_perm _)) in He.
  apply (find_ran_in cs _ p _ H0) in He as [He|[H1 H2]].
  - rewrite find_init in He. contradiction.
  - split; [|exact H2]. apply in_map_iff. now exists (t', s).
Qed.

(** X24 (nodes stay where they are).  On a server reached by insertions
    and queries, a node that [search] finds for a string is found for it
    at the same place after every further insertion and every further
    query: no call removes or moves a node. *)
Theorem nodes_stay (self : QueryServer) (a : string) (node : ref) :
  reachable self ->
  search self a = Ok (Some node) ->
  (forall word score,
     exists self', insert self word score = Ok self' /\
                   search self' a = Ok (Some node)) /\
  (forall prefix,
     exists l self', get_completions self prefix = Ok (l, self') /\
                     search self' a = Ok (Some node)).
Proof.
  intros Hr. pose proof (reachable_typed _ Hr) as Ht. destruct self as [t].
  cbn [root] in Ht. rewrite search_spath by exact Ht. intros [= H]. split.
  - intros word score. exists (mkQueryServer (inserted t word score)).
    split; [now apply insert_inserted|].
    rewrite search_spath by now apply inserted_typed_root.
    f_equal. now apply spath_inserted_stable.
  - intros prefix. eexists _, _. split; [now apply get_completions_queried|].
    rewrite search_spath by now apply queried_typed_root.
    f_equal. now apply spath_queried_stable.
Qed.

Lemma nodes_stay_witness :
  exists self,
    build_from_tuples QueryServer_init [("m", 1%Z); ("ma", 2%Z)] = Ok self /\
    search self "ma" = Ok (Some [Middle; Middle]) /\
    (forall word score,
       exists self', insert self word score = Ok self' /\
                     search self' "ma" = Ok (Some [Middle; Middle])) /\
    (forall prefix,
       exists l self', get_completions self prefix = Ok (l, self') /\
                       search self' "ma" = Ok (Some [Middle; Middle])).
Proof.
  eexists. split; [vm_compute; reflexivity|].
  split; [vm_compute; reflexivity|].
  apply nodes_stay.
  - eapply (reachable_build [("m", 1%Z); ("ma", 2%Z)]); [apply reach_init|].
    vm_compute; reflexivity.
  - vm_compute; reflexivity.
Defined.
